(** * TransPal transcriber: chunked transcription and speaker resolution

    A shallow embedding of the orchestration code of [src/index.ts] (the
    audio-sample pipeline) and of the text-normalisation variant of the
    same pipeline kept in the repository, together with the properties the
    design document states about them.

    Conventions of the embedding:
    - a JavaScript [number] holding seconds is a rational [Q]: sums,
      differences and comparisons are written as the code writes them and
      are evaluated exactly (IEEE rounding is not modelled), and the
      statements are phrased on the expressions the code computes;
    - a JavaScript string is a [string] (a byte sequence);
    - a plain object used as a dictionary ([Record<string, string>]) is
      the [gmap string string] of its own properties; reading [obj[key]]
      goes through [Js.lookup], which falls back to the members every
      object inherits from [Object.prototype], and writing goes through
      [Js.assign];
    - [path.join] is the one of a POSIX host ([Js.pathJoin]);
    - a [Map] is an insertion-ordered association list ([JsMap]);
    - every [await]ed call that leaves the process (file system, ffmpeg,
      the inference service, the timer) is an [Event] appended to a log,
      and its outcome is read from an [Env] of oracles that see the log
      so far. *)

From Stdlib Require Import QArith Qround Qminmax Lqa.
From stdpp Require Import base list strings gmap pretty sorting.

Local Open Scope string_scope.
Local Open Scope list_scope.

(** ** Data model *)

(** A transcript item whose [speaker] holds a value of type [S].  What the
    service returns is validated against [transcriptionSchema], so its
    speaker is a string ([Item]); after speaker resolution the field holds
    whatever [mapping[code] || code] evaluated to. *)
Record ItemOf (S : Type) : Type := mkItem {
  speaker : S;
  startTime : Q;
  endTime : Q;
  text : string
}.

Arguments mkItem {S} _ _ _ _.
Arguments speaker {S} _.
Arguments startTime {S} _.
Arguments endTime {S} _.
Arguments text {S} _.

(** One element of [transcriptionSchema]. *)
Abbreviation Item := (ItemOf string).

(** [accumulatedResultsType], over the type of the speaker values. *)
Record AccumulatedOf (S : Type) : Type := mkAccumulated {
  title : string;
  slug : string;
  transcription : list (ItemOf S);
  summary : string
}.

Arguments mkAccumulated {S} _ _ _ _.
Arguments title {S} _.
Arguments slug {S} _.
Arguments transcription {S} _.
Arguments summary {S} _.

Abbreviation Accumulated := (AccumulatedOf string).

(** An entry of [allChunkResults]: [{ index: i, transcription }]. *)
Record ChunkResult : Type := mkChunkResult {
  index : nat;
  cr_transcription : list Item
}.

(** ** JavaScript helpers *)

Module Js.

(** Truthiness of a value of type [string | undefined]. *)
Definition truthy (v : option string) : bool :=
  match v with
  | Some s => negb (String.eqb s "")
  | None => false
  end.

(** [a || b] where [a : string | undefined] and [b : string]. *)
Definition or (a : option string) (b : string) : string :=
  match a with
  | Some s => if String.eqb s "" then b else s
  | None => b
  end.

(** [a ?? b]: only [undefined] falls through. *)
Definition nullish (a : option string) (b : string) : string :=
  match a with
  | Some s => s
  | None => b
  end.

(** [ks.startsWith(s)]. *)
Definition startsWith (ks s : string) : bool := String.prefix s ks.

(** [xs.some(p)]. *)
Definition some {A} (p : A -> bool) (xs : list A) : bool := existsb p xs.

(** [xs.includes(x)] on strings. *)
Definition includes (xs : list string) (x : string) : bool :=
  existsb (String.eqb x) xs.

(** [[...new Set(xs)]]: the distinct elements in order of first
    occurrence. *)
Definition setOf (xs : list string) : list string :=
  fold_left (fun seen x => if includes seen x then seen else seen ++ [x])
            xs [].

(** [xs.join(sep)]. *)
Fixpoint join (sep : string) (xs : list string) : string :=
  match xs with
  | [] => ""
  | [x] => x
  | x :: rest => x +:+ sep +:+ join sep rest
  end.

(** [xs.slice(-n)]: the last [n] elements. *)
Definition sliceLast {A} (n : nat) (xs : list A) : list A :=
  skipn (length xs - n) xs.

(** The property names every plain object inherits from
    [Object.prototype]. *)
Definition prototypeMembers : list string :=
  [ "constructor"; "__defineGetter__"; "__defineSetter__"; "hasOwnProperty";
    "__lookupGetter__"; "__lookupSetter__"; "isPrototypeOf";
    "propertyIsEnumerable"; "toString"; "valueOf"; "__proto__";
    "toLocaleString" ].

Definition inherited (key : string) : bool := includes prototypeMembers key.

(** A value met where the declared type says [string]: a string, or the
    member of [Object.prototype] a lookup fell through to (a function, or
    the prototype object itself for [__proto__]). *)
Inductive value : Type :=
| Str (s : string)
| Member (key : string).

(** [obj[key]] on a plain object whose own properties are the entries of
    [obj]: an own property first, then the prototype. *)
Definition lookup (obj : gmap string string) (key : string) : option value :=
  match obj !! key with
  | Some v => Some (Str v)
  | None => if inherited key then Some (Member key) else None
  end.

(** Truthiness of [obj[key]]: every inherited member is an object. *)
Definition truthyValue (v : option value) : bool :=
  match v with
  | Some (Str s) => negb (String.eqb s "")
  | Some (Member _) => true
  | None => false
  end.

(** [obj[key] || fallback]. *)
Definition orValue (v : option value) (fallback : string) : value :=
  match v with
  | Some (Str s) => if String.eqb s "" then Str fallback else Str s
  | Some (Member key) => Member key
  | None => Str fallback
  end.

(** [obj[key] = v] with a string [v]: an own property is written, except
    that on an object without own [__proto__] the inherited [__proto__]
    setter runs instead and ignores a string. *)
Definition assign (obj : gmap string string) (key v : string)
    : gmap string string :=
  match obj !! key with
  | Some _ => <[key := v]> obj
  | None => if String.eqb key "__proto__" then obj else <[key := v]> obj
  end.

(** [s.split("/")]. *)
Fixpoint splitSlash (s : string) : list string :=
  match s with
  | EmptyString => [ EmptyString ]
  | String c rest =>
      if String.eqb (String c EmptyString) "/"
      then EmptyString :: splitSlash rest
      else match splitSlash rest with
           | seg :: segs => String c seg :: segs
           | [] => [ String c EmptyString ]
           end
  end.

(** One segment of [normalizeString] in Node's POSIX [path] module.  The
    stack holds the segments kept so far, the last one first: empty and
    [.] segments are dropped, [..] removes the segment before it and is
    kept only where a relative path climbs above its start. *)
Definition pushSegment (allowAboveRoot : bool) (stack : list string)
    (seg : string) : list string :=
  if String.eqb seg "" || String.eqb seg "." then stack
  else if String.eqb seg ".." then
    match stack with
    | top :: below =>
        if String.eqb top ".."
        then (if allowAboveRoot then seg :: stack else stack)
        else below
    | [] => if allowAboveRoot then [ seg ] else []
    end
  else seg :: stack.

(** [path.posix.normalize(p)]. *)
Definition normalize (p : string) : string :=
  if String.eqb p "" then "." else
  let isAbsolute := String.prefix "/" p in
  let trailingSeparator :=
    String.eqb (String.substring (String.length p - 1) 1 p) "/" in
  let kept :=
    join "/" (rev (fold_left (pushSegment (negb isAbsolute)) (splitSlash p)
                             [])) in
  if String.eqb kept "" then
    (if isAbsolute then "/" else if trailingSeparator then "./" else ".")
  else
    (if isAbsolute then "/" else "") +:+ kept +:+
    (if trailingSeparator then "/" else "").

(** [path.join(dir, file)] on a POSIX host: the non-empty arguments are
    joined by [/] and the result is normalised. *)
Definition pathJoin (dir file : string) : string :=
  normalize (if String.eqb dir "" then file
             else if String.eqb file "" then dir
             else dir +:+ "/" +:+ file).

End Js.

(** ** Timestamp re-basing (the merge loops) *)

(** The object literal
    [{ ...item, startTime: item.startTime + timeOffset,
       endTime: item.endTime + timeOffset }]. *)
Definition rebaseItem (timeOffset : Q) (item : Item) : Item :=
  {| speaker := speaker item;
     startTime := (startTime item + timeOffset)%Q;
     endTime := (endTime item + timeOffset)%Q;
     text := text item |}.

(** The inner [for (const item of ...)] loop: one [push] per item. *)
Definition pushRebased (timeOffset : Q) (items : list Item)
    (acc : list Item) : list Item :=
  fold_left (fun acc item => acc ++ [rebaseItem timeOffset item]) items acc.

(** [chunkResult.index * segmentTime]. *)
Definition timeOffsetOf (segmentTime : Q) (i : nat) : Q :=
  (inject_Z (Z.of_nat i) * segmentTime)%Q.

(** The merge loop of [processAudioFile] in [src/index.ts]:
    [for (const chunkResult of allChunkResults) { ... }]. *)
Definition mergeChunkResults (segmentTime : Q) (all : list ChunkResult)
    (acc : list Item) : list Item :=
  fold_left
    (fun acc chunkResult =>
       pushRebased (timeOffsetOf segmentTime (index chunkResult))
                   (cr_transcription chunkResult) acc)
    all acc.

(** ** The outside world: events, oracles and the effect monad *)

(** A thrown JavaScript value, identified by its message. *)
Definition Error : Type := string.

(** The bytes of a file as returned by [readFile]. *)
Definition FileData : Type := string.

(** An element of a user message's [content] array. *)
Inductive ContentPart : Type :=
| PartText (t : string)
| PartFile (data : FileData).

(** The system prompt of [transcribeChunk]: [promptTemplate] with its
    three placeholders filled.  The [String.prototype.replace] calls are
    kept symbolic; the three substituted texts are computed as in the
    source. *)
Record SystemPrompt : Type := mkSystemPrompt {
  sp_template : string;
  sp_knownSpeakers : string;
  sp_previousContext : string;
  sp_customPrompt : string
}.

(** [output] of the title/summary call; the model is asked for a slug of
    lowercase letters, digits and hyphens through the schema description
    only. *)
Record SummaryOutput : Type := mkSummaryOutput {
  so_title : string;
  so_slug : string;
  so_summary : string
}.

(** Everything the process asks of its environment. *)
Inductive Event : Type :=
| EvMkdir (dir : string)
| EvReadFile (path : string)
| EvSplit (filePath outputDir : string) (segmentTime : Q)
| EvExtract (inputPath : string) (start duration : Q) (outputPath : string)
| EvTranscribe (system : SystemPrompt) (audio : FileData)
| EvDiscover (audio : FileData)
| EvResolve (userContent : list ContentPart)
| EvNormalize (transcript : list Item)
| EvSummarize (transcript : list (ItemOf Js.value))
| EvDelay (ms : Z)
| EvRm (dir : string).

Definition Log : Type := list Event.

(** The environment answers each request knowing the whole history of
    requests made before it, so any stateful or adaptive collaborator is
    an [Env].  [env_spreadLimit] is the largest number of array elements
    the JavaScript engine accepts in a spread call [f(...xs, y)]. *)
Record Env : Type := mkEnv {
  env_mkdir : Log -> string -> option Error;
  env_readFile : Log -> string -> Error + FileData;
  env_split : Log -> string -> string -> Q -> Error + list string;
  env_extract : Log -> string -> Q -> Q -> string -> option Error;
  env_transcribe : Log -> SystemPrompt -> FileData -> Error + list Item;
  env_discover : Log -> FileData -> Error + list (string * string);
  env_resolve : Log -> list ContentPart -> Error + list (string * string);
  env_normalize : Log -> list Item -> Error + gmap string string;
  env_summarize : Log -> list (ItemOf Js.value) -> Error + SummaryOutput;
  env_rm : Log -> string -> option Error;
  env_spreadLimit : N
}.

(** An [async] computation: it extends the log and either throws or
    returns. *)
Definition M (A : Type) : Type := Log -> (Error + A) * Log.

#[global] Instance M_ret : MRet M := fun A a h => (inr a, h).

#[global] Instance M_bind : MBind M := fun A B f m h =>
  match m h with
  | (inr a, h') => f a h'
  | (inl e, h') => (inl e, h')
  end.

Definition throw {A} (e : Error) : M A := fun h => (inl e, h).

(** [try { m } catch (error) { handler error }]. *)
Definition tryCatch {A} (m : M A) (handler : Error -> M A) : M A := fun h =>
  match m h with
  | (inl e, h') => handler e h'
  | r => r
  end.

(** A request whose reply is a value or an error. *)
Definition request {A} (ev : Event) (reply : Log -> Error + A) : M A :=
  fun h => (reply h, h ++ [ev]).

(** A request that returns nothing on success. *)
Definition command (ev : Event) (reply : Log -> option Error) : M unit :=
  fun h => (match reply h with Some e => inl e | None => inr tt end,
            h ++ [ev]).

(** A loop over an array threading the loop-carried variables. *)
Fixpoint forEachM {A S} (body : S -> A -> M S) (xs : list A) (s : S) : M S :=
  match xs with
  | [] => mret s
  | x :: rest => s' ← body s x; forEachM body rest s'
  end.

Section Calls.
Variable env : Env.

Definition mkdir (dir : string) : M unit :=
  command (EvMkdir dir) (fun h => env_mkdir env h dir).

Definition readFile (path : string) : M FileData :=
  request (EvReadFile path) (fun h => env_readFile env h path).

Definition rm (dir : string) : M unit :=
  command (EvRm dir) (fun h => env_rm env h dir).

(** [delay(ms)]: the timer always fires. *)
Definition delay (ms : Z) : M unit :=
  command (EvDelay ms) (fun _ => None).

(** [extractAudioSegment]: one ffmpeg run with [-ss startTime -t duration]. *)
Definition extractAudioSegment (inputPath : string) (startT endT : Q)
    (outputPath : string) : M unit :=
  let duration := (endT - startT)%Q in
  command (EvExtract inputPath startT duration outputPath)
          (fun h => env_extract env h inputPath startT duration outputPath).

(** [splitAudio]: [mkdir], one ffmpeg run, then the sorted [.mp3] paths
    of the output directory (the listing is the oracle's reply). *)
Definition splitAudio (filePath outputDir : string) (segmentTime : Q)
    : M (list string) :=
  _ ← mkdir outputDir;
  request (EvSplit filePath outputDir segmentTime)
          (fun h => env_split env h filePath outputDir segmentTime).

(** ** [transcribeChunk] *)

Definition maxRetries : nat := 3.
Definition retryDelayMs : Z := 2000.

Definition buildSystemPrompt (promptTemplate previousContext : string)
    (knownSpeakers : list string) (customPrompt : option string)
    : SystemPrompt :=
  {| sp_template := promptTemplate;
     sp_knownSpeakers :=
       if (0 <? length knownSpeakers)%nat
       then Js.join ", " knownSpeakers else "尚無";
     sp_previousContext := Js.or (Some previousContext) "尚無";
     sp_customPrompt :=
       if Js.truthy customPrompt
       then "額外要求：" +:+ Js.nullish customPrompt ""
       else "" |}.

(** One [generateText] call of the transcription model. *)
Definition generateTranscription (system : SystemPrompt) (audio : FileData)
    : M (list Item) :=
  request (EvTranscribe system audio)
          (fun h => env_transcribe env h system audio).

(** The [while (retries > 0)] loop, entered with [retries] attempts
    left.  The [catch] block decrements [retries], rethrows when none is
    left and otherwise waits before the next iteration. *)
Fixpoint retryLoop (retries : nat) (system : SystemPrompt)
    (audio : FileData) : M (list Item) :=
  match retries with
  | O => throw "轉錄失敗，已達最大重試次數"
  | S retries' =>
      tryCatch (generateTranscription system audio)
        (fun error =>
           if (retries' =? 0)%nat then throw error
           else _ ← delay retryDelayMs; retryLoop retries' system audio)
  end.

Definition transcribeChunk (chunkPath : string) (chunkIndex : nat)
    (previousContext : string) (knownSpeakers : list string)
    (customPrompt : option string) (promptTemplate : string)
    : M (list Item) :=
  fileData ← readFile chunkPath;
  retryLoop maxRetries
    (buildSystemPrompt promptTemplate previousContext knownSpeakers
                       customPrompt)
    fileData.

End Calls.

(** ** Known-speaker registry and rolling context *)

(** The body of [for (const s of currentSpeakers)]:
    [if (!knownSpeakers.some((ks) => ks.startsWith(s))) knownSpeakers.push(s)]. *)
Definition registerSpeaker (knownSpeakers : list string) (s : string)
    : list string :=
  if Js.some (fun ks => Js.startsWith ks s) knownSpeakers
  then knownSpeakers
  else knownSpeakers ++ [s].

(** [currentSpeakers]: the distinct speakers of one chunk. *)
Definition currentSpeakersOf (chunkTranscription : list Item) : list string :=
  Js.setOf (map speaker chunkTranscription).

Definition updateKnownSpeakers (knownSpeakers : list string)
    (chunkTranscription : list Item) : list string :=
  fold_left registerSpeaker (currentSpeakersOf chunkTranscription)
            knownSpeakers.

Definition newline : string := String (Ascii.ascii_of_nat 10) "".

(** [`${t.speaker}: ${t.text}`]. *)
Definition contextLine (t : Item) : string := speaker t +:+ ": " +:+ text t.

(** The last 100 lines of everything transcribed so far. *)
Definition contextOf (allChunkResults : list ChunkResult) : string :=
  let allCurrentTranscription := flat_map cr_transcription allChunkResults in
  Js.join newline (map contextLine (Js.sliceLast 100 allCurrentTranscription)).

(** Loop-carried variables of the sequential transcription loop. *)
Record PipelineState : Type := mkPipelineState {
  allChunkResults : list ChunkResult;
  knownSpeakers : list string;
  previousContext : string
}.

Section Pipeline.
Variable env : Env.

(** One iteration of [for (let i = 0; i < chunkPaths.length; i++)]. *)
Definition transcribeStep (customPrompt : option string)
    (promptTemplate : string) (st : PipelineState)
    (ic : nat * string) : M PipelineState :=
  let '(i, chunkPath) := ic in
  chunkTranscription ←
    transcribeChunk env chunkPath i (previousContext st) (knownSpeakers st)
                    customPrompt promptTemplate;
  let all := allChunkResults st ++ [mkChunkResult i chunkTranscription] in
  mret {| allChunkResults := all;
          knownSpeakers :=
            updateKnownSpeakers (knownSpeakers st) chunkTranscription;
          previousContext := contextOf all |}.

(** The array positions [0 .. length - 1] paired with the elements. *)
Definition indexed {A} (xs : list A) : list (nat * A) :=
  combine (seq 0 (length xs)) xs.

Definition transcribeSequentially (chunkPaths : list string)
    (initialSpeakers : list string) (customPrompt : option string)
    (promptTemplate : string) : M PipelineState :=
  forEachM (transcribeStep customPrompt promptTemplate)
           (indexed chunkPaths)
           {| allChunkResults := [];
              knownSpeakers := initialSpeakers;
              previousContext := "" |}.

End Pipeline.

(** ** Applying a speaker mapping *)

(** [{ ...item, speaker: mapping[item.speaker] || item.speaker }]: the
    lookup goes through the prototype chain, so the new speaker is a
    string or an inherited member. *)
Definition applyMappingItem (mapping : gmap string string) (item : Item)
    : ItemOf Js.value :=
  {| speaker := Js.orValue (Js.lookup mapping (speaker item)) (speaker item);
     startTime := startTime item;
     endTime := endTime item;
     text := text item |}.

Definition applyMapping (mapping : gmap string string)
    (transcription : list Item) : list (ItemOf Js.value) :=
  map (applyMappingItem mapping) transcription.

(** [{ ...accumulatedResults, transcription: newTranscription }]. *)
Definition withTranscription {S T} (acc : AccumulatedOf S)
    (tr : list (ItemOf T)) : AccumulatedOf T :=
  {| title := title acc; slug := slug acc; transcription := tr;
     summary := summary acc |}.

(** ** [Map<string, V>] with insertion order *)

Module JsMap.

Definition t (V : Type) : Type := list (string * V).

Definition empty {V} : t V := [].

Fixpoint get {V} (m : t V) (k : string) : option V :=
  match m with
  | [] => None
  | (k', v) :: rest => if String.eqb k' k then Some v else get rest k
  end.

Definition has {V} (m : t V) (k : string) : bool :=
  match get m k with Some _ => true | None => false end.

(** [m.set(k, v)]: an existing key keeps its position. *)
Fixpoint set {V} (m : t V) (k : string) (v : V) : t V :=
  match m with
  | [] => [(k, v)]
  | (k', v') :: rest =>
      if String.eqb k' k then (k, v) :: rest else (k', v') :: set rest k v
  end.

Definition size {V} (m : t V) : nat := length m.

(** [m.entries()]. *)
Definition entries {V} (m : t V) : list (string * V) := m.

Definition keys {V} (m : t V) : list string := map fst m.

End JsMap.

(** ** Incremental speaker identification from audio samples *)

(** The value stored in [confirmedSpeakers]: [{ path, text }]. *)
Record SampleInfo : Type := mkSampleInfo {
  si_path : string;
  si_text : string
}.

(** An element of [newSamples]: [{ speaker, text, path }]. *)
Record NewSample : Type := mkNewSample {
  ns_speaker : string;
  ns_text : string;
  ns_path : string
}.

(** The two variables that live across time windows. *)
Record ResolveState : Type := mkResolveState {
  globalMapping : gmap string string;
  confirmedSpeakers : JsMap.t SampleInfo
}.

Definition initialResolveState : ResolveState :=
  {| globalMapping := ∅; confirmedSpeakers := JsMap.empty |}.

Definition identificationChunkTime : Q := 300.

(** The value of [Math.max(...xs, 0)] when the call returns. *)
Definition maxWithZero (xs : list Q) : Q := fold_right Qmax 0%Q xs.

(** [Math.ceil(maxTime / identificationChunkTime)]. *)
Definition numChunksOf (transcription : list Item) : Z :=
  Qceiling (maxWithZero (map endTime transcription) / identificationChunkTime).

(** [i.startTime >= startTime && i.startTime < endTime]. *)
Definition inWindow (startT endT : Q) (i : Item) : bool :=
  Qle_bool startT (startTime i) && negb (Qle_bool endT (startTime i)).

Definition windowStart (chunkIdx : nat) : Q :=
  (inject_Z (Z.of_nat chunkIdx) * identificationChunkTime)%Q.

Definition windowEnd (chunkIdx : nat) : Q :=
  (inject_Z (Z.of_nat (chunkIdx + 1)) * identificationChunkTime)%Q.

Definition chunkItemsOf (transcription : list Item) (chunkIdx : nat)
    : list Item :=
  List.filter (inWindow (windowStart chunkIdx) (windowEnd chunkIdx))
              transcription.

(** [Array.from(currentChunkSpeakers).filter((s) => !globalMapping[s])]. *)
Definition unknownSpeakersOf (globalMapping : gmap string string)
    (chunkItems : list Item) : list string :=
  List.filter (fun s => negb (Js.truthyValue (Js.lookup globalMapping s)))
              (Js.setOf (map speaker chunkItems)).

Definition duration (i : Item) : Q := (endTime i - startTime i)%Q.

(** [speakerItems.reduce((prev, curr) => ... ? curr : prev)]; without an
    initial value the reduction of an empty array throws. *)
Definition bestItemOf (speakerItems : list Item) : option Item :=
  match speakerItems with
  | [] => None
  | first :: rest =>
      Some (fold_left
              (fun prev curr =>
                 if negb (Qle_bool (duration curr) (duration prev))
                 then curr else prev)
              rest first)
  end.

(** One iteration of [for (const [original, mapped] of
    Object.entries(output.mapping))]. *)
Definition recordMapping (newSamples : list NewSample) (st : ResolveState)
    (entry : string * string) : ResolveState :=
  let '(original, mapped) := entry in
  let globalMapping' := Js.assign (globalMapping st) original mapped in
  if negb (JsMap.has (confirmedSpeakers st) mapped) then
    match List.find (fun s => String.eqb (ns_speaker s) original) newSamples with
    | Some sample =>
        {| globalMapping := globalMapping';
           confirmedSpeakers :=
             JsMap.set (confirmedSpeakers st) mapped
                       {| si_path := ns_path sample;
                          si_text := ns_text sample |} |}
    | None =>
        {| globalMapping := globalMapping';
           confirmedSpeakers := confirmedSpeakers st |}
    end
  else
    {| globalMapping := globalMapping';
       confirmedSpeakers := confirmedSpeakers st |}.

Section Identify.
Variable env : Env.
Variable accumulatedResults : Accumulated.
Variable originalAudioPath : string.
Variable tempDir : string.

Definition samplesDir : string := Js.pathJoin tempDir "samples".

(** [Math.max(...xs, 0)]: every element of [xs] becomes an argument of
    the call, and the engine throws a [RangeError] when there are more of
    them than it accepts. *)
Definition spreadMaxWithZero (xs : list Q) : M Q :=
  if (env_spreadLimit env <? N.of_nat (length xs))%N
  then throw "Maximum call stack size exceeded"
  else mret (maxWithZero xs).

(** One iteration of [for (const speaker of unknownSpeakers)]. *)
Definition extractSample (chunkItems : list Item) (chunkIdx : nat)
    (newSamples : list NewSample) (sp : string) : M (list NewSample) :=
  let speakerItems :=
    List.filter (fun i => String.eqb (speaker i) sp) chunkItems in
  match bestItemOf speakerItems with
  | None => throw "Reduce of empty array with no initial value"
  | Some bestItem =>
      let samplePath :=
        Js.pathJoin samplesDir
          ("sample_" +:+ sp +:+ "_chunk" +:+ pretty chunkIdx +:+ ".mp3") in
      _ ← extractAudioSegment env originalAudioPath
            (Qmax 0 (startTime bestItem - 0.2))
            (endTime bestItem + 0.2)%Q
            samplePath;
      mret (newSamples ++
              [ {| ns_speaker := sp; ns_text := text bestItem;
                   ns_path := samplePath |} ])
  end.

Definition addReference (userContent : list ContentPart)
    (entry : string * SampleInfo) : M (list ContentPart) :=
  let '(name, info) := entry in
  fileData ← readFile env (si_path info);
  mret (userContent ++
          [ PartText ("真實身分：" +:+ name +:+ newline +:+
                      "參考文字：" +:+ si_text info);
            PartFile fileData ]).

Definition addSample (userContent : list ContentPart)
    (sample : NewSample) : M (list ContentPart) :=
  fileData ← readFile env (ns_path sample);
  mret (userContent ++
          [ PartText ("代號：" +:+ ns_speaker sample +:+ newline +:+
                      "文字內容：" +:+ ns_text sample);
            PartFile fileData ]).

Definition buildUserContent (chunkIdx : nat) (numChunks : Z)
    (confirmed : JsMap.t SampleInfo) (newSamples : list NewSample)
    : M (list ContentPart) :=
  let userContent :=
    [ PartText ("這是第 " +:+ pretty (chunkIdx + 1)%nat +:+ "/" +:+
                pretty numChunks +:+
                " 個時間段的音訊樣本。請分析聲音特徵，將新的代號對應到真實身分，或與先前的說話者合併。") ] in
  userContent ←
    (if (0 <? JsMap.size confirmed)%nat then
       forEachM addReference (JsMap.entries confirmed)
         (userContent ++
            [ PartText (newline +:+ "### 已確定的說話者參考：" +:+ newline) ])
     else mret userContent);
  userContent ←
    forEachM addSample newSamples
      (userContent ++
         [ PartText (newline +:+ "### 待識別的新代號：" +:+ newline) ]);
  mret (userContent ++
          [ PartText (newline +:+
              "請提供對照表（JSON 格式），包含所有待識別代號的對應身分。") ]).

(** The mapping call; the reply is [Object.entries(output.mapping)]. *)
Definition generateMapping (userContent : list ContentPart)
    : M (list (string * string)) :=
  request (EvResolve userContent)
          (fun h => env_resolve env h userContent).

(** One iteration of [for (let chunkIdx = 0; chunkIdx < numChunks; ...)]. *)
Definition identifyWindow (numChunks : Z) (st : ResolveState)
    (chunkIdx : nat) : M ResolveState :=
  let chunkItems :=
    chunkItemsOf (transcription accumulatedResults) chunkIdx in
  if (length chunkItems =? 0)%nat then mret st else
  let unknownSpeakers := unknownSpeakersOf (globalMapping st) chunkItems in
  if (length unknownSpeakers =? 0)%nat then mret st else
  newSamples ← forEachM (extractSample chunkItems chunkIdx)
                        unknownSpeakers [];
  userContent ← buildUserContent chunkIdx numChunks
                  (confirmedSpeakers st) newSamples;
  mapping ← generateMapping userContent;
  mret (fold_left (recordMapping newSamples) mapping st).

(** The windows [from, from + 1, ..., from + count - 1] in order. *)
Definition identifyWindows (numChunks : Z) (from count : nat)
    (st : ResolveState) : M ResolveState :=
  forEachM (identifyWindow numChunks) (seq from count) st.

(** Everything before [// 套用 mapping]. *)
Definition identifyLoop : M ResolveState :=
  maxTime ← spreadMaxWithZero
               (map endTime (transcription accumulatedResults));
  let numChunks := Qceiling (maxTime / identificationChunkTime) in
  _ ← mkdir env samplesDir;
  identifyWindows numChunks 0 (Z.to_nat numChunks) initialResolveState.

Definition identifySpeakersWithAudio : M (AccumulatedOf Js.value) :=
  st ← identifyLoop;
  let newTranscription :=
    applyMapping (globalMapping st) (transcription accumulatedResults) in
  mret (withTranscription accumulatedResults newTranscription).

End Identify.

(** ** Title, summary and the persisted artifact *)

Record Info : Type := mkInfo {
  filename : string;
  name : string;
  info_slug : string;
  date : string;
  description : string
}.

Record ContentItem : Type := mkContentItem {
  id : string;
  c_start : Q;
  c_end : Q;
  c_type : string;
  c_speaker : Js.value;
  c_text : string
}.

Record Artifact : Type := mkArtifact {
  info : Info;
  content : list ContentItem
}.

(** What the process reads from its host synchronously. *)
Record Host : Type := mkHost {
  host_cwd : string;
  host_now : Z;
  host_today : string;
  host_uuid : nat -> string;
  host_nameWithoutExt : string -> string;
  host_dirname : string -> string
}.

Section Summary.
Variable env : Env.
Variable host : Host.

(** The transcript is sent as [JSON.stringify(...).slice(0, 500000)]; the
    event records the transcript it is serialised from. *)
Definition generateTitleAndSummary
    (accumulatedResults : AccumulatedOf Js.value)
    : M (AccumulatedOf Js.value) :=
  output ← request (EvSummarize (transcription accumulatedResults))
             (fun h => env_summarize env h
                         (transcription accumulatedResults));
  mret {| title := so_title output;
          slug := so_slug output;
          transcription := transcription accumulatedResults;
          summary := so_summary output |}.

(** The [try] branch of [processTranscription]; on a value of the
    declared type nothing in it throws, so the [catch] branch (the
    degraded artifact) is not reached. *)
Definition processTranscription (response : AccumulatedOf Js.value)
    (fileName : string) : Artifact :=
  {| info :=
       {| filename := fileName;
          name := title response;
          info_slug := slug response;
          date := host_today host;
          description :=
            summary response +:+ newline +:+ newline +:+
            "為 Gemini 轉錄，有錯誤歡迎留言分享" |};
     content :=
       imap (fun k item =>
               {| id := host_uuid host k;
                  c_start := startTime item;
                  c_end := endTime item;
                  c_type := "speech";
                  c_speaker := speaker item;
                  c_text := text item |})
            (transcription response) |}.

(** [discoverSpeakers]: any failure degrades to no hint at all. *)
Definition discoverSpeakers (audioPath tempDir : string)
    : M (list string) :=
  let samplePath := Js.pathJoin tempDir "discovery_sample.mp3" in
  tryCatch
    (_ ← extractAudioSegment env audioPath 0 600 samplePath;
     fileData ← readFile env samplePath;
     speakers ← request (EvDiscover fileData)
                  (fun h => env_discover env h fileData);
     mret (map (fun s : string * string => fst s +:+ ": " +:+ snd s)
               speakers))
    (fun _ => mret []).

(** [try { body } finally { try { cleanup } catch (e) { } }]. *)
Definition finally {A} (body : M A) (cleanup : M unit) : M A := fun h =>
  let '(r, h') := body h in
  let '(_, h'') := cleanup h' in
  (r, h'').

Definition segmentTime : Q := 60 * 10.

Definition emptyAccumulated : Accumulated :=
  {| title := ""; slug := ""; transcription := []; summary := "" |}.

(** [processAudioFile] of [src/index.ts]. *)
Definition processAudioFile (filePath : string)
    (customPrompt : option string) : M Artifact :=
  promptTemplate ← readFile env (Js.pathJoin (host_cwd host) "prompt.md");
  let nameWithoutExt := host_nameWithoutExt host filePath in
  let tempDir :=
    Js.pathJoin (host_cwd host) ("temp_chunks_" +:+ pretty (host_now host)) in
  finally
    (chunkPaths ← splitAudio env filePath tempDir segmentTime;
     initialSpeakers ← discoverSpeakers filePath tempDir;
     st ← transcribeSequentially env chunkPaths initialSpeakers
            customPrompt promptTemplate;
     let accumulatedResults :=
       withTranscription emptyAccumulated
         (mergeChunkResults segmentTime (allChunkResults st)
                            (transcription emptyAccumulated)) in
     accumulatedResults ←
       identifySpeakersWithAudio env accumulatedResults filePath tempDir;
     accumulatedResults ← generateTitleAndSummary accumulatedResults;
     mret (processTranscription accumulatedResults nameWithoutExt))
    (tryCatch (rm env tempDir) (fun _ => mret tt)).

(** The file [main] writes: [`${result.info.slug}.json`] beside the
    media file. *)
Definition outputFileName (result : Artifact) : string :=
  info_slug (info result) +:+ ".json".

Definition outputPath (mediaPath : string) (result : Artifact) : string :=
  Js.pathJoin (host_dirname host mediaPath) (outputFileName result).

End Summary.

(** ** The text-normalisation pipeline *)

Module TextPipeline.
Section TextPipeline.
Variable env : Env.

Definition segmentSeconds : Q := 300.

(** [knownSpeakers.add(s)] on a [Set<string>]. *)
Definition setAdd (knownSpeakers : list string) (s : string)
    : list string :=
  if Js.includes knownSpeakers s then knownSpeakers
  else knownSpeakers ++ [s].

(** One iteration of the inner [for (const item of chunkTranscription)]. *)
Definition pushItem (timeOffset : Q)
    (st : list string * list Item) (item : Item)
    : list string * list Item :=
  (setAdd (fst st) (speaker item),
   snd st ++ [rebaseItem timeOffset item]).

(** One iteration of the chunk loop; the state is [knownSpeakers] and
    [accumulatedResults.transcription]. *)
Definition chunkStep (customPrompt : option string)
    (promptTemplate : string) (st : list string * list Item)
    (ic : nat * string) : M (list string * list Item) :=
  let '(i, chunkPath) := ic in
  let lastFewItems := Js.sliceLast 10 (snd st) in
  let previousContext := Js.join newline (map contextLine lastFewItems) in
  chunkTranscription ←
    transcribeChunk env chunkPath i previousContext (fst st)
                    customPrompt promptTemplate;
  let timeOffset := timeOffsetOf segmentSeconds i in
  mret (fold_left (pushItem timeOffset) chunkTranscription st).

Definition transcribeAll (chunkPaths : list string)
    (customPrompt : option string) (promptTemplate : string)
    : M (list string * list Item) :=
  forEachM (chunkStep customPrompt promptTemplate) (indexed chunkPaths)
           ([], []).

(** [normalizeSpeakers]: one call over the serialised transcript, then
    [output.mapping[item.speaker] || item.speaker] on every item. *)
Definition normalizeSpeakers (accumulatedResults : Accumulated)
    : M (AccumulatedOf Js.value) :=
  mapping ← request (EvNormalize (transcription accumulatedResults))
              (fun h => env_normalize env h
                          (transcription accumulatedResults));
  let newTranscription :=
    applyMapping mapping (transcription accumulatedResults) in
  mret (withTranscription accumulatedResults newTranscription).

End TextPipeline.
End TextPipeline.

(** * Vocabulary of the properties *)

(** The chunk of the merged transcript contributed by one chunk result. *)
Definition rebasedChunk (segmentTime : Q) (cr : ChunkResult) : list Item :=
  map (rebaseItem (timeOffsetOf segmentTime (index cr))) (cr_transcription cr).

(** Number of items pushed before the first item of the [i]-th chunk
    result. *)
Definition itemsBefore (all : list ChunkResult) (i : nat) : nat :=
  length (concat (map cr_transcription (take i all))).

Definition isTranscribe (ev : Event) : bool :=
  match ev with EvTranscribe _ _ => true | _ => false end.

(** Number of inference calls for chunk transcription recorded in a log. *)
Definition transcriptionCalls (h : Log) : nat :=
  length (List.filter isTranscribe h).

Definition failed {A} (r : Error + A) : bool :=
  match r with inl _ => true | inr _ => false end.

Section RetryPolicy.
Variable env : Env.
Variable system : SystemPrompt.
Variable audio : FileData.
(** The log when the retry loop is entered. *)
Variable h0 : Log.

(** The log just before attempt number [k] (counted from 0) when the
    [k] attempts before it all failed: each of them left one call and
    one 2000 ms wait. *)
Definition beforeAttempt (k : nat) : Log :=
  h0 ++ concat (replicate k [EvTranscribe system audio; EvDelay 2000]).

(** What the service answers to attempt number [k]. *)
Definition attemptOutcome (k : nat) : Error + list Item :=
  env_transcribe env (beforeAttempt k) system audio.

(** The log once attempt number [k] has been made. *)
Definition afterAttempt (k : nat) : Log :=
  beforeAttempt k ++ [EvTranscribe system audio].

Definition allFailedBefore (k : nat) : bool :=
  forallb (fun j => failed (attemptOutcome j)) (seq 0 k).

End RetryPolicy.

(** The item as it was, seen as an item of a resolved transcript: its
    speaker is still the string the service gave. *)
Definition unchanged (item : Item) : ItemOf Js.value :=
  {| speaker := Js.Str (speaker item);
     startTime := startTime item;
     endTime := endTime item;
     text := text item |}.

(** The fields a resolver must not touch. *)
Definition timingAndText {S} (item : ItemOf S) : Q * Q * string :=
  (startTime item, endTime item, text item).

(** An entry of the table survives with the same value. *)
Definition keepsSamples (before after : ResolveState) : Prop :=
  forall name info,
    JsMap.get (confirmedSpeakers before) name = Some info ->
    JsMap.get (confirmedSpeakers after) name = Some info.

Definition isResolve (ev : Event) : bool :=
  match ev with EvResolve _ => true | _ => false end.

Definition isExtract (ev : Event) : bool :=
  match ev with EvExtract _ _ _ _ => true | _ => false end.

(** Number of mapping calls recorded in a log. *)
Definition resolveCalls (h : Log) : nat := length (List.filter isResolve h).

(** Number of audio extractions recorded in a log. *)
Definition extractCalls (h : Log) : nat := length (List.filter isExtract h).

(** Lowercase letter, digit or hyphen. *)
Definition isSlugChar (c : Ascii.ascii) : bool :=
  let n := Ascii.nat_of_ascii c in
  ((97 <=? n) && (n <=? 122) || (48 <=? n) && (n <=? 57) || (n =? 45))%nat.

Fixpoint slugOk (s : string) : bool :=
  match s with
  | EmptyString => true
  | String c rest => isSlugChar c && slugOk rest
  end.

(** Ascending by [startTime]. *)
Definition byStart {S} (a b : ItemOf S) : Prop :=
  (startTime a <= startTime b)%Q.

(** The relative start lies in [[0, segmentTime)]. *)
Definition startsInside (segmentTime : Q) (item : Item) : Prop :=
  (0 <= startTime item)%Q /\ (startTime item < segmentTime)%Q.

(** What the claim assumes of one chunk's transcription. *)
Definition chunkInOrder (segmentTime : Q) (items : list Item) : Prop :=
  Forall (startsInside segmentTime) items /\ StronglySorted byStart items.

(** * Sample collaborators

    Concrete environments and inputs on which the statements below are
    exercised. *)

(** A concrete collaborator used to exercise the statements below: two
    chunks, the second answered by a shorter transcription. *)
Module Sample.

Definition chunk0 : list Item :=
  [ mkItem "SPEAKER_01" 0 10 "hello"; mkItem "SPEAKER_02" 10 35 "hi" ].

Definition chunk1 : list Item := [ mkItem "SPEAKER_01" 0 40 "again" ].

(** The collaborator, up to the answers of the mapping call and the slug
    of the summary call. *)
Definition envWith
    (resolve : Log -> list ContentPart -> Error + list (string * string))
    (slugReply : string) : Env :=
  {| env_mkdir := fun _ _ => None;
     env_readFile := fun _ p => inr p;
     env_split := fun _ _ _ _ => inr [ "chunk_000.mp3"; "chunk_001.mp3" ];
     env_extract := fun _ _ _ _ _ => None;
     env_transcribe := fun _ _ audio =>
       if String.eqb audio "chunk_000.mp3" then inr chunk0 else inr chunk1;
     env_discover := fun _ _ => inr [];
     env_resolve := resolve;
     env_normalize := fun _ _ =>
       inr (<["SPEAKER_01" := "Alice"]> (<["SPEAKER_02" := "Bob"]> ∅));
     env_summarize := fun _ _ =>
       inr {| so_title := "Meeting"; so_slug := slugReply;
              so_summary := "notes" |};
     env_rm := fun _ _ => None;
     env_spreadLimit := 120000 |}.

Definition env : Env :=
  envWith (fun _ _ => inr [ ("SPEAKER_01", "Alice"); ("SPEAKER_02", "Bob") ])
          "meeting".

Definition paths : list string := [ "chunk_000.mp3"; "chunk_001.mp3" ].

Definition results : list ChunkResult :=
  [ mkChunkResult 0 chunk0; mkChunkResult 1 chunk1 ].

(** The state in which the sequential loop ends. *)
Definition st : PipelineState :=
  {| allChunkResults := results;
     knownSpeakers := [ "SPEAKER_01"; "SPEAKER_02" ];
     previousContext := contextOf results |}.

Definition run : (Error + PipelineState) * Log :=
  transcribeSequentially env paths [] None "" [].

Definition merged : list Item := mergeChunkResults segmentTime results [].

End Sample.

(** A service that rejects the first [n] transcription calls of a run. *)
Module Flaky.

Definition env (n : nat) : Env :=
  {| env_mkdir := fun _ _ => None;
     env_readFile := fun _ p => inr p;
     env_split := fun _ _ _ _ => inr [ "chunk_000.mp3" ];
     env_extract := fun _ _ _ _ _ => None;
     env_transcribe := fun h _ _ =>
       if (transcriptionCalls h <? n)%nat
       then inl ("overloaded " +:+ pretty (transcriptionCalls h))
       else inr Sample.chunk0;
     env_discover := fun _ _ => inr [];
     env_resolve := fun _ _ => inr [];
     env_normalize := fun _ _ => inr ∅;
     env_summarize := fun _ _ =>
       inr {| so_title := ""; so_slug := ""; so_summary := "" |};
     env_rm := fun _ _ => None;
     env_spreadLimit := 120000 |}.

Definition system : SystemPrompt := buildSystemPrompt "template" "" [] None.

End Flaky.

(** A recording with speech in the first two five-minute windows; the
    service names the two voices of the first window and merges the new
    code of the second window into the first name. *)
Module TwoWindows.

Definition acc : Accumulated :=
  withTranscription emptyAccumulated
    [ mkItem "SPEAKER_01" 0 10 "hello"; mkItem "SPEAKER_02" 10 35 "hi";
      mkItem "SPEAKER_03" 300 320 "later" ].

Definition env : Env :=
  Sample.envWith
    (fun h _ =>
       if (resolveCalls h =? 0)%nat
       then inr [ ("SPEAKER_01", "Alice"); ("SPEAKER_02", "Bob") ]
       else inr [ ("SPEAKER_03", "Alice") ])
    "meeting".

Definition aliceSample : SampleInfo :=
  {| si_path := "tmp/samples/sample_SPEAKER_01_chunk0.mp3";
     si_text := "hello" |}.

Definition bobSample : SampleInfo :=
  {| si_path := "tmp/samples/sample_SPEAKER_02_chunk0.mp3";
     si_text := "hi" |}.

(** The state after the first window and after the second one. *)
Definition st1 : ResolveState :=
  {| globalMapping :=
       <[ "SPEAKER_02" := "Bob" ]> {[ "SPEAKER_01" := "Alice" ]};
     confirmedSpeakers := [ ("Alice", aliceSample); ("Bob", bobSample) ] |}.

Definition st2 : ResolveState :=
  {| globalMapping := <[ "SPEAKER_03" := "Alice" ]> (globalMapping st1);
     confirmedSpeakers := confirmedSpeakers st1 |}.

Definition run1 : (Error + ResolveState) * Log :=
  identifyWindows env acc "talk.mp3" "tmp" 2 0 1 initialResolveState [].

Definition run2 : (Error + ResolveState) * Log :=
  identifyWindows env acc "talk.mp3" "tmp" 2 1 1 st1 (snd run1).

End TwoWindows.

(** A recording whose only voice is given the empty name by the service. *)
Module EmptyName.

Definition acc : Accumulated :=
  withTranscription emptyAccumulated
    [ mkItem "SPEAKER_01" 0 10 "hello"; mkItem "SPEAKER_01" 300 320 "later" ].

Definition env : Env :=
  Sample.envWith (fun _ _ => inr [ ("SPEAKER_01", "") ]) "meeting".

(** The state the first window leaves. *)
Definition st1 : ResolveState :=
  {| globalMapping := {[ "SPEAKER_01" := "" ]};
     confirmedSpeakers :=
       [ ("", {| si_path := "tmp/samples/sample_SPEAKER_01_chunk0.mp3";
                 si_text := "hello" |}) ] |}.

Definition run1 : (Error + ResolveState) * Log :=
  identifyWindow env acc "talk.mp3" "tmp" 2 initialResolveState 0 [].

Definition run2 : (Error + ResolveState) * Log :=
  identifyWindow env acc "talk.mp3" "tmp" 2 st1 1 (snd run1).

End EmptyName.

Module SampleHost.

Definition host : Host :=
  {| host_cwd := "work";
     host_now := 1700000000000;
     host_today := "2025-01-01";
     host_uuid := fun k => "id-" +:+ pretty k;
     host_nameWithoutExt := fun _ => "talk";
     host_dirname := fun _ => "media" |}.

(** The service answers the summary call with a slug that has an
    uppercase letter, a space and an exclamation mark. *)
Definition env : Env :=
  Sample.envWith
    (fun _ _ => inr [ ("SPEAKER_01", "Alice"); ("SPEAKER_02", "Bob") ])
    "My Talk!".

End SampleHost.

(** * Vocabulary of the further properties *)

(** Number of events of a log that satisfy [P]. *)
Definition countOf (P : Event -> bool) (h : Log) : nat :=
  length (List.filter P h).

(** Whatever its outcome, [m] adds at most [n] events satisfying [P]. *)
Definition spends (P : Event -> bool) (n : nat) {A} (m : M A) : Prop :=
  forall h, (countOf P (snd (m h)) <= countOf P h + n)%nat.

(** The collaborators a run needs never fail: file system, ffmpeg and the
    three inference calls of the main path.  (Speaker discovery and the
    final [rm] may fail.) *)
Record Reliable (env : Env) : Prop := mkReliable {
  reliable_mkdir : forall h dir, env_mkdir env h dir = None;
  reliable_readFile :
    forall h path, exists data, env_readFile env h path = inr data;
  reliable_split :
    forall h f d t, exists paths, env_split env h f d t = inr paths;
  reliable_extract : forall h i s d o, env_extract env h i s d o = None;
  reliable_transcribe :
    forall h system audio,
      exists items, env_transcribe env h system audio = inr items;
  reliable_resolve :
    forall h content, exists entries, env_resolve env h content = inr entries;
  reliable_summarize :
    forall h tr, exists output, env_summarize env h tr = inr output
}.


(** The [try] block of [processAudioFile]. *)
Definition tryBlock (env : Env) (host : Host) (filePath : string)
    (customPrompt : option string) (promptTemplate : string) : M Artifact :=
  let nameWithoutExt := host_nameWithoutExt host filePath in
  let tempDir :=
    Js.pathJoin (host_cwd host) ("temp_chunks_" +:+ pretty (host_now host)) in
  chunkPaths ← splitAudio env filePath tempDir segmentTime;
  initialSpeakers ← discoverSpeakers env filePath tempDir;
  st ← transcribeSequentially env chunkPaths initialSpeakers
         customPrompt promptTemplate;
  let accumulatedResults :=
    withTranscription emptyAccumulated
      (mergeChunkResults segmentTime (allChunkResults st)
                         (transcription emptyAccumulated)) in
  accumulatedResults ←
    identifySpeakersWithAudio env accumulatedResults filePath tempDir;
  accumulatedResults ← generateTitleAndSummary env accumulatedResults;
  mret (processTranscription host accumulatedResults nameWithoutExt).

(** [tempDir] of a run. *)
Definition tempDirOf (host : Host) : string :=
  Js.pathJoin (host_cwd host) ("temp_chunks_" +:+ pretty (host_now host)).

(** The hint built from one discovered speaker: [`${s.id}: ${s.description}`]. *)
Definition hintOf (s : string * string) : string := fst s +:+ ": " +:+ snd s.

(** A collaborator like [Sample.env] whose discovery call names one
    speaker and whose ffmpeg fails when asked to (for the discovery
    sample only). *)
Module Hinted.

Definition env (extractFails : bool) : Env :=
  {| env_mkdir := env_mkdir Sample.env;
     env_readFile := env_readFile Sample.env;
     env_split := env_split Sample.env;
     env_extract := fun _ _ _ _ _ =>
       if extractFails then Some "ffmpeg: exit code 1" else None;
     env_transcribe := env_transcribe Sample.env;
     env_discover := fun _ _ => inr [ ("SPEAKER_01", "low voice") ];
     env_resolve := env_resolve Sample.env;
     env_normalize := env_normalize Sample.env;
     env_summarize := env_summarize Sample.env;
     env_rm := env_rm Sample.env;
     env_spreadLimit := env_spreadLimit Sample.env |}.

End Hinted.

(** [samplePath] of an unknown code in a window. *)
Definition samplePathOf (tempDir sp : string) (chunkIdx : nat) : string :=
  Js.pathJoin (samplesDir tempDir)
    ("sample_" +:+ sp +:+ "_chunk" +:+ pretty chunkIdx +:+ ".mp3").

(** The items of a window attributed to one code. *)
Definition speakerItemsOf (chunkItems : list Item) (sp : string) : list Item :=
  List.filter (fun i => String.eqb (speaker i) sp) chunkItems.

Definition isDelay (ev : Event) : bool :=
  match ev with EvDelay _ => true | _ => false end.

(** When it returns, [m] has only appended to the log. *)
Definition extends {A} (m : M A) : Prop :=
  forall h a h', m h = (inr a, h') -> exists added, h' = h ++ added.

(** Every confirmed sample of [st] is a file of the samples directory that
    an ffmpeg run recorded in [h] wrote. *)
Definition samplesExtracted (orig tmp : string) (st : ResolveState)
    (h : Log) : Prop :=
  forall name info,
    JsMap.get (confirmedSpeakers st) name = Some info ->
    exists code chunkIdx from len,
      si_path info = samplePathOf tmp code chunkIdx /\
      In (EvExtract orig from len (si_path info)) h.

(** Every speaker code transcribed so far is a prefix of a registry entry,
    and the registry is [init] followed by transcribed codes. *)
Definition registryCovers (init : list string) (st : PipelineState) : Prop :=
  (exists added,
      knownSpeakers st = init ++ added /\
      forall c, In c added ->
                exists cr item,
                  In cr (allChunkResults st) /\
                  In item (cr_transcription cr) /\ speaker item = c) /\
  (forall cr item,
      In cr (allChunkResults st) -> In item (cr_transcription cr) ->
      exists ks, In ks (knownSpeakers st) /\
                 String.prefix (speaker item) ks = true) /\
  (NoDup init -> NoDup (knownSpeakers st)).

(** The fields of a content entry that come from the transcript timing and
    text. *)
Definition contentTiming (c : ContentItem) : Q * Q * string :=
  (c_start c, c_end c, c_text c).

(** Whatever its outcome, [m] only appends to the log, and only events of
    the class [K]. *)
Definition emitsOnly (K : Event -> bool) {A} (m : M A) : Prop :=
  forall h, exists added,
    snd (m h) = h ++ added /\ Forall (fun ev => K ev = true) added.

(** What the first stage of [processAudioFile] asks for: splitting,
    speaker discovery and chunk transcription with its retries. *)
Definition transcriptionStage (ev : Event) : bool :=
  match ev with
  | EvMkdir _ | EvSplit _ _ _ | EvExtract _ _ _ _ | EvReadFile _
  | EvDiscover _ | EvTranscribe _ _ | EvDelay _ => true
  | _ => false
  end.

(** What [identifySpeakersWithAudio] asks for. *)
Definition resolutionStage (ev : Event) : bool :=
  match ev with
  | EvMkdir _ | EvExtract _ _ _ _ | EvReadFile _ | EvResolve _ => true
  | _ => false
  end.

(** The chunk transcriptions of the text pipeline, numbered as the loop
    numbers them from [n] on. *)
Definition numbered (n : nat) (chunks : list (list Item)) : list ChunkResult :=
  imap (fun k tr => mkChunkResult (n + k) tr) chunks.

(** [chunk] is what the service answered to the last inference call of
    [segment], the requests made for [chunkPath] after the log [before]. *)
Definition answeredWith (env : Env) (before : Log) (chunkPath : string)
    (segment : Log) (chunk : list Item) : Prop :=
  exists system audio pre,
    segment = EvReadFile chunkPath :: pre ++ [EvTranscribe system audio] /\
    env_transcribe env (before ++ EvReadFile chunkPath :: pre) system audio =
      inr chunk.

(** The loop-carried variables of the sequential loop once the chunks
    [chunks] have been transcribed, in this order, starting from the
    hints [initialSpeakers]. *)
Definition stateAfter (initialSpeakers : list string)
    (chunks : list (list Item)) : PipelineState :=
  {| allChunkResults := numbered 0 chunks;
     knownSpeakers := fold_left updateKnownSpeakers chunks initialSpeakers;
     previousContext := contextOf (numbered 0 chunks) |}.

(** The system prompt built from the loop-carried variables. *)
Definition promptOf (customPrompt : option string) (promptTemplate : string)
    (st : PipelineState) : SystemPrompt :=
  buildSystemPrompt promptTemplate (previousContext st) (knownSpeakers st)
                    customPrompt.

(** The requests made for one chunk: its file is read, and every
    inference call that follows carries the prompt [system] and the same
    audio; only the waits between attempts come in between. *)
Definition chunkRequests (system : SystemPrompt) (chunkPath : string)
    (segment : Log) : Prop :=
  exists audio rest,
    segment = EvReadFile chunkPath :: rest /\
    Forall (fun ev => ev = EvTranscribe system audio \/
                      ev = EvDelay retryDelayMs) rest.

(** * Properties *)

(** ** Reasoning about computations *)

Lemma bind_run {A B} (m : M A) (f : A -> M B) (h : Log) :
  (m ≫= f) h =
  match m h with
  | (inr a, h') => f a h'
  | (inl e, h') => (inl e, h')
  end.
Proof. reflexivity. Qed.

Lemma bind_returns {A B} (m : M A) (f : A -> M B) h b h' :
  (m ≫= f) h = (inr b, h') ->
  exists a h1, m h = (inr a, h1) /\ f a h1 = (inr b, h').
Proof.
  rewrite bind_run. destruct (m h) as [[e|a] h1]; [discriminate|].
  intros Hf. by exists a, h1.
Qed.

Lemma mret_run {A} (a : A) (h : Log) : (mret a : M A) h = (inr a, h).
Proof. reflexivity. Qed.

Lemma forEachM_cons {A S} (body : S -> A -> M S) x xs s h :
  forEachM body (x :: xs) s h =
  match body s x h with
  | (inr s', h') => forEachM body xs s' h'
  | (inl e, h') => (inl e, h')
  end.
Proof. reflexivity. Qed.

(** A loop that returns preserves every invariant its body preserves. *)
Lemma forEachM_invariant {A S} (body : S -> A -> M S) (I : S -> Log -> Prop) :
  (forall s x h s' h', I s h -> body s x h = (inr s', h') -> I s' h') ->
  forall xs s h s' h',
    I s h -> forEachM body xs s h = (inr s', h') -> I s' h'.
Proof.
  intros Hbody xs. induction xs as [|x xs IH]; intros s h s' h' HI Hrun.
  - simpl in Hrun. rewrite mret_run in Hrun. by simplify_eq.
  - rewrite forEachM_cons in Hrun.
    destruct (body s x h) as [[e|s1] h1] eqn:Hb; [discriminate|].
    eapply IH; [|exact Hrun]. eapply Hbody; eauto.
Qed.

(** ** Timestamp re-basing *)

Lemma pushRebased_spec timeOffset items acc :
  pushRebased timeOffset items acc = acc ++ map (rebaseItem timeOffset) items.
Proof.
  unfold pushRebased. revert acc.
  induction items as [|item items IH]; intros acc; simpl.
  - by rewrite app_nil_r.
  - by rewrite IH, <- app_assoc.
Qed.

Lemma mergeChunkResults_spec segmentTime all acc :
  mergeChunkResults segmentTime all acc =
  acc ++ concat (map (rebasedChunk segmentTime) all).
Proof.
  unfold mergeChunkResults. revert acc.
  induction all as [|cr all IH]; intros acc; simpl.
  - by rewrite app_nil_r.
  - by rewrite IH, pushRebased_spec, <- app_assoc.
Qed.

Lemma concat_lookup_chunk {A} (ls : list (list A)) i l k x :
  ls !! i = Some l -> l !! k = Some x ->
  concat ls !! (length (concat (take i ls)) + k)%nat = Some x.
Proof.
  revert i. induction ls as [|l0 ls IH]; intros i Hi Hk; [done|].
  destruct i as [|i]; simpl in *.
  - simplify_eq. by apply lookup_app_l_Some.
  - rewrite length_app, <- Nat.add_assoc, lookup_app_r by lia.
    replace (length l0 + _ - length l0)%nat
      with (length (concat (take i ls)) + k)%nat by lia.
    by apply IH.
Qed.

Lemma length_rebased_prefix segmentTime all i :
  length (concat (take i (map (rebasedChunk segmentTime) all))) =
  itemsBefore all i.
Proof.
  unfold itemsBefore. revert i.
  induction all as [|cr all IH]; intros [|i]; simpl; try done.
  rewrite !length_app, IH. unfold rebasedChunk. by rewrite length_map.
Qed.

(** The sequential loop numbers its chunk results by position. *)
Lemma transcribeStep_indices env cp pt st ic h st' h' :
  transcribeStep env cp pt st ic h = (inr st', h') ->
  exists tr, allChunkResults st' =
             allChunkResults st ++ [mkChunkResult (fst ic) tr].
Proof.
  destruct ic as [i path]. unfold transcribeStep. intros Hrun.
  apply bind_returns in Hrun as (tr & h1 & _ & Hret).
  rewrite mret_run in Hret. simplify_eq. by exists tr.
Qed.

Lemma transcribeLoop_indices env cp pt paths n st h st' h' :
  forEachM (transcribeStep env cp pt) (combine (seq n (length paths)) paths)
           st h = (inr st', h') ->
  exists added,
    allChunkResults st' = allChunkResults st ++ added /\
    map index added = seq n (length paths).
Proof.
  revert n st h. induction paths as [|p paths IH]; intros n st h Hrun.
  - simpl in Hrun. rewrite mret_run in Hrun. simplify_eq.
    exists []. by rewrite app_nil_r.
  - cbn [length seq combine] in Hrun. rewrite forEachM_cons in Hrun.
    destruct (transcribeStep env cp pt st (n, p) h) as [[e|s1] h1] eqn:Hs;
      [discriminate|].
    apply transcribeStep_indices in Hs as [tr Hs].
    apply IH in Hrun as (added & Hall & Hidx).
    exists (mkChunkResult n tr :: added). split.
    + by rewrite Hall, Hs, <- app_assoc.
    + simpl. by rewrite Hidx.
Qed.

Lemma transcribeSequentially_indices env paths init cp pt h st h' :
  transcribeSequentially env paths init cp pt h = (inr st, h') ->
  map index (allChunkResults st) = seq 0 (length paths).
Proof.
  unfold transcribeSequentially, indexed. intros Hrun.
  apply transcribeLoop_indices in Hrun as (added & Hall & Hidx).
  simpl in Hall. by rewrite Hall.
Qed.

Lemma transcribeSequentially_index env paths init cp pt h st h' i cr :
  transcribeSequentially env paths init cp pt h = (inr st, h') ->
  allChunkResults st !! i = Some cr ->
  index cr = i.
Proof.
  intros Hrun Hi. apply transcribeSequentially_indices in Hrun.
  assert (map index (allChunkResults st) !! i = Some (index cr)) as Hm
    by (by rewrite list_lookup_fmap, Hi).
  rewrite Hrun in Hm. apply lookup_seq in Hm as [-> _]. done.
Qed.

Lemma mergeChunkResults_lookup segmentTime all i cr k item :
  all !! i = Some cr ->
  cr_transcription cr !! k = Some item ->
  mergeChunkResults segmentTime all [] !! (itemsBefore all i + k)%nat =
  Some (rebaseItem (timeOffsetOf segmentTime (index cr)) item).
Proof.
  intros Hi Hk. rewrite mergeChunkResults_spec. simpl.
  rewrite <- (length_rebased_prefix segmentTime).
  apply concat_lookup_chunk with (l := rebasedChunk segmentTime cr).
  - by rewrite list_lookup_fmap, Hi.
  - unfold rebasedChunk. by rewrite list_lookup_fmap, Hk.
Qed.

Lemma pushItem_spec timeOffset items st :
  snd (fold_left (TextPipeline.pushItem timeOffset) items st) =
  snd st ++ map (rebaseItem timeOffset) items.
Proof.
  revert st. induction items as [|item items IH]; intros st; simpl.
  - by rewrite app_nil_r.
  - rewrite IH. simpl. by rewrite <- app_assoc.
Qed.

(** C1 (timestamp re-basing).  In the audio-sample pipeline, the [k]-th
    item of the [i]-th chunk result is appended to the absolute transcript
    with [startTime] and [endTime] increased by [i * segmentTime] and with
    [speaker] and [text] unchanged; in the text pipeline, the step for
    chunk [i] appends the items [transcribeChunk] returned, each with both
    times increased by [i * 300] and [speaker] and [text] unchanged. *)
Theorem merge_adds_chunk_offset :
  (forall env paths init cp pt h st h' i cr k item,
      transcribeSequentially env paths init cp pt h = (inr st, h') ->
      allChunkResults st !! i = Some cr ->
      cr_transcription cr !! k = Some item ->
      mergeChunkResults segmentTime (allChunkResults st) []
        !! (itemsBefore (allChunkResults st) i + k)%nat =
      Some {| speaker := speaker item;
              startTime :=
                (startTime item + inject_Z (Z.of_nat i) * segmentTime)%Q;
              endTime :=
                (endTime item + inject_Z (Z.of_nat i) * segmentTime)%Q;
              text := text item |})
  /\
  (forall env cp pt st i path h st' h',
      TextPipeline.chunkStep env cp pt st (i, path) h = (inr st', h') ->
      exists chunkTranscription,
        transcribeChunk env path i
          (Js.join newline (map contextLine (Js.sliceLast 10 (snd st))))
          (fst st) cp pt h = (inr chunkTranscription, h') /\
        snd st' =
        snd st ++
        map (fun item =>
               {| speaker := speaker item;
                  startTime :=
                    (startTime item +
                     inject_Z (Z.of_nat i) * TextPipeline.segmentSeconds)%Q;
                  endTime :=
                    (endTime item +
                     inject_Z (Z.of_nat i) * TextPipeline.segmentSeconds)%Q;
                  text := text item |})
            chunkTranscription).
Proof.
  split.
  - intros env paths init cp pt h st h' i cr k item Hrun Hi Hk.
    rewrite (mergeChunkResults_lookup _ _ _ _ _ _ Hi Hk).
    by rewrite (transcribeSequentially_index _ _ _ _ _ _ _ _ _ _ Hrun Hi).
  - intros env cp pt st i path h st' h' Hrun.
    unfold TextPipeline.chunkStep in Hrun.
    apply bind_returns in Hrun as (tr & h1 & Hcall & Hret).
    rewrite mret_run in Hret. simplify_eq.
    exists tr. split; [exact Hcall|]. by rewrite pushItem_spec.
Qed.

Lemma merge_adds_chunk_offset_witness :
  (Sample.run = (inr Sample.st, snd Sample.run) /\
   mergeChunkResults segmentTime (allChunkResults Sample.st) []
     !! (itemsBefore (allChunkResults Sample.st) 1 + 0)%nat =
   Some {| speaker := "SPEAKER_01";
           startTime := (0 + inject_Z (Z.of_nat 1) * segmentTime)%Q;
           endTime := (40 + inject_Z (Z.of_nat 1) * segmentTime)%Q;
           text := "again" |})
  /\
  (exists st' h',
      TextPipeline.chunkStep Sample.env None "" ([], Sample.chunk0)
                             (1%nat, "chunk_001.mp3") [] = (inr st', h') /\
      exists chunkTranscription,
        transcribeChunk Sample.env "chunk_001.mp3" 1
          (Js.join newline
             (map contextLine (Js.sliceLast 10 Sample.chunk0)))
          [] None "" [] = (inr chunkTranscription, h') /\
        snd st' =
        Sample.chunk0 ++
        map (fun item =>
               {| speaker := speaker item;
                  startTime :=
                    (startTime item +
                     inject_Z (Z.of_nat 1) * TextPipeline.segmentSeconds)%Q;
                  endTime :=
                    (endTime item +
                     inject_Z (Z.of_nat 1) * TextPipeline.segmentSeconds)%Q;
                  text := text item |})
            chunkTranscription).
Proof.
  assert (Sample.run = (inr Sample.st, snd Sample.run)) as Hrun
    by (vm_compute; reflexivity).
  split.
  - split; [exact Hrun|].
    exact (proj1 merge_adds_chunk_offset Sample.env Sample.paths [] None ""
             [] Sample.st (snd Sample.run) 1%nat
             (mkChunkResult 1 Sample.chunk1) 0%nat
             (mkItem "SPEAKER_01" 0 40 "again") Hrun eq_refl eq_refl).
  - eexists _, _. split; [vm_compute; reflexivity|].
    eapply (proj2 merge_adds_chunk_offset Sample.env None ""
              ([], Sample.chunk0) 1%nat "chunk_001.mp3" []).
    vm_compute; reflexivity.
Defined.

(** ** Retry policy of [transcribeChunk] *)

Lemma beforeAttempt_S env_h0 system audio k :
  beforeAttempt system audio env_h0 (S k) =
  beforeAttempt system audio env_h0 k ++
  [EvTranscribe system audio; EvDelay 2000].
Proof.
  unfold beforeAttempt. rewrite <- app_assoc. f_equal.
  set (turn := [EvTranscribe system audio; EvDelay 2000]).
  induction k as [|k IH]; [reflexivity|].
  change (concat (replicate (S (S k)) turn))
    with (turn ++ concat (replicate (S k) turn)).
  rewrite IH at 1. by rewrite app_assoc.
Qed.

(** One turn of the [while] loop. *)
Lemma retryLoop_step env retries system audio h :
  retryLoop env (S retries) system audio h =
  match env_transcribe env h system audio with
  | inr v => (inr v, h ++ [EvTranscribe system audio])
  | inl e =>
      if (retries =? 0)%nat
      then (inl e, h ++ [EvTranscribe system audio])
      else retryLoop env retries system audio
             (h ++ [EvTranscribe system audio; EvDelay 2000])
  end.
Proof.
  cbn [retryLoop]. unfold tryCatch, generateTranscription, request.
  destruct (env_transcribe env h system audio) as [e|v]; [|done].
  destruct retries as [|r]; [done|].
  cbn [Nat.eqb]. rewrite bind_run. unfold delay, command.
  by rewrite <- app_assoc.
Qed.

Lemma retryLoop_calls env retries system audio h r h' :
  retryLoop env retries system audio h = (r, h') ->
  (transcriptionCalls h' <= transcriptionCalls h + retries)%nat.
Proof.
  revert h. induction retries as [|n IH]; intros h Hrun.
  - cbn [retryLoop] in Hrun. unfold throw in Hrun. simplify_eq. lia.
  - rewrite retryLoop_step in Hrun.
    assert (transcriptionCalls (h ++ [EvTranscribe system audio]) =
            S (transcriptionCalls h)) as Hone.
    { unfold transcriptionCalls. rewrite List.filter_app, length_app.
      simpl. lia. }
    assert (transcriptionCalls
              (h ++ [EvTranscribe system audio; EvDelay 2000]) =
            S (transcriptionCalls h)) as Htwo.
    { unfold transcriptionCalls. rewrite List.filter_app, length_app.
      simpl. lia. }
    destruct (env_transcribe env h system audio) as [e|v].
    + destruct (n =? 0)%nat.
      * simplify_eq. lia.
      * apply IH in Hrun. lia.
    + simplify_eq. lia.
Qed.

(** C2 (retry bound).  Once the chunk file is read, [transcribeChunk]
    calls the inference service at most three times, waiting 2000 ms
    between consecutive calls.  If attempt [k < 3] is the first to succeed,
    its transcription is returned and no later attempt is made (for
    [k = 2]: two failures, then the successful result).  If all three
    attempts fail, the error of the third one is thrown and nothing is
    attempted afterwards.  In every case the log gains at most three
    transcription calls. *)
Theorem transcribeChunk_retry_bound :
  forall env chunkPath chunkIndex previousContext knownSpeakers customPrompt
         promptTemplate h,
    let run := transcribeChunk env chunkPath chunkIndex previousContext
                 knownSpeakers customPrompt promptTemplate h in
    let system := buildSystemPrompt promptTemplate previousContext
                    knownSpeakers customPrompt in
    let h0 := h ++ [EvReadFile chunkPath] in
    (forall audio k v,
        env_readFile env h chunkPath = inr audio ->
        (k < 3)%nat ->
        allFailedBefore env system audio h0 k = true ->
        attemptOutcome env system audio h0 k = inr v ->
        run = (inr v, afterAttempt system audio h0 k))
    /\
    (forall audio e,
        env_readFile env h chunkPath = inr audio ->
        allFailedBefore env system audio h0 2 = true ->
        attemptOutcome env system audio h0 2 = inl e ->
        run = (inl e, afterAttempt system audio h0 2))
    /\
    (transcriptionCalls (snd run) <= transcriptionCalls h + 3)%nat.
Proof.
  intros env chunkPath chunkIndex previousContext knownSpeakers customPrompt
         promptTemplate h run system h0.
  assert (forall audio,
             env_readFile env h chunkPath = inr audio ->
             run = retryLoop env 3 system audio h0) as Hread.
  { intros audio Hr. unfold run, transcribeChunk.
    rewrite bind_run. unfold readFile, request. by rewrite Hr. }
  assert (forall audio,
             beforeAttempt system audio h0 0 = h0) as Hzero.
  { intros audio. unfold beforeAttempt. simpl. by rewrite app_nil_r. }
  split; [|split].
  - intros audio k v Hr Hk Hfail Hok. rewrite (Hread _ Hr).
    unfold afterAttempt, allFailedBefore, attemptOutcome in *.
    destruct k as [|[|[|k]]]; [| | |lia].
    + rewrite Hzero in *. rewrite retryLoop_step. by rewrite Hok.
    + cbn [seq forallb] in Hfail.
      rewrite !beforeAttempt_S, Hzero in *.
      apply andb_prop in Hfail as [F0 _].
      rewrite retryLoop_step.
      destruct (env_transcribe env h0 system audio); [|discriminate].
      cbn [Nat.eqb]. rewrite retryLoop_step. by rewrite Hok.
    + cbn [seq forallb] in Hfail.
      rewrite !beforeAttempt_S, Hzero in *.
      apply andb_prop in Hfail as [F0 Hfail].
      apply andb_prop in Hfail as [F1 _].
      rewrite retryLoop_step.
      destruct (env_transcribe env h0 system audio); [|discriminate].
      cbn [Nat.eqb]. rewrite retryLoop_step.
      destruct (env_transcribe env (h0 ++ _) system audio); [|discriminate].
      cbn [Nat.eqb]. rewrite retryLoop_step. by rewrite Hok.
  - intros audio e Hr Hfail Hlast. rewrite (Hread _ Hr).
    unfold afterAttempt, allFailedBefore, attemptOutcome in *.
    cbn [seq forallb] in Hfail.
    rewrite !beforeAttempt_S, Hzero in *.
    apply andb_prop in Hfail as [F0 Hfail].
    apply andb_prop in Hfail as [F1 _].
    rewrite retryLoop_step.
    destruct (env_transcribe env h0 system audio); [|discriminate].
    cbn [Nat.eqb]. rewrite retryLoop_step.
    destruct (env_transcribe env (h0 ++ _) system audio); [|discriminate].
    cbn [Nat.eqb]. rewrite retryLoop_step. by rewrite Hlast.
  - unfold run, transcribeChunk. rewrite bind_run.
    unfold readFile, request.
    assert (transcriptionCalls h0 = transcriptionCalls h) as Hsame.
    { unfold h0, transcriptionCalls. rewrite List.filter_app, length_app.
      simpl. lia. }
    destruct (env_readFile env h chunkPath) as [e|audio].
    + cbn [snd]. fold h0. lia.
    + fold h0 system.
      destruct (retryLoop env maxRetries system audio h0) as [r h'] eqn:Hrun.
      apply retryLoop_calls in Hrun. cbn [snd]. unfold maxRetries in Hrun.
      lia.
Qed.

Lemma transcribeChunk_retry_bound_witness :
  transcribeChunk (Flaky.env 2) "a.mp3" 0 "" [] None "template" [] =
    (inr Sample.chunk0,
     afterAttempt Flaky.system "a.mp3" [EvReadFile "a.mp3"] 2)
  /\
  transcribeChunk (Flaky.env 3) "a.mp3" 0 "" [] None "template" [] =
    (inl "overloaded 2",
     afterAttempt Flaky.system "a.mp3" [EvReadFile "a.mp3"] 2).
Proof.
  split.
  - apply (proj1 (transcribeChunk_retry_bound (Flaky.env 2) "a.mp3" 0 "" []
                    None "template" []) "a.mp3" 2%nat Sample.chunk0);
      [reflexivity | lia | reflexivity | reflexivity].
  - apply (proj1 (proj2 (transcribeChunk_retry_bound (Flaky.env 3) "a.mp3" 0
                           "" [] None "template" [])) "a.mp3" "overloaded 2");
      reflexivity.
Defined.

(** ** The known-speaker registry *)

Lemma includes_In xs x : Js.includes xs x = true <-> In x xs.
Proof.
  unfold Js.includes. rewrite existsb_exists. split.
  - intros (y & Hy & Heq). apply String.eqb_eq in Heq. by subst.
  - intros Hx. exists x. split; [done|apply String.eqb_refl].
Qed.

Lemma setOf_loop_In xs seen x :
  In x (fold_left (fun seen x => if Js.includes seen x then seen
                                 else seen ++ [x]) xs seen) <->
  In x seen \/ In x xs.
Proof.
  revert seen. induction xs as [|y xs IH]; intros seen; simpl.
  - tauto.
  - rewrite IH. destruct (Js.includes seen y) eqn:Hinc.
    + apply includes_In in Hinc. split; [tauto|].
      intros [H|[->|H]]; tauto.
    + rewrite in_app_iff. simpl. tauto.
Qed.

Lemma setOf_In xs x : In x (Js.setOf xs) <-> In x xs.
Proof. unfold Js.setOf. rewrite setOf_loop_In. simpl. tauto. Qed.

Lemma prefix_refl s : String.prefix s s = true.
Proof.
  induction s as [|c s IH]; [done|]. simpl.
  destruct (Ascii.ascii_dec c c); [done|congruence].
Qed.

Lemma registerSpeaker_covered known s :
  exists ks, In ks (registerSpeaker known s) /\ String.prefix s ks = true.
Proof.
  unfold registerSpeaker, Js.some, Js.startsWith.
  destruct (existsb _ known) eqn:Hex.
  - apply existsb_exists in Hex as (ks & Hin & Hp). eauto.
  - exists s. split; [apply in_app_iff; simpl; tauto|apply prefix_refl].
Qed.

Lemma registerSpeaker_grows known s :
  exists added, registerSpeaker known s = known ++ added /\
                (forall c, In c added -> c = s).
Proof.
  unfold registerSpeaker. destruct (Js.some _ known).
  - exists []. rewrite app_nil_r. split; [done|]. intros c [].
  - exists [s]. split; [done|]. intros c [->|[]]. done.
Qed.

Lemma registerLoop_spec codes known :
  exists added,
    fold_left registerSpeaker codes known = known ++ added /\
    (forall c, In c added -> In c codes) /\
    (forall c, In c codes ->
               exists ks, In ks (known ++ added) /\
                          String.prefix c ks = true).
Proof.
  revert known. induction codes as [|s codes IH]; intros known; simpl.
  - exists []. rewrite app_nil_r. split; [done|]. split; intros c [].
  - destruct (registerSpeaker_grows known s) as (a1 & Hk1 & Ha1).
    destruct (IH (registerSpeaker known s)) as (a2 & Hk2 & Ha2 & Hcov).
    exists (a1 ++ a2). rewrite Hk2, Hk1, <- app_assoc.
    split; [done|]. split.
    + intros c Hc. apply in_app_iff in Hc as [Hc|Hc]; [left|right]; auto.
      symmetry. auto.
    + intros c [->|Hc].
      * destruct (registerSpeaker_covered known c) as (ks & Hin & Hp).
        exists ks. split; [|done]. rewrite Hk1 in Hin.
        rewrite app_assoc. apply in_app_iff. tauto.
      * destruct (Hcov c Hc) as (ks & Hin & Hp). exists ks.
        split; [|done]. by rewrite Hk1, <- app_assoc in Hin.
Qed.

(** C3 as stated fails both ways: no entry of
    the registry is a prefix of ["SPEAKER_01"], yet the code is not added
    (the discovery hint ["SPEAKER_01: low voice"] starts with it); and
    ["A"] is a prefix of ["AB"], yet ["AB"] is added. *)
Lemma registry_prefix_direction_counterexample :
  (forallb (fun ks => negb (String.prefix ks "SPEAKER_01"))
           [ "SPEAKER_01: low voice" ] = true /\
   updateKnownSpeakers [ "SPEAKER_01: low voice" ]
                       [ mkItem "SPEAKER_01" 0 10 "hello" ] =
   [ "SPEAKER_01: low voice" ])
  /\
  (existsb (fun ks => String.prefix ks "AB") [ "A" ] = true /\
   updateKnownSpeakers [ "A" ] [ mkItem "AB" 0 10 "hello" ] = [ "A"; "AB" ]).
Proof. repeat split. Qed.

(** C3 (registry update, as the code does it).  After a chunk, the
    registry becomes the old registry followed by codes of that chunk, and
    every code of the chunk is then a prefix of some entry.  For one
    examined code [s]: it is appended exactly when no entry of the registry
    at that moment starts with [s] (that is, when [s] is a prefix of no
    entry); when some entry starts with [s] the registry is unchanged. *)
Theorem registry_update_by_prefix :
  (forall known s,
      (forall ks, In ks known -> String.prefix s ks = false) ->
      registerSpeaker known s = known ++ [s])
  /\
  (forall known s ks,
      In ks known -> String.prefix s ks = true ->
      registerSpeaker known s = known)
  /\
  (forall env cp pt st ic h st' h',
      transcribeStep env cp pt st ic h = (inr st', h') ->
      exists chunkTranscription added,
        allChunkResults st' =
          allChunkResults st ++ [mkChunkResult (fst ic) chunkTranscription] /\
        knownSpeakers st' =
          fold_left registerSpeaker
                    (Js.setOf (map speaker chunkTranscription))
                    (knownSpeakers st) /\
        knownSpeakers st' = knownSpeakers st ++ added /\
        (forall c, In c added -> In c (map speaker chunkTranscription)) /\
        (forall c, In c (map speaker chunkTranscription) ->
                   exists ks, In ks (knownSpeakers st') /\
                              String.prefix c ks = true)).
Proof.
  split; [|split].
  - intros known s Hnone. unfold registerSpeaker, Js.some, Js.startsWith.
    destruct (existsb _ known) eqn:Hex; [|done].
    apply existsb_exists in Hex as (ks & Hin & Hp).
    rewrite (Hnone ks Hin) in Hp. discriminate.
  - intros known s ks Hin Hp. unfold registerSpeaker, Js.some, Js.startsWith.
    destruct (existsb _ known) eqn:Hex; [done|].
    assert (existsb (fun ks => String.prefix s ks) known = true) as Hyes
      by (apply existsb_exists; eauto).
    congruence.
  - intros env cp pt st [i path] h st' h' Hrun.
    unfold transcribeStep in Hrun.
    apply bind_returns in Hrun as (tr & h1 & _ & Hret).
    rewrite mret_run in Hret. simplify_eq. cbn [allChunkResults knownSpeakers].
    destruct (registerLoop_spec (Js.setOf (map speaker tr)) (knownSpeakers st))
      as (added & Hk & Hadd & Hcov).
    exists tr, added. unfold updateKnownSpeakers, currentSpeakersOf.
    split; [done|]. split; [done|]. split; [done|]. split.
    + intros c Hc. apply setOf_In. auto.
    + intros c Hc. rewrite Hk. apply Hcov. by apply setOf_In.
Qed.

Lemma registry_update_by_prefix_witness :
  registerSpeaker [ "SPEAKER_01: low voice" ] "SPEAKER_02" =
    [ "SPEAKER_01: low voice" ] ++ [ "SPEAKER_02" ]
  /\
  registerSpeaker [ "SPEAKER_01: low voice" ] "SPEAKER_01" =
    [ "SPEAKER_01: low voice" ]
  /\
  (exists st' h',
      transcribeStep Sample.env None ""
        {| allChunkResults := []; knownSpeakers := [ "SPEAKER_01: low voice" ];
           previousContext := "" |}
        (0%nat, "chunk_000.mp3") [] = (inr st', h') /\
      knownSpeakers st' = [ "SPEAKER_01: low voice"; "SPEAKER_02" ] /\
      exists chunkTranscription added,
        allChunkResults st' = [] ++ [mkChunkResult 0 chunkTranscription] /\
        knownSpeakers st' =
          fold_left registerSpeaker
                    (Js.setOf (map speaker chunkTranscription))
                    [ "SPEAKER_01: low voice" ] /\
        knownSpeakers st' = [ "SPEAKER_01: low voice" ] ++ added /\
        (forall c, In c added -> In c (map speaker chunkTranscription)) /\
        (forall c, In c (map speaker chunkTranscription) ->
                   exists ks, In ks (knownSpeakers st') /\
                              String.prefix c ks = true)).
Proof.
  split; [|split].
  - apply (proj1 registry_update_by_prefix).
    intros ks [<-|[]]. reflexivity.
  - apply (proj1 (proj2 registry_update_by_prefix) _ _
                 "SPEAKER_01: low voice"); [simpl; tauto|reflexivity].
  - eexists _, _. split; [vm_compute; reflexivity|].
    split; [reflexivity|].
    eapply (proj2 (proj2 registry_update_by_prefix) Sample.env None ""
              {| allChunkResults := [];
                 knownSpeakers := [ "SPEAKER_01: low voice" ];
                 previousContext := "" |}
              (0%nat, "chunk_000.mp3") []).
    vm_compute; reflexivity.
Defined.

(** ** Applying the mapping *)

(** [mapping[code] || code], by cases on the own entry of [code]. *)
Lemma orValue_lookup (mapping : gmap string string) code :
  Js.orValue (Js.lookup mapping code) code =
  match mapping !! code with
  | Some v => if decide (v = "") then Js.Str code else Js.Str v
  | None => if Js.inherited code then Js.Member code else Js.Str code
  end.
Proof.
  unfold Js.lookup. destruct (mapping !! code) as [v|]; simpl.
  - destruct (String.eqb_spec v ""); by case_decide.
  - by destruct (Js.inherited code).
Qed.

Lemma applyMapping_lookup mapping transcription i item :
  transcription !! i = Some item ->
  applyMapping mapping transcription !! i =
  Some (applyMappingItem mapping item).
Proof. intros Hi. unfold applyMapping. by rewrite list_lookup_fmap, Hi. Qed.

(** What the two resolvers return is the input with the mapping applied. *)
Lemma normalizeSpeakers_returns env acc h res h' :
  TextPipeline.normalizeSpeakers env acc h = (inr res, h') ->
  exists mapping,
    env_normalize env h (transcription acc) = inr mapping /\
    res = withTranscription acc (applyMapping mapping (transcription acc)).
Proof.
  unfold TextPipeline.normalizeSpeakers. intros Hrun.
  apply bind_returns in Hrun as (mapping & h1 & Hcall & Hret).
  unfold request in Hcall. rewrite mret_run in Hret. simplify_eq.
  by exists mapping.
Qed.

Lemma identifyLoop_run env acc orig tmp h :
  identifyLoop env acc orig tmp h =
  if (env_spreadLimit env <? N.of_nat (length (transcription acc)))%N
  then (inl "Maximum call stack size exceeded", h)
  else (_ ← mkdir env (samplesDir tmp);
        identifyWindows env acc orig tmp (numChunksOf (transcription acc)) 0
          (Z.to_nat (numChunksOf (transcription acc))) initialResolveState) h.
Proof.
  unfold identifyLoop, spreadMaxWithZero. rewrite bind_run, length_map.
  by destruct (env_spreadLimit env <? N.of_nat (length (transcription acc)))%N.
Qed.

Lemma identifyLoop_returns env acc orig tmp h st h' :
  identifyLoop env acc orig tmp h = (inr st, h') ->
  (N.of_nat (length (transcription acc)) <= env_spreadLimit env)%N /\
  exists h1,
    mkdir env (samplesDir tmp) h = (inr tt, h1) /\
    identifyWindows env acc orig tmp (numChunksOf (transcription acc)) 0
      (Z.to_nat (numChunksOf (transcription acc))) initialResolveState h1 =
    (inr st, h').
Proof.
  rewrite identifyLoop_run.
  destruct (env_spreadLimit env <? N.of_nat (length (transcription acc)))%N
    eqn:Hlimit; [discriminate|].
  intros Hrun. apply N.ltb_ge in Hlimit. split; [exact Hlimit|].
  apply bind_returns in Hrun as ([] & h1 & Hmk & Hrun). by exists h1.
Qed.

Lemma identifySpeakersWithAudio_returns env acc orig tmp h res h' :
  identifySpeakersWithAudio env acc orig tmp h = (inr res, h') ->
  exists st,
    identifyLoop env acc orig tmp h = (inr st, h') /\
    res = withTranscription acc
            (applyMapping (globalMapping st) (transcription acc)).
Proof.
  unfold identifySpeakersWithAudio. intros Hrun.
  apply bind_returns in Hrun as (st & h1 & Hloop & Hret).
  rewrite mret_run in Hret. simplify_eq. by exists st.
Qed.

(** C4 as stated fails: with [mapping = { SPEAKER_01: "" }] the code keeps
    ["SPEAKER_01"], where [mapping[code] ?? code] is the empty string. *)
Lemma applyMapping_empty_name_counterexample :
  let mapping : gmap string string := {[ "SPEAKER_01" := "" ]} in
  let item := mkItem "SPEAKER_01" 0 10 "hello" in
  mapping !! speaker item = Some "" /\
  Js.nullish (mapping !! speaker item) (speaker item) = "" /\
  map speaker (applyMapping mapping [ item ]) = [ Js.Str "SPEAKER_01" ] /\
  map speaker (applyMapping mapping [ item ]) <>
    [ Js.Str (Js.nullish (mapping !! speaker item) (speaker item)) ].
Proof. repeat split. discriminate. Qed.

(** C4 (final mapping, as the code does it).  Every item of the resolved
    transcript is the item at the same position with
    [speaker = mapping[speaker] || speaker]: a code mapped to a non-empty
    name takes that name; a code mapped to the empty string keeps its own
    value; and so does a code absent from the mapping, as long as it is
    not the name of a member every object inherits from
    [Object.prototype]. *)
Theorem applyMapping_speaker :
  forall (mapping : gmap string string) (transcription : list Item) i item,
    transcription !! i = Some item ->
    exists item',
      applyMapping mapping transcription !! i = Some item' /\
      (forall v, mapping !! speaker item = Some v -> v <> "" ->
                 speaker item' = Js.Str v) /\
      (mapping !! speaker item = None ->
       Js.inherited (speaker item) = false ->
       speaker item' = Js.Str (speaker item)) /\
      (mapping !! speaker item = Some "" ->
       speaker item' = Js.Str (speaker item)).
Proof.
  intros mapping transcription i item Hi.
  exists (applyMappingItem mapping item).
  split; [by apply applyMapping_lookup|].
  cbn [applyMappingItem speaker]. rewrite orValue_lookup.
  repeat split.
  - intros v -> Hne. by case_decide.
  - by intros -> ->.
  - by intros ->.
Qed.

Lemma applyMapping_speaker_witness :
  let mapping : gmap string string :=
    <[ "SPEAKER_01" := "Alice" ]> {[ "SPEAKER_02" := "" ]} in
  exists a b c,
    applyMapping mapping
      [ mkItem "SPEAKER_01" 0 10 "x"; mkItem "SPEAKER_02" 10 20 "y";
        mkItem "SPEAKER_03" 20 30 "z" ] = [ a; b; c ] /\
    speaker a = Js.Str "Alice" /\ speaker b = Js.Str "SPEAKER_02" /\
    speaker c = Js.Str "SPEAKER_03".
Proof.
  intros mapping.
  set (tr := [ mkItem "SPEAKER_01" 0 10 "x"; mkItem "SPEAKER_02" 10 20 "y";
               mkItem "SPEAKER_03" 20 30 "z" ]).
  destruct (applyMapping_speaker mapping tr 0 (mkItem "SPEAKER_01" 0 10 "x")
              eq_refl) as (a & Ha & Ha1 & _ & _).
  destruct (applyMapping_speaker mapping tr 1 (mkItem "SPEAKER_02" 10 20 "y")
              eq_refl) as (b & Hb & _ & _ & Hb3).
  destruct (applyMapping_speaker mapping tr 2 (mkItem "SPEAKER_03" 20 30 "z")
              eq_refl) as (c & Hc & _ & Hc2 & _).
  exists a, b, c. split; [|split; [|split]].
  - vm_compute in Ha, Hb, Hc. vm_compute. congruence.
  - apply (Ha1 "Alice"); [reflexivity|discriminate].
  - apply Hb3. reflexivity.
  - apply Hc2; reflexivity.
Defined.

(** Why absent codes are required not to be inherited names: under the
    empty mapping the code ["constructor"] is replaced by the member found
    on the prototype, and in a window it is never among the unknown
    codes. *)
Lemma inherited_member_replaces_code :
  let item := mkItem "constructor" 0 1 "x" in
  map speaker (applyMapping ∅ [ item ]) = [ Js.Member "constructor" ] /\
  unknownSpeakersOf ∅ [ item ] = [].
Proof. by vm_compute. Qed.

Lemma applyMapping_frame mapping transcription :
  map timingAndText (applyMapping mapping transcription) =
  map timingAndText transcription.
Proof.
  unfold applyMapping. rewrite map_map. apply map_ext. by intros [].
Qed.

(** Codes that are own keys mapped to themselves are left as they are. *)
Lemma applyMapping_own_identity (mapping : gmap string string) transcription :
  (forall item, In item transcription ->
                mapping !! speaker item = Some (speaker item)) ->
  applyMapping mapping transcription = map unchanged transcription.
Proof.
  intros Hid. unfold applyMapping. apply map_ext_in. intros item Hin.
  unfold applyMappingItem, unchanged. f_equal.
  rewrite orValue_lookup, (Hid item Hin). by case_decide.
Qed.

(** So are the codes of a transcript under a mapping whose keys map to
    themselves, unless a code falls through to [Object.prototype]. *)
Lemma applyMapping_identity (mapping : gmap string string) transcription :
  (forall c v, mapping !! c = Some v -> v = c) ->
  (forall item, In item transcription -> Js.inherited (speaker item) = false) ->
  applyMapping mapping transcription = map unchanged transcription.
Proof.
  intros Hid Hplain. unfold applyMapping. apply map_ext_in. intros item Hin.
  unfold applyMappingItem, unchanged. f_equal. rewrite orValue_lookup.
  destruct (mapping !! speaker item) as [v|] eqn:Hv.
  - apply Hid in Hv. subst. by case_decide.
  - by rewrite (Hplain item Hin).
Qed.

(** C8 (frame of resolution).  Applying any mapping keeps the length and
    the order of the transcript and, position by position, the
    [startTime], [endTime] and [text] of every item.  When every code of
    the transcript is mapped to itself the transcript is returned
    unchanged, speakers included; the same holds under any mapping whose
    keys all map to themselves, provided no code of the transcript is the
    name of a member inherited from [Object.prototype].  Both resolvers
    return their input with exactly this rewriting applied to
    [transcription] (and [title], [slug], [summary] untouched). *)
Theorem resolution_rewrites_speaker_only :
  (forall (mapping : gmap string string) (transcription : list Item),
      length (applyMapping mapping transcription) = length transcription /\
      (forall i item,
          transcription !! i = Some item ->
          exists item',
            applyMapping mapping transcription !! i = Some item' /\
            startTime item' = startTime item /\
            endTime item' = endTime item /\
            text item' = text item) /\
      ((forall item, In item transcription ->
                     mapping !! speaker item = Some (speaker item)) ->
       applyMapping mapping transcription = map unchanged transcription) /\
      ((forall c v, mapping !! c = Some v -> v = c) ->
       (forall item, In item transcription ->
                     Js.inherited (speaker item) = false) ->
       applyMapping mapping transcription = map unchanged transcription))
  /\
  (forall env acc h res h',
      TextPipeline.normalizeSpeakers env acc h = (inr res, h') ->
      exists mapping,
        res = withTranscription acc
                (applyMapping mapping (transcription acc)))
  /\
  (forall env acc orig tmp h res h',
      identifySpeakersWithAudio env acc orig tmp h = (inr res, h') ->
      exists mapping,
        res = withTranscription acc
                (applyMapping mapping (transcription acc))).
Proof.
  split; [|split].
  - intros mapping transcription. split; [|split; [|split]].
    + unfold applyMapping. apply length_map.
    + intros i item Hi. exists (applyMappingItem mapping item).
      split; [by apply applyMapping_lookup|done].
    + apply applyMapping_own_identity.
    + apply applyMapping_identity.
  - intros env acc h res h' Hrun.
    apply normalizeSpeakers_returns in Hrun as (mapping & _ & ->).
    by exists mapping.
  - intros env acc orig tmp h res h' Hrun.
    apply identifySpeakersWithAudio_returns in Hrun as (st & _ & ->).
    by exists (globalMapping st).
Qed.

Lemma resolution_rewrites_speaker_only_witness :
  let acc := withTranscription emptyAccumulated
               (Sample.chunk0 ++ map (rebaseItem 600) Sample.chunk1) in
  let itself : gmap string string :=
    <[ "SPEAKER_01" := "SPEAKER_01" ]> {[ "SPEAKER_02" := "SPEAKER_02" ]} in
  applyMapping itself Sample.chunk0 = map unchanged Sample.chunk0
  /\
  applyMapping {[ "SPEAKER_01" := "SPEAKER_01" ]} Sample.chunk0 =
    map unchanged Sample.chunk0
  /\
  (exists item',
      applyMapping {[ "SPEAKER_02" := "Bob" ]} Sample.chunk0 !! 1%nat =
        Some item' /\
      startTime item' = 10%Q /\ endTime item' = 35%Q /\ text item' = "hi")
  /\
  (exists res h',
      TextPipeline.normalizeSpeakers Sample.env acc [] = (inr res, h') /\
      exists mapping,
        res = withTranscription acc
                (applyMapping mapping (transcription acc)))
  /\
  (exists res h',
      identifySpeakersWithAudio Sample.env acc "talk.mp3" "tmp" [] =
        (inr res, h') /\
      exists mapping,
        res = withTranscription acc
                (applyMapping mapping (transcription acc))).
Proof.
  intros acc itself. split; [|split; [|split; [|split]]].
  - apply (proj1 (proj2 (proj2 (proj1 resolution_rewrites_speaker_only
                                    itself Sample.chunk0)))).
    intros item [<-|[<-|[]]]; reflexivity.
  - apply (proj2 (proj2 (proj2 (proj1 resolution_rewrites_speaker_only
                                    {[ "SPEAKER_01" := "SPEAKER_01" ]}
                                    Sample.chunk0)))).
    + intros c v Hcv. apply lookup_singleton_Some in Hcv as [<- <-].
      reflexivity.
    + intros item [<-|[<-|[]]]; reflexivity.
  - apply (proj1 (proj2 (proj1 resolution_rewrites_speaker_only
                           {[ "SPEAKER_02" := "Bob" ]} Sample.chunk0))
                 1%nat (mkItem "SPEAKER_02" 10 35 "hi")).
    reflexivity.
  - eexists _, _. split; [vm_compute; reflexivity|].
    eapply (proj1 (proj2 resolution_rewrites_speaker_only) Sample.env acc []).
    vm_compute; reflexivity.
  - eexists _, _. split; [vm_compute; reflexivity|].
    eapply (proj2 (proj2 resolution_rewrites_speaker_only) Sample.env acc
                  "talk.mp3" "tmp" []).
    vm_compute; reflexivity.
Defined.

(** ** Confirmed speaker samples *)

Lemma JsMap_has_get {V} (m : JsMap.t V) k :
  JsMap.has m k = true <-> is_Some (JsMap.get m k).
Proof.
  unfold JsMap.has. destruct (JsMap.get m k) as [v|]; split; intros H.
  - by exists v.
  - reflexivity.
  - discriminate.
  - by destruct H.
Qed.

Lemma JsMap_get_set_ne {V} (m : JsMap.t V) k k' v :
  k <> k' -> JsMap.get (JsMap.set m k v) k' = JsMap.get m k'.
Proof.
  intros Hne. induction m as [|[k0 v0] m IH]; simpl.
  - destruct (String.eqb_spec k k'); [done|reflexivity].
  - destruct (String.eqb_spec k0 k) as [->|Hk0]; simpl.
    + destruct (String.eqb_spec k k'); [done|reflexivity].
    + by rewrite IH.
Qed.

Lemma JsMap_get_set_eq {V} (m : JsMap.t V) k v :
  JsMap.get (JsMap.set m k v) k = Some v.
Proof.
  induction m as [|[k0 v0] m IH]; simpl.
  - by rewrite String.eqb_refl.
  - destruct (String.eqb_spec k0 k) as [->|Hk0]; simpl.
    + by rewrite String.eqb_refl.
    + destruct (String.eqb_spec k0 k); [done|exact IH].
Qed.

Lemma keepsSamples_refl st : keepsSamples st st.
Proof. by intros name info. Qed.

Lemma keepsSamples_trans a b c :
  keepsSamples a b -> keepsSamples b c -> keepsSamples a c.
Proof. intros Hab Hbc name info H. auto. Qed.

Lemma recordMapping_keeps newSamples st entry :
  keepsSamples st (recordMapping newSamples st entry).
Proof.
  destruct entry as [original mapped]. intros name info Hget.
  unfold recordMapping.
  destruct (JsMap.has (confirmedSpeakers st) mapped) eqn:Hhas; simpl;
    [done|].
  destruct (List.find _ newSamples); simpl; [|done].
  rewrite JsMap_get_set_ne; [done|]. intros <-.
  unfold JsMap.has in Hhas. by rewrite Hget in Hhas.
Qed.

Lemma recordMappings_keep newSamples entries st :
  keepsSamples st (fold_left (recordMapping newSamples) entries st).
Proof.
  revert st. induction entries as [|entry entries IH]; intros st; simpl.
  - apply keepsSamples_refl.
  - eapply keepsSamples_trans; [apply recordMapping_keeps|apply IH].
Qed.

(** A window that returns left the state as it was or folded the reply
    of one mapping call into it. *)
Lemma identifyWindow_returns env acc orig tmp numChunks st chunkIdx h st' h' :
  identifyWindow env acc orig tmp numChunks st chunkIdx h = (inr st', h') ->
  (st' = st /\ h' = h) \/
  (exists newSamples entries,
      st' = fold_left (recordMapping newSamples) entries st).
Proof.
  unfold identifyWindow. intros Hrun.
  destruct (length (chunkItemsOf _ _) =? 0)%nat.
  { rewrite mret_run in Hrun. simplify_eq. by left. }
  destruct (length (unknownSpeakersOf _ _) =? 0)%nat.
  { rewrite mret_run in Hrun. simplify_eq. by left. }
  apply bind_returns in Hrun as (newSamples & h1 & _ & Hrun).
  apply bind_returns in Hrun as (userContent & h2 & _ & Hrun).
  apply bind_returns in Hrun as (entries & h3 & _ & Hret).
  rewrite mret_run in Hret. simplify_eq. right. by exists newSamples, entries.
Qed.

Lemma identifyWindow_keeps env acc orig tmp numChunks st chunkIdx h st' h' :
  identifyWindow env acc orig tmp numChunks st chunkIdx h = (inr st', h') ->
  keepsSamples st st'.
Proof.
  intros Hrun.
  apply identifyWindow_returns in Hrun
    as [[-> _]|(newSamples & entries & ->)].
  - apply keepsSamples_refl.
  - apply recordMappings_keep.
Qed.

(** C5 (confirmed-sample monotonicity).  Whatever windows are processed
    next, in order, from a state in which [name] has a confirmed sample:
    if they return, [name] still has that same sample (same audio path,
    same reference text).  Hence the set of names with a sample only
    grows. *)
Theorem confirmed_samples_first_writer_wins :
  forall env acc orig tmp numChunks from count st h st' h' name info,
    identifyWindows env acc orig tmp numChunks from count st h =
      (inr st', h') ->
    JsMap.get (confirmedSpeakers st) name = Some info ->
    JsMap.get (confirmedSpeakers st') name = Some info /\
    (forall other, JsMap.has (confirmedSpeakers st) other = true ->
                   JsMap.has (confirmedSpeakers st') other = true).
Proof.
  intros env acc orig tmp numChunks from count st h st' h' name info Hrun.
  assert (keepsSamples st st') as Hkeep.
  { unfold identifyWindows in Hrun.
    revert Hrun. generalize (seq from count). intros windows Hrun.
    eapply (forEachM_invariant
              (identifyWindow env acc orig tmp numChunks)
              (fun s _ => keepsSamples st s)); [|apply keepsSamples_refl|
                                                exact Hrun].
    intros s idx h1 s1 h2 Hs Hstep.
    eapply keepsSamples_trans; [exact Hs|].
    eapply identifyWindow_keeps. exact Hstep. }
  intros Hget. split; [by apply Hkeep|].
  intros other Hhas. apply JsMap_has_get in Hhas as [v Hv].
  apply JsMap_has_get. exists v. by apply Hkeep.
Qed.

Lemma recordMapping_first_writer newSamples st original mapped sample :
  JsMap.has (confirmedSpeakers st) mapped = false ->
  List.find (fun s => String.eqb (ns_speaker s) original) newSamples =
    Some sample ->
  JsMap.get (confirmedSpeakers (recordMapping newSamples st (original, mapped)))
            mapped =
  Some {| si_path := ns_path sample; si_text := ns_text sample |}.
Proof.
  intros Hhas Hfind. unfold recordMapping. rewrite Hhas, Hfind. simpl.
  apply JsMap_get_set_eq.
Qed.

Lemma confirmed_samples_first_writer_wins_witness :
  TwoWindows.run1 = (inr TwoWindows.st1, snd TwoWindows.run1) /\
  TwoWindows.run2 = (inr TwoWindows.st2, snd TwoWindows.run2) /\
  JsMap.get (confirmedSpeakers TwoWindows.st1) "Alice" =
    Some TwoWindows.aliceSample /\
  globalMapping TwoWindows.st2 !! "SPEAKER_03" = Some "Alice" /\
  JsMap.get (confirmedSpeakers TwoWindows.st2) "Alice" =
    Some TwoWindows.aliceSample.
Proof.
  split; [vm_compute; reflexivity|].
  split; [vm_compute; reflexivity|].
  split; [reflexivity|].
  split; [reflexivity|].
  apply (proj1 (confirmed_samples_first_writer_wins TwoWindows.env
                  TwoWindows.acc "talk.mp3" "tmp" 2 1 1 TwoWindows.st1
                  (snd TwoWindows.run1) TwoWindows.st2 (snd TwoWindows.run2)
                  "Alice" TwoWindows.aliceSample
                  ltac:(vm_compute; reflexivity) eq_refl)).
Defined.

(** ** Windows without unknown codes *)

Lemma filter_none {A} (f : A -> bool) (xs : list A) :
  (forall x, In x xs -> f x = false) -> List.filter f xs = [].
Proof.
  induction xs as [|x xs IH]; intros Hall; simpl; [done|].
  rewrite (Hall x) by (simpl; tauto). apply IH. intros y Hy.
  apply Hall. simpl. tauto.
Qed.

Lemma unknownSpeakersOf_none (mapping : gmap string string) chunkItems :
  (forall item, In item chunkItems ->
                Js.truthyValue (Js.lookup mapping (speaker item)) = true) ->
  unknownSpeakersOf mapping chunkItems = [].
Proof.
  intros Hall. unfold unknownSpeakersOf. apply filter_none.
  intros s Hs. apply setOf_In, in_map_iff in Hs as (item & <- & Hin).
  by rewrite (Hall item Hin).
Qed.

(** C6 as stated fails: after the service answered [{ SPEAKER_01: "" }]
    for the first window,
    the only code of the second window is a key of the global mapping, and
    the second window is still processed: one more extraction and one more
    mapping call are issued. *)
Lemma skip_when_all_keys_counterexample :
  EmptyName.run1 = (inr EmptyName.st1, snd EmptyName.run1) /\
  forallb (fun item =>
             bool_decide
               (is_Some (globalMapping EmptyName.st1 !! speaker item)))
          (chunkItemsOf (transcription EmptyName.acc) 1) = true /\
  chunkItemsOf (transcription EmptyName.acc) 1 =
    [ mkItem "SPEAKER_01" 300 320 "later" ] /\
  extractCalls (snd EmptyName.run2) = S (extractCalls (snd EmptyName.run1)) /\
  resolveCalls (snd EmptyName.run2) = S (resolveCalls (snd EmptyName.run1)) /\
  EmptyName.run2 <> (inr EmptyName.st1, snd EmptyName.run1).
Proof.
  split; [vm_compute; reflexivity|].
  split; [vm_compute; reflexivity|].
  split; [vm_compute; reflexivity|].
  split; [vm_compute; reflexivity|].
  split; [vm_compute; reflexivity|].
  intros Heq. apply (f_equal (fun r => length (snd r))) in Heq.
  vm_compute in Heq. discriminate.
Qed.

(** C6 (skip-on-no-unknowns, as the code does it).  A window in which
    every occurring code is already mapped to a non-empty name is skipped:
    the log is unchanged (no extraction, no file read, no mapping call)
    and so are the global mapping and the confirmed-sample table. *)
Theorem window_without_unknown_codes_is_skipped :
  forall env acc orig tmp numChunks st chunkIdx h,
    (forall item,
        In item (chunkItemsOf (transcription acc) chunkIdx) ->
        exists name,
          globalMapping st !! speaker item = Some name /\ name <> "") ->
    identifyWindow env acc orig tmp numChunks st chunkIdx h = (inr st, h).
Proof.
  intros env acc orig tmp numChunks st chunkIdx h Hknown.
  unfold identifyWindow.
  destruct (length (chunkItemsOf _ _) =? 0)%nat; [done|].
  rewrite unknownSpeakersOf_none; [done|].
  intros item Hin. destruct (Hknown item Hin) as (name & Hname & Hne).
  unfold Js.lookup. rewrite Hname. simpl.
  by destruct (String.eqb_spec name "").
Qed.

Lemma window_without_unknown_codes_is_skipped_witness :
  identifyWindow TwoWindows.env TwoWindows.acc "talk.mp3" "tmp" 2
                 TwoWindows.st2 1 (snd TwoWindows.run2) =
  (inr TwoWindows.st2, snd TwoWindows.run2).
Proof.
  apply window_without_unknown_codes_is_skipped.
  intros item Hin. vm_compute in Hin. destruct Hin as [<-|[]].
  exists "Alice". split; [reflexivity|discriminate].
Defined.

(** ** The slug of the persisted artifact *)

Lemma finally_returns {A} (body : M A) (cleanup : M unit) h a h'' :
  finally body cleanup h = (inr a, h'') ->
  exists h', body h = (inr a, h').
Proof.
  unfold finally. destruct (body h) as [r h1].
  destruct (cleanup h1) as [u h2]. intros Heq. simplify_eq. by exists h1.
Qed.

Lemma generateTitleAndSummary_returns env acc h res h' :
  generateTitleAndSummary env acc h = (inr res, h') ->
  exists output,
    env_summarize env h (transcription acc) = inr output /\
    res = {| title := so_title output; slug := so_slug output;
             transcription := transcription acc;
             summary := so_summary output |}.
Proof.
  unfold generateTitleAndSummary. intros Hrun.
  apply bind_returns in Hrun as (output & h1 & Hcall & Hret).
  unfold request in Hcall. rewrite mret_run in Hret. simplify_eq.
  by exists output.
Qed.

(** A run that returns an artifact read the prompt, completed its [try]
    block and then removed the working directory. *)
Lemma processAudioFile_returns env host filePath customPrompt h artifact h' :
  processAudioFile env host filePath customPrompt h = (inr artifact, h') ->
  exists promptTemplate hb,
    tryBlock env host filePath customPrompt promptTemplate
             (h ++ [EvReadFile (Js.pathJoin (host_cwd host) "prompt.md")]) =
      (inr artifact, hb) /\
    h' = hb ++ [EvRm (tempDirOf host)].
Proof.
  unfold processAudioFile. intros Hrun.
  apply bind_returns in Hrun as (promptTemplate & h1 & Hread & Hrun).
  unfold readFile, request in Hread. simplify_eq.
  unfold finally in Hrun. fold (tempDirOf host) in Hrun.
  match type of Hrun with
  | (let '(r, h') := ?body ?h1 in _) = _ =>
      change body with (tryBlock env host filePath customPrompt promptTemplate)
        in Hrun;
      destruct (tryBlock env host filePath customPrompt promptTemplate h1)
        as [r hb] eqn:Hbody
  end.
  unfold tryCatch, rm, command in Hrun.
  exists promptTemplate, hb.
  destruct (env_rm env hb (tempDirOf host)); rewrite ?mret_run in Hrun;
    simplify_eq; by split.
Qed.

(** C7 (slug).  Whenever a run produces an artifact, the last request
    before the working directory is removed is the summary call, and the
    slug of the artifact is exactly the string that call returned: it is
    copied, with no lowercasing and no replacement of characters, into
    [info.slug] and into the name [main] gives the output file. *)
Theorem artifact_slug_is_service_slug :
  forall env host filePath customPrompt h artifact h',
    processAudioFile env host filePath customPrompt h = (inr artifact, h') ->
    exists hs transcript output,
      h' = hs ++ [EvSummarize transcript; EvRm (tempDirOf host)] /\
      env_summarize env hs transcript = inr output /\
      info_slug (info artifact) = so_slug output /\
      outputFileName artifact = so_slug output +:+ ".json".
Proof.
  intros env host filePath customPrompt h artifact h' Hrun.
  apply processAudioFile_returns in Hrun as (promptTemplate & hb & Hrun & ->).
  unfold tryBlock in Hrun.
  apply bind_returns in Hrun as (chunkPaths & h3 & _ & Hrun).
  apply bind_returns in Hrun as (initialSpeakers & h4 & _ & Hrun).
  apply bind_returns in Hrun as (st & h5 & _ & Hrun).
  apply bind_returns in Hrun as (acc1 & h6 & _ & Hrun).
  apply bind_returns in Hrun as (acc2 & h7 & Hsum & Hret).
  rewrite mret_run in Hret. simplify_eq.
  unfold generateTitleAndSummary in Hsum.
  apply bind_returns in Hsum as (output & h8 & Hcall & Hret).
  unfold request in Hcall. rewrite mret_run in Hret. simplify_eq.
  exists h6, (transcription acc1), output.
  split; [by rewrite <- app_assoc|]. by repeat split.
Qed.

(** C7 at a reply the service can give: the slug ["My Talk!"] reaches the
    artifact and the name of the output file unchanged. *)
Lemma artifact_slug_is_service_slug_witness :
  exists artifact h',
    processAudioFile SampleHost.env SampleHost.host "media/talk.mp3" None [] =
      (inr artifact, h') /\
    info_slug (info artifact) = "My Talk!" /\
    slugOk (info_slug (info artifact)) = false /\
    outputPath SampleHost.host "media/talk.mp3" artifact =
      "media/My Talk!.json" /\
    exists hs transcript output,
      h' = hs ++ [EvSummarize transcript; EvRm (tempDirOf SampleHost.host)] /\
      env_summarize SampleHost.env hs transcript = inr output /\
      info_slug (info artifact) = so_slug output /\
      outputFileName artifact = so_slug output +:+ ".json".
Proof.
  eexists _, _. split; [vm_compute; reflexivity|].
  split; [reflexivity|]. split; [reflexivity|]. split; [reflexivity|].
  eapply (artifact_slug_is_service_slug SampleHost.env SampleHost.host
            "media/talk.mp3" None []).
  vm_compute; reflexivity.
Defined.

(** ** Ordering of the merged transcript *)

Lemma timeOffsetOf_S segmentTime n :
  (timeOffsetOf segmentTime (S n) == timeOffsetOf segmentTime n + segmentTime)%Q.
Proof.
  unfold timeOffsetOf. rewrite Nat2Z.inj_succ. unfold Z.succ.
  rewrite inject_Z_plus. ring.
Qed.

Lemma rebasedChunk_sorted segmentTime cr :
  StronglySorted byStart (cr_transcription cr) ->
  StronglySorted byStart (rebasedChunk segmentTime cr).
Proof.
  unfold rebasedChunk. apply (StronglySorted_fmap _ byStart byStart).
  intros x y. unfold byStart, rebaseItem. simpl. lra.
Qed.

(** Chunks numbered [n, n + 1, ...] whose items satisfy the assumption are
    merged into a sorted list lying at or after [n * segmentTime]. *)
Lemma merged_chunks_sorted segmentTime crs n :
  map index crs = seq n (length crs) ->
  Forall (fun cr => chunkInOrder segmentTime (cr_transcription cr)) crs ->
  StronglySorted byStart (concat (map (rebasedChunk segmentTime) crs)) /\
  Forall (fun item =>
            (timeOffsetOf segmentTime n <= startTime item)%Q /\
            (0 < segmentTime)%Q)
         (concat (map (rebasedChunk segmentTime) crs)).
Proof.
  revert n. induction crs as [|cr crs IH]; intros n Hidx Hall.
  - simpl. split; constructor.
  - simpl in Hidx. injection Hidx as Hn Hrest.
    apply Forall_cons in Hall as [[Hin Hsorted] Hall].
    destruct (IH (S n) Hrest Hall) as [IHs IHb].
    assert (Forall (fun item =>
                      (timeOffsetOf segmentTime n <= startTime item)%Q /\
                      (startTime item < timeOffsetOf segmentTime (S n))%Q /\
                      (0 < segmentTime)%Q)
                   (rebasedChunk segmentTime cr)) as Hhere.
    { unfold rebasedChunk. apply Forall_fmap. rewrite Hn.
      eapply Forall_impl; [exact Hin|].
      intros item [Hlo Hhi]. simpl. rewrite timeOffsetOf_S. lra. }
    simpl. split.
    + apply StronglySorted_app. split; [|split].
      * intros x1 x2 Hx1 Hx2.
        rewrite Forall_forall in Hhere, IHb.
        destruct (Hhere x1 Hx1) as (_ & Hup & _).
        destruct (IHb x2 Hx2) as (Hlo & _).
        unfold byStart. lra.
      * by apply rebasedChunk_sorted.
      * exact IHs.
    + apply Forall_app. split.
      * eapply Forall_impl; [exact Hhere|]. intros item (? & ? & ?). done.
      * eapply Forall_impl; [exact IHb|]. intros item [Hlo Hpos].
        rewrite timeOffsetOf_S in Hlo. split; [lra|done].
Qed.

Lemma applyMapping_sorted mapping transcription :
  StronglySorted byStart transcription ->
  StronglySorted byStart (applyMapping mapping transcription).
Proof.
  unfold applyMapping. apply (StronglySorted_fmap _ byStart byStart).
  by intros x y.
Qed.

(** C9 (ordering).  When every chunk's transcription has its relative
    start times inside [[0, segmentTime)] and in ascending order, the
    merged transcript is the concatenation, in chunk order, of the
    re-based chunks, it is sorted by [startTime], and the transcript
    returned by the resolution stage is sorted by [startTime] as well, with
    the same sequence of start times. *)
Theorem merged_transcript_sorted :
  forall env paths init cp pt h st h',
    transcribeSequentially env paths init cp pt h = (inr st, h') ->
    Forall (fun cr => chunkInOrder segmentTime (cr_transcription cr))
           (allChunkResults st) ->
    let merged := mergeChunkResults segmentTime (allChunkResults st) [] in
    merged = concat (map (rebasedChunk segmentTime) (allChunkResults st)) /\
    StronglySorted byStart merged /\
    (forall orig tmp hr res hr',
        identifySpeakersWithAudio env
          (withTranscription emptyAccumulated merged) orig tmp hr =
          (inr res, hr') ->
        map startTime (transcription res) = map startTime merged /\
        StronglySorted byStart (transcription res)).
Proof.
  intros env paths init cp pt h st h' Hrun Hall merged.
  assert (merged =
          concat (map (rebasedChunk segmentTime) (allChunkResults st)))
    as Hmerged by apply mergeChunkResults_spec.
  assert (StronglySorted byStart merged) as Hsorted.
  { rewrite Hmerged.
    apply (merged_chunks_sorted segmentTime (allChunkResults st) 0);
      [|exact Hall].
    pose proof (transcribeSequentially_indices _ _ _ _ _ _ _ _ Hrun) as Hidx.
    rewrite Hidx. f_equal.
    rewrite <- (length_map index (allChunkResults st)), Hidx.
    by rewrite length_seq. }
  split; [exact Hmerged|]. split; [exact Hsorted|].
  intros orig tmp hr res hr' Hres.
  apply identifySpeakersWithAudio_returns in Hres as (rs & _ & ->).
  cbn [withTranscription transcription]. split.
  - pose proof (applyMapping_frame (globalMapping rs) merged) as Hframe.
    apply (f_equal (map (fun t : Q * Q * string => fst (fst t)))) in Hframe.
    by rewrite !map_map in Hframe.
  - by apply applyMapping_sorted.
Qed.

Lemma merged_transcript_sorted_witness :
  Sample.run = (inr Sample.st, snd Sample.run) /\
  map startTime Sample.merged = [ 0; 10; 0 + 1 * (60 * 10) ]%Q /\
  StronglySorted byStart Sample.merged /\
  exists res hr',
    identifySpeakersWithAudio Sample.env
      (withTranscription emptyAccumulated Sample.merged) "talk.mp3" "tmp" [] =
      (inr res, hr') /\
    map speaker (transcription res) =
      [ Js.Str "Alice"; Js.Str "Bob"; Js.Str "Alice" ] /\
    StronglySorted byStart (transcription res).
Proof.
  assert (Sample.run = (inr Sample.st, snd Sample.run)) as Hrun
    by (vm_compute; reflexivity).
  assert (Forall (fun cr => chunkInOrder segmentTime (cr_transcription cr))
                 (allChunkResults Sample.st)) as Hchunks.
  { repeat constructor; unfold byStart; simpl; lra. }
  destruct (merged_transcript_sorted Sample.env Sample.paths [] None "" []
              Sample.st (snd Sample.run) Hrun Hchunks)
    as (Hmerged & Hsorted & Hres).
  split; [exact Hrun|]. split; [reflexivity|]. split; [exact Hsorted|].
  eexists _, _. split; [vm_compute; reflexivity|].
  split; [reflexivity|].
  eapply (Hres "talk.mp3" "tmp" []). vm_compute; reflexivity.
Defined.

(** ** Empty transcription *)

Lemma identifyLoop_empty env acc orig tmp h :
  transcription acc = [] ->
  identifyLoop env acc orig tmp h =
  (match env_mkdir env h (samplesDir tmp) with
   | Some e => inl e
   | None => inr initialResolveState
   end,
   h ++ [EvMkdir (samplesDir tmp)]).
Proof.
  intros Hempty. rewrite identifyLoop_run, Hempty.
  replace (env_spreadLimit env <? N.of_nat (length (@nil Item)))%N
    with false by (symmetry; apply N.ltb_ge; simpl; lia).
  rewrite bind_run. unfold mkdir, command.
  by destruct (env_mkdir env h (samplesDir tmp)).
Qed.

(** C10 (empty transcription).  With no item, [Math.max(..., 0)] is 0
    and no window is computed; the only request made is the [mkdir] of the
    samples directory, so there is no audio extraction and no mapping call;
    the loop ends with the empty global mapping and no confirmed sample;
    and unless that [mkdir] throws, the value returned is the input. *)
Theorem identify_on_empty_transcription :
  forall env t s sm orig tmp h,
    let acc : Accumulated :=
      {| title := t; slug := s; transcription := []; summary := sm |} in
    let run := identifySpeakersWithAudio env acc orig tmp h in
    maxWithZero (map endTime (transcription acc)) = 0%Q /\
    numChunksOf (transcription acc) = 0%Z /\
    identifyLoop env acc orig tmp h =
      (match env_mkdir env h (samplesDir tmp) with
       | Some e => inl e
       | None => inr {| globalMapping := ∅; confirmedSpeakers := [] |}
       end,
       h ++ [EvMkdir (samplesDir tmp)]) /\
    run =
      (match env_mkdir env h (samplesDir tmp) with
       | Some e => inl e
       | None => inr {| title := t; slug := s; transcription := [];
                        summary := sm |}
       end,
       h ++ [EvMkdir (samplesDir tmp)]) /\
    extractCalls (snd run) = extractCalls h /\
    resolveCalls (snd run) = resolveCalls h.
Proof.
  intros env t s sm orig tmp h acc run.
  assert (run =
          (match env_mkdir env h (samplesDir tmp) with
           | Some e => inl e
           | None => inr {| title := t; slug := s; transcription := [];
                            summary := sm |}
           end,
           h ++ [EvMkdir (samplesDir tmp)])) as Hrun.
  { unfold run, identifySpeakersWithAudio. rewrite bind_run.
    rewrite identifyLoop_empty by done.
    by destruct (env_mkdir env h (samplesDir tmp)). }
  split; [reflexivity|]. split; [reflexivity|].
  split; [by apply identifyLoop_empty|].
  split; [exact Hrun|].
  rewrite Hrun. cbn [snd]. unfold extractCalls, resolveCalls.
  rewrite !List.filter_app, !length_app. simpl. lia.
Qed.

(** * Further properties *)

(** ** Counting requests *)

Lemma countOf_app P h1 h2 :
  countOf P (h1 ++ h2) = (countOf P h1 + countOf P h2)%nat.
Proof. unfold countOf. by rewrite List.filter_app, length_app. Qed.

Lemma countOf_single P ev : countOf P [ev] = if P ev then 1%nat else 0%nat.
Proof. unfold countOf. simpl. by destruct (P ev). Qed.

Lemma spends_ret P {A} (a : A) : spends P 0 (mret a : M A).
Proof. intros h. rewrite mret_run. simpl. lia. Qed.

Lemma spends_throw P {A} e : spends P 0 (throw e : M A).
Proof. intros h. unfold throw. simpl. lia. Qed.

Lemma spends_weaken P n n' {A} (m : M A) :
  (n <= n')%nat -> spends P n m -> spends P n' m.
Proof. intros Hle Hm h. specialize (Hm h). lia. Qed.

Lemma spends_bind P n1 n2 {A B} (m : M A) (f : A -> M B) :
  spends P n1 m -> (forall a, spends P n2 (f a)) ->
  spends P (n1 + n2) (m ≫= f).
Proof.
  intros Hm Hf h. rewrite bind_run. specialize (Hm h).
  destruct (m h) as [[e|a] h1]; simpl in *; [lia|].
  specialize (Hf a h1). lia.
Qed.

Lemma spends_request P {A} ev (reply : Log -> Error + A) :
  spends P (if P ev then 1 else 0) (request ev reply).
Proof.
  intros h. unfold request. simpl.
  rewrite countOf_app, countOf_single. lia.
Qed.

Lemma spends_command P ev reply :
  spends P (if P ev then 1 else 0) (command ev reply).
Proof.
  intros h. unfold command. simpl.
  rewrite countOf_app, countOf_single. lia.
Qed.

Lemma spends_forEachM P c {A S} (body : S -> A -> M S) xs :
  (forall s x, spends P c (body s x)) ->
  forall s, spends P (c * length xs) (forEachM body xs s).
Proof.
  intros Hbody. induction xs as [|x xs IH]; intros s h.
  - simpl. lia.
  - rewrite forEachM_cons. specialize (Hbody s x h).
    destruct (body s x h) as [[e|s1] h1]; simpl in *; [lia|].
    specialize (IH s1 h1). lia.
Qed.

Lemma forEachM_app {A S} (body : S -> A -> M S) xs ys s h :
  forEachM body (xs ++ ys) s h =
  match forEachM body xs s h with
  | (inr s', h') => forEachM body ys s' h'
  | (inl e, h') => (inl e, h')
  end.
Proof.
  revert s h. induction xs as [|x xs IH]; intros s h; [done|].
  rewrite <- app_comm_cons, !forEachM_cons.
  destruct (body s x h) as [[e|s1] h1]; [done|]. apply IH.
Qed.


(** ** Speaker discovery *)

(** X1.  [discoverSpeakers] never throws.  If the extraction of the
    discovery sample, the read of that sample or the inference call
    fails, it returns the empty hint list and makes no further request;
    if all three succeed, it returns one hint ["id: description"] per
    speaker, in the order of the reply. *)
Theorem discoverSpeakers_never_throws :
  forall env audioPath tempDir h,
    let samplePath := Js.pathJoin tempDir "discovery_sample.mp3" in
    let extraction := EvExtract audioPath 0 (600 - 0) samplePath in
    let run := discoverSpeakers env audioPath tempDir h in
    (exists hints, fst run = inr hints) /\
    (forall e,
        env_extract env h audioPath 0 (600 - 0) samplePath = Some e ->
        run = (inr [], h ++ [extraction])) /\
    (forall e,
        env_extract env h audioPath 0 (600 - 0) samplePath = None ->
        env_readFile env (h ++ [extraction]) samplePath = inl e ->
        run = (inr [], h ++ [extraction; EvReadFile samplePath])) /\
    (forall audio e,
        env_extract env h audioPath 0 (600 - 0) samplePath = None ->
        env_readFile env (h ++ [extraction]) samplePath = inr audio ->
        env_discover env (h ++ [extraction; EvReadFile samplePath]) audio =
          inl e ->
        run = (inr [],
               h ++ [extraction; EvReadFile samplePath; EvDiscover audio])) /\
    (forall audio speakers,
        env_extract env h audioPath 0 (600 - 0) samplePath = None ->
        env_readFile env (h ++ [extraction]) samplePath = inr audio ->
        env_discover env (h ++ [extraction; EvReadFile samplePath]) audio =
          inr speakers ->
        run = (inr (map hintOf speakers),
               h ++ [extraction; EvReadFile samplePath; EvDiscover audio])).
Proof.
  intros env audioPath tempDir h samplePath extraction run.
  assert (run =
          match env_extract env h audioPath 0 (600 - 0) samplePath with
          | Some _ => (inr [], h ++ [extraction])
          | None =>
              match env_readFile env (h ++ [extraction]) samplePath with
              | inl _ => (inr [], h ++ [extraction; EvReadFile samplePath])
              | inr audio =>
                  match env_discover env
                          (h ++ [extraction; EvReadFile samplePath]) audio with
                  | inl _ =>
                      (inr [], h ++ [extraction; EvReadFile samplePath;
                                     EvDiscover audio])
                  | inr speakers =>
                      (inr (map hintOf speakers),
                       h ++ [extraction; EvReadFile samplePath;
                             EvDiscover audio])
                  end
              end
          end) as Hrun.
  { unfold run, discoverSpeakers, tryCatch. rewrite !bind_run.
    unfold extractAudioSegment, command. fold samplePath. fold extraction.
    destruct (env_extract env h audioPath 0 (600 - 0) samplePath); [done|].
    rewrite bind_run. unfold readFile, request.
    rewrite <- !app_assoc. simpl.
    destruct (env_readFile env (h ++ [extraction]) samplePath) as [e|audio];
      [done|].
    rewrite bind_run. rewrite <- !app_assoc. simpl.
    by destruct (env_discover env _ audio). }
  split; [|split; [|split; [|split]]].
  - rewrite Hrun.
    destruct (env_extract env h audioPath 0 (600 - 0) samplePath);
      [by eexists|].
    destruct (env_readFile env _ samplePath); [by eexists|].
    destruct (env_discover env _ _); by eexists.
  - intros e He. by rewrite Hrun, He.
  - intros e He Hr. by rewrite Hrun, He, Hr.
  - intros audio e He Hr Hd. by rewrite Hrun, He, Hr, Hd.
  - intros audio speakers He Hr Hd. by rewrite Hrun, He, Hr, Hd.
Qed.

Lemma discoverSpeakers_never_throws_witness :
  discoverSpeakers (Hinted.env true) "talk.mp3" "tmp" [] =
    (inr [],
     [ EvExtract "talk.mp3" 0 (600 - 0) "tmp/discovery_sample.mp3" ])
  /\
  discoverSpeakers (Hinted.env false) "talk.mp3" "tmp" [] =
    (inr (map hintOf [ ("SPEAKER_01", "low voice") ]),
     [] ++ [ EvExtract "talk.mp3" 0 (600 - 0) "tmp/discovery_sample.mp3";
             EvReadFile "tmp/discovery_sample.mp3";
             EvDiscover "tmp/discovery_sample.mp3" ]).
Proof.
  split.
  - apply (proj1 (proj2 (discoverSpeakers_never_throws (Hinted.env true)
                           "talk.mp3" "tmp" [])) "ffmpeg: exit code 1").
    reflexivity.
  - apply (proj2 (proj2 (proj2 (proj2
             (discoverSpeakers_never_throws (Hinted.env false)
                "talk.mp3" "tmp" [])))) "tmp/discovery_sample.mp3"
             [ ("SPEAKER_01", "low voice") ]); reflexivity.
Defined.

(** ** Cleanup of the working directory *)

Lemma finally_run {A} (body : M A) (cleanup : M unit) h :
  finally body cleanup h =
  (fst (body h), snd (cleanup (snd (body h)))).
Proof.
  unfold finally. destruct (body h) as [r h1]. simpl.
  by destruct (cleanup h1).
Qed.

(** X2.  If [prompt.md] cannot be read, [processAudioFile] throws that
    error at once: no directory is created and nothing is removed.
    Otherwise, whatever the [try] block does (return or throw), the
    outcome of [processAudioFile] is the outcome of the [try] block, and
    the log is the log of the [try] block followed by exactly one [rm] of
    the working directory; the answer of that [rm] changes nothing. *)
Theorem processAudioFile_always_cleans_up :
  forall env host filePath customPrompt h,
    let promptPath := Js.pathJoin (host_cwd host) "prompt.md" in
    let h1 := h ++ [EvReadFile promptPath] in
    processAudioFile env host filePath customPrompt h =
    match env_readFile env h promptPath with
    | inl e => (inl e, h1)
    | inr promptTemplate =>
        let body := tryBlock env host filePath customPrompt promptTemplate h1 in
        (fst body, snd body ++ [EvRm (tempDirOf host)])
    end.
Proof.
  intros env host filePath customPrompt h promptPath h1.
  unfold processAudioFile. rewrite bind_run. unfold readFile at 1, request.
  fold promptPath. fold h1.
  destruct (env_readFile env h promptPath) as [e|promptTemplate]; [done|].
  rewrite finally_run. fold (tempDirOf host).
  unfold tryBlock, tempDirOf. cbv zeta. f_equal.
  unfold tryCatch, rm, command.
  match goal with |- context [env_rm env ?l ?d] =>
    destruct (env_rm env l d) end; reflexivity.
Qed.

(** ** A failed chunk aborts the sequential loop *)

Lemma combine_seq_app {A} (xs ys : list A) n :
  combine (seq n (length (xs ++ ys))) (xs ++ ys) =
  combine (seq n (length xs)) xs ++
  combine (seq (n + length xs) (length ys)) ys.
Proof.
  revert n. induction xs as [|x xs IH]; intros n; simpl.
  - by rewrite Nat.add_0_r.
  - rewrite IH. by rewrite Nat.add_succ_r.
Qed.

Lemma transcribeChunk_spends env chunkPath i ctx known cp pt :
  spends isTranscribe 3 (transcribeChunk env chunkPath i ctx known cp pt).
Proof.
  intros h. unfold transcribeChunk. rewrite bind_run.
  unfold readFile, request.
  assert (countOf isTranscribe (h ++ [EvReadFile chunkPath]) =
          countOf isTranscribe h) as Hsame
    by (rewrite countOf_app, countOf_single; simpl; lia).
  destruct (env_readFile env h chunkPath) as [e|audio]; [cbn [snd]; lia|].
  destruct (retryLoop env maxRetries (buildSystemPrompt pt ctx known cp)
              audio (h ++ [EvReadFile chunkPath])) as [r h'] eqn:Hrun.
  apply retryLoop_calls in Hrun. unfold transcriptionCalls in Hrun.
  fold (countOf isTranscribe h') in Hrun.
  fold (countOf isTranscribe (h ++ [EvReadFile chunkPath])) in Hrun.
  cbn [snd]. unfold maxRetries in Hrun. lia.
Qed.

(** X3.  If the chunks before position [length before] were transcribed
    and [transcribeChunk] throws for the next chunk (after its own
    retries), the whole loop throws that same error and stops there: the
    log is the log at the moment of the failure, so no later chunk is
    read or sent to the service. *)
Theorem failed_chunk_aborts_transcription :
  forall env before chunkPath after init cp pt h st1 h1 e h2,
    transcribeSequentially env before init cp pt h = (inr st1, h1) ->
    transcribeChunk env chunkPath (length before) (previousContext st1)
                    (knownSpeakers st1) cp pt h1 = (inl e, h2) ->
    transcribeSequentially env (before ++ chunkPath :: after) init cp pt h =
      (inl e, h2).
Proof.
  intros env before chunkPath after init cp pt h st1 h1 e h2 Hbefore Hfail.
  unfold transcribeSequentially, indexed in *.
  rewrite combine_seq_app, forEachM_app, Hbefore.
  cbn [length seq combine Nat.add].
  rewrite forEachM_cons. unfold transcribeStep at 1.
  by rewrite bind_run, Hfail.
Qed.

Lemma failed_chunk_aborts_transcription_witness :
  transcribeSequentially (Flaky.env 3) ([] ++ "a.mp3" :: [ "b.mp3" ]) []
                         None "template" [] =
  (inl "overloaded 2",
   afterAttempt Flaky.system "a.mp3" [EvReadFile "a.mp3"] 2).
Proof.
  apply (failed_chunk_aborts_transcription (Flaky.env 3) [] "a.mp3"
           [ "b.mp3" ] [] None "template" []
           {| allChunkResults := []; knownSpeakers := [];
              previousContext := "" |} []);
    reflexivity.
Defined.

(** ** Budgets of inference calls *)

(** X4.  Whatever happens, the sequential loop makes at most three
    transcription calls per chunk. *)
Theorem transcription_calls_bounded :
  forall env chunkPaths init cp pt h,
    (transcriptionCalls
       (snd (transcribeSequentially env chunkPaths init cp pt h)) <=
     transcriptionCalls h + 3 * length chunkPaths)%nat.
Proof.
  intros env chunkPaths init cp pt h.
  pose proof (spends_forEachM isTranscribe 3 (transcribeStep env cp pt)
                (indexed chunkPaths)) as Hloop.
  unfold transcribeSequentially.
  assert (length (indexed chunkPaths) = length chunkPaths) as Hlen.
  { unfold indexed. rewrite length_combine, length_seq. lia. }
  rewrite <- Hlen. apply Hloop.
  intros st [i path]. unfold transcribeStep.
  apply (spends_weaken _ (3 + 0)); [lia|].
  apply spends_bind; [apply transcribeChunk_spends|].
  intros tr. apply spends_ret.
Qed.

(** ** The representative utterance of an unknown code *)

Lemma bestItem_loop rest :
  forall before cur middle,
    (forall x, In x before -> (duration x < duration cur)%Q) ->
    (forall x, In x middle -> (duration x <= duration cur)%Q) ->
    exists before' after',
      before ++ cur :: middle ++ rest =
        before' ++
        fold_left
          (fun prev curr =>
             if negb (Qle_bool (duration curr) (duration prev))
             then curr else prev) rest cur :: after' /\
      (forall x, In x before' ->
                 (duration x <
                  duration (fold_left
                              (fun prev curr =>
                                 if negb (Qle_bool (duration curr)
                                                   (duration prev))
                                 then curr else prev) rest cur))%Q) /\
      (forall x, In x after' ->
                 (duration x <=
                  duration (fold_left
                              (fun prev curr =>
                                 if negb (Qle_bool (duration curr)
                                                   (duration prev))
                                 then curr else prev) rest cur))%Q).
Proof.
  induction rest as [|x rest IH]; intros before cur middle Hb Hm.
  - exists before, middle. rewrite app_nil_r. simpl. auto.
  - simpl. destruct (Qle_bool (duration x) (duration cur)) eqn:Hle; simpl.
    + apply Qle_bool_iff in Hle.
      destruct (IH before cur (middle ++ [x])) as (b' & a' & Heq & Hb' & Ha').
      * exact Hb.
      * intros y Hy. apply in_app_iff in Hy as [Hy|[<-|[]]]; auto.
      * exists b', a'. rewrite <- Heq, <- !app_assoc. simpl. auto.
    + assert (duration cur < duration x)%Q as Hlt.
      { apply Qnot_le_lt. intros Hc. apply Qle_bool_iff in Hc. congruence. }
      destruct (IH (before ++ cur :: middle) x []) as (b' & a' & Heq & Hb' & Ha').
      * intros y Hy. apply in_app_iff in Hy as [Hy|[<-|Hy]].
        -- specialize (Hb y Hy). lra.
        -- exact Hlt.
        -- specialize (Hm y Hy). lra.
      * intros y [].
      * exists b', a'. rewrite <- Heq, <- !app_assoc. simpl. auto.
Qed.

(** X5.  The reduction that selects the representative utterance fails
    only on an empty list; otherwise it returns an item of the list whose
    duration is the largest, and among items of equal largest duration the
    first one: everything before it is strictly shorter, everything after
    it is not longer. *)
Theorem bestItemOf_first_longest :
  forall items,
    (bestItemOf items = None <-> items = []) /\
    (forall best,
        bestItemOf items = Some best ->
        exists before after,
          items = before ++ best :: after /\
          (forall x, In x before -> (duration x < duration best)%Q) /\
          (forall x, In x after -> (duration x <= duration best)%Q)).
Proof.
  intros items. split.
  - destruct items; simpl; split; intros H; congruence.
  - intros best Hbest. destruct items as [|first rest]; [discriminate|].
    simpl in Hbest. injection Hbest as <-.
    destruct (bestItem_loop rest [] first []) as (b & a & Heq & Hb & Ha).
    + intros x [].
    + intros x [].
    + exists b, a. simpl in Heq. auto.
Qed.

Lemma bestItemOf_first_longest_witness :
  exists before after,
    [ mkItem "A" 0 2 "short"; mkItem "A" 5 15 "long";
      mkItem "A" 20 30 "as long" ] =
      before ++ mkItem "A" 5 15 "long" :: after /\
    (forall x, In x before -> (duration x < duration (mkItem "A" 5 15 "long"))%Q) /\
    (forall x, In x after -> (duration x <= duration (mkItem "A" 5 15 "long"))%Q).
Proof.
  apply (proj2 (bestItemOf_first_longest
                  [ mkItem "A" 0 2 "short"; mkItem "A" 5 15 "long";
                    mkItem "A" 20 30 "as long" ])).
  reflexivity.
Defined.

(** ** Extraction of a sample *)

Lemma extractSample_returns env orig tmp chunkItems chunkIdx acc sp h acc' h' :
  extractSample env orig tmp chunkItems chunkIdx acc sp h = (inr acc', h') ->
  exists best,
    bestItemOf (speakerItemsOf chunkItems sp) = Some best /\
    env_extract env h orig (Qmax 0 (startTime best - 0.2))
      ((endTime best + 0.2) - Qmax 0 (startTime best - 0.2))%Q
      (samplePathOf tmp sp chunkIdx) = None /\
    h' = h ++ [EvExtract orig (Qmax 0 (startTime best - 0.2))
                 ((endTime best + 0.2) - Qmax 0 (startTime best - 0.2))%Q
                 (samplePathOf tmp sp chunkIdx)] /\
    acc' = acc ++ [ {| ns_speaker := sp; ns_text := text best;
                       ns_path := samplePathOf tmp sp chunkIdx |} ].
Proof.
  unfold extractSample. fold (speakerItemsOf chunkItems sp).
  fold (samplePathOf tmp sp chunkIdx).
  destruct (bestItemOf (speakerItemsOf chunkItems sp)) as [best|];
    [|discriminate].
  intros Hrun. apply bind_returns in Hrun as ([] & h1 & Hex & Hret).
  rewrite mret_run in Hret. simplify_eq.
  unfold extractAudioSegment, command in Hex.
  destruct (env_extract env h orig _ _ _) eqn:He; [discriminate|].
  simplify_eq. by exists best.
Qed.

(** X6.  When the extraction of a sample returns, exactly one ffmpeg run
    was requested, on the original audio, for the representative utterance
    of that code, written to [sample_<code>_chunk<window>.mp3] in the
    samples directory.  It starts at [max(0, start - 0.2)] and the duration
    passed to ffmpeg is [(end + 0.2)] minus that start, as the code
    computes them.  The start is never negative, and when the utterance
    does not start before 0 the sample begins at or before the start of
    the utterance (at [start - 0.2] when there is room). *)
Theorem extractSample_pads_and_clamps :
  forall env orig tmp chunkItems chunkIdx acc sp h acc' h',
    extractSample env orig tmp chunkItems chunkIdx acc sp h = (inr acc', h') ->
    exists best,
      let from := Qmax 0 (startTime best - 0.2) in
      bestItemOf (speakerItemsOf chunkItems sp) = Some best /\
      h' = h ++ [EvExtract orig from ((endTime best + 0.2) - from)%Q
                   (samplePathOf tmp sp chunkIdx)] /\
      acc' = acc ++ [ {| ns_speaker := sp; ns_text := text best;
                         ns_path := samplePathOf tmp sp chunkIdx |} ] /\
      (0 <= from)%Q /\
      ((0 <= startTime best)%Q -> (from <= startTime best)%Q) /\
      ((0.2 <= startTime best)%Q -> (from == startTime best - 0.2)%Q).
Proof.
  intros env orig tmp chunkItems chunkIdx acc sp h acc' h' Hrun.
  apply extractSample_returns in Hrun as (best & Hbest & _ & -> & ->).
  exists best. cbv zeta.
  split; [exact Hbest|]. split; [done|]. split; [done|].
  pose proof (Q.max_spec 0 (startTime best - 0.2)) as Hspec.
  set (from := Qmax 0 (startTime best - 0.2)) in *.
  clearbody from.
  destruct Hspec as [[Hlt Hmax]|[Hle Hmax]];
    (split; [lra|]; split; intros Hroom; lra).
Qed.

Lemma extractSample_pads_and_clamps_witness :
  exists acc' h',
    extractSample Sample.env "talk.mp3" "tmp" Sample.chunk0 0 []
                  "SPEAKER_02" [] = (inr acc', h') /\
    h' = [ EvExtract "talk.mp3" (Qmax 0 (10 - 0.2))
             ((35 + 0.2) - Qmax 0 (10 - 0.2))%Q
             "tmp/samples/sample_SPEAKER_02_chunk0.mp3" ] /\
    exists best,
      let from := Qmax 0 (startTime best - 0.2) in
      bestItemOf (speakerItemsOf Sample.chunk0 "SPEAKER_02") = Some best /\
      h' = [] ++ [EvExtract "talk.mp3" from ((endTime best + 0.2) - from)%Q
                    (samplePathOf "tmp" "SPEAKER_02" 0)] /\
      acc' = [] ++ [ {| ns_speaker := "SPEAKER_02"; ns_text := text best;
                        ns_path := samplePathOf "tmp" "SPEAKER_02" 0 |} ] /\
      (0 <= from)%Q /\
      ((0 <= startTime best)%Q -> (from <= startTime best)%Q) /\
      ((0.2 <= startTime best)%Q -> (from == startTime best - 0.2)%Q).
Proof.
  eexists _, _. split; [vm_compute; reflexivity|].
  split; [vm_compute; reflexivity|].
  eapply (extractSample_pads_and_clamps Sample.env "talk.mp3" "tmp"
            Sample.chunk0 0 [] "SPEAKER_02" []).
  vm_compute; reflexivity.
Defined.

(** ** One processed window, step by step *)

Lemma setOf_loop_NoDup xs seen :
  NoDup seen ->
  NoDup (fold_left (fun seen x => if Js.includes seen x then seen
                                  else seen ++ [x]) xs seen).
Proof.
  revert seen. induction xs as [|x xs IH]; intros seen Hnd; simpl; [done|].
  apply IH. destruct (Js.includes seen x) eqn:Hinc; [done|].
  apply NoDup_app. split; [done|]. split; [|apply NoDup_singleton].
  intros y Hy Hyx. apply list_elem_of_singleton in Hyx as ->.
  apply list_elem_of_In, includes_In in Hy. congruence.
Qed.

Lemma setOf_NoDup xs : NoDup (Js.setOf xs).
Proof. apply setOf_loop_NoDup. constructor. Qed.

Lemma unknownSpeakersOf_NoDup (mapping : gmap string string) chunkItems :
  NoDup (unknownSpeakersOf mapping chunkItems).
Proof.
  unfold unknownSpeakersOf. apply NoDup_ListNoDup, List.NoDup_filter.
  apply NoDup_ListNoDup, setOf_NoDup.
Qed.

Lemma unknownSpeakersOf_In (mapping : gmap string string) chunkItems sp :
  In sp (unknownSpeakersOf mapping chunkItems) <->
  (exists item, In item chunkItems /\ speaker item = sp) /\
  Js.truthyValue (Js.lookup mapping sp) = false.
Proof.
  unfold unknownSpeakersOf. rewrite filter_In, setOf_In, in_map_iff.
  rewrite negb_true_iff. split.
  - intros [(item & Hsp & Hin) Hf]. split; [by exists item|done].
  - intros [(item & Hin & Hsp) Hf]. split; [by exists item|done].
Qed.

(** The loop over the unknown codes returns one sample per code, in the
    order of the codes. *)
Lemma extractSamples_speakers env orig tmp chunkItems chunkIdx codes :
  forall acc h acc' h',
    forEachM (extractSample env orig tmp chunkItems chunkIdx) codes acc h =
      (inr acc', h') ->
    map ns_speaker acc' = map ns_speaker acc ++ codes /\
    (forall s, In s acc' ->
               In s acc \/
               ns_path s = samplePathOf tmp (ns_speaker s) chunkIdx /\
               exists from len,
                 In (EvExtract orig from len (ns_path s)) h') /\
    exists added, h' = h ++ added.
Proof.
  induction codes as [|sp codes IH]; intros acc h acc' h' Hrun.
  - simpl in Hrun. rewrite mret_run in Hrun. simplify_eq.
    rewrite app_nil_r. split; [done|]. split; [auto|].
    exists []. by rewrite app_nil_r.
  - rewrite forEachM_cons in Hrun.
    destruct (extractSample env orig tmp chunkItems chunkIdx acc sp h)
      as [[e|acc1] h1] eqn:Hstep; [discriminate|].
    apply extractSample_returns in Hstep as (best & _ & _ & -> & ->).
    apply IH in Hrun as (Hsp & Hprov & added & ->).
    split; [|split].
    + rewrite Hsp, map_app, <- app_assoc. done.
    + intros s Hs. destruct (Hprov s Hs) as [Hin|Hnew]; [|by right].
      apply in_app_iff in Hin as [Hin|[<-|[]]]; [by left|]. right.
      split; [done|]. eexists _, _. simpl.
      apply in_app_iff. left. apply in_app_iff. right. by left.
    + eexists. by rewrite <- app_assoc.
Qed.

Lemma chunkItems_empty_no_unknown (mapping : gmap string string) chunkItems :
  (length chunkItems =? 0)%nat = true ->
  unknownSpeakersOf mapping chunkItems = [].
Proof.
  intros Hlen. apply Nat.eqb_eq in Hlen.
  destruct chunkItems; [done|discriminate].
Qed.

(** What a window that has unknown codes did when it returns. *)
Lemma identifyWindow_processed env acc orig tmp numChunks st chunkIdx h st' h' :
  identifyWindow env acc orig tmp numChunks st chunkIdx h = (inr st', h') ->
  unknownSpeakersOf (globalMapping st)
                    (chunkItemsOf (transcription acc) chunkIdx) <> [] ->
  exists newSamples h1 userContent h2 entries,
    forEachM (extractSample env orig tmp
                (chunkItemsOf (transcription acc) chunkIdx) chunkIdx)
             (unknownSpeakersOf (globalMapping st)
                (chunkItemsOf (transcription acc) chunkIdx)) [] h =
      (inr newSamples, h1) /\
    buildUserContent env chunkIdx numChunks (confirmedSpeakers st)
                     newSamples h1 = (inr userContent, h2) /\
    env_resolve env h2 userContent = inr entries /\
    h' = h2 ++ [EvResolve userContent] /\
    st' = fold_left (recordMapping newSamples) entries st.
Proof.
  unfold identifyWindow. intros Hrun Hunknown.
  destruct (length (chunkItemsOf _ _) =? 0)%nat eqn:Hlen.
  { apply (chunkItems_empty_no_unknown (globalMapping st)) in Hlen. done. }
  destruct (length (unknownSpeakersOf _ _) =? 0)%nat eqn:Hun.
  { apply Nat.eqb_eq in Hun.
    destruct (unknownSpeakersOf _ _); [done|discriminate]. }
  apply bind_returns in Hrun as (newSamples & h1 & Hex & Hrun).
  apply bind_returns in Hrun as (userContent & h2 & Hbuild & Hrun).
  apply bind_returns in Hrun as (entries & h3 & Hcall & Hret).
  rewrite mret_run in Hret. simplify_eq.
  unfold generateMapping, request in Hcall. simplify_eq.
  by exists newSamples, h1, userContent, h2, entries.
Qed.

Lemma extends_ret {A} (a : A) : extends (mret a : M A).
Proof.
  intros h a' h' Hrun. rewrite mret_run in Hrun. simplify_eq.
  exists []. by rewrite app_nil_r.
Qed.

Lemma extends_request {A} ev (reply : Log -> Error + A) :
  extends (request ev reply).
Proof. intros h a h' Hrun. unfold request in Hrun. simplify_eq. by eexists. Qed.

Lemma extends_bind {A B} (m : M A) (f : A -> M B) :
  extends m -> (forall a, extends (f a)) -> extends (m ≫= f).
Proof.
  intros Hm Hf h b h' Hrun.
  apply bind_returns in Hrun as (a & h1 & Hm1 & Hf1).
  apply Hm in Hm1 as [a1 ->]. apply Hf in Hf1 as [a2 ->].
  exists (a1 ++ a2). by rewrite app_assoc.
Qed.

Lemma extends_forEachM {A S} (body : S -> A -> M S) xs :
  (forall s x, extends (body s x)) -> forall s, extends (forEachM body xs s).
Proof.
  intros Hbody. induction xs as [|x xs IH]; intros s; simpl.
  - apply extends_ret.
  - apply extends_bind; [apply Hbody|]. intros s1. apply IH.
Qed.

Lemma buildUserContent_extends env chunkIdx numChunks confirmed newSamples :
  extends (buildUserContent env chunkIdx numChunks confirmed newSamples).
Proof.
  unfold buildUserContent. apply extends_bind.
  - destruct (0 <? JsMap.size confirmed)%nat; [|apply extends_ret].
    apply extends_forEachM. intros content [name info]. unfold addReference.
    apply extends_bind; [apply extends_request|intros; apply extends_ret].
  - intros content. apply extends_bind; [|intros; apply extends_ret].
    apply extends_forEachM. intros c sample. unfold addSample.
    apply extends_bind; [apply extends_request|intros; apply extends_ret].
Qed.

Lemma extractSamples_log env orig tmp chunkItems chunkIdx codes :
  forall acc h acc' h',
    forEachM (extractSample env orig tmp chunkItems chunkIdx) codes acc h =
      (inr acc', h') ->
    exists extractions,
      Forall2 (fun sp ev =>
                 exists from len,
                   ev = EvExtract orig from len (samplePathOf tmp sp chunkIdx))
              codes extractions /\
      h' = h ++ extractions /\
      map ns_path acc' =
        map ns_path acc ++
        map (fun sp => samplePathOf tmp sp chunkIdx) codes.
Proof.
  induction codes as [|sp codes IH]; intros acc h acc' h' Hrun.
  - simpl in Hrun. rewrite mret_run in Hrun. simplify_eq.
    exists []. rewrite !app_nil_r. by repeat split.
  - rewrite forEachM_cons in Hrun.
    destruct (extractSample env orig tmp chunkItems chunkIdx acc sp h)
      as [[e|acc1] h1] eqn:Hstep; [discriminate|].
    apply extractSample_returns in Hstep as (best & _ & _ & -> & ->).
    apply IH in Hrun as (extractions & Hall & -> & Hpaths).
    eexists (_ :: extractions). split; [|split].
    + constructor; [by eexists _, _|exact Hall].
    + by rewrite <- app_assoc.
    + rewrite Hpaths, map_app, <- app_assoc. done.
Qed.

Lemma addReferences_log env entries :
  forall content h content' h',
    forEachM (addReference env) entries content h = (inr content', h') ->
    h' = h ++ map (fun entry : string * SampleInfo =>
                     EvReadFile (si_path (snd entry))) entries.
Proof.
  induction entries as [|[name info] entries IH]; intros content h content' h'
    Hrun.
  - simpl in Hrun. rewrite mret_run in Hrun. simplify_eq.
    by rewrite app_nil_r.
  - rewrite forEachM_cons in Hrun.
    destruct (addReference env content (name, info) h) as [[e|c1] h1]
      eqn:Hstep; [discriminate|].
    unfold addReference in Hstep.
    apply bind_returns in Hstep as (data & h2 & Hread & Hret).
    unfold readFile, request in Hread. rewrite mret_run in Hret. simplify_eq.
    apply IH in Hrun as ->. by rewrite <- app_assoc.
Qed.

Lemma addSamples_log env samples :
  forall content h content' h',
    forEachM (addSample env) samples content h = (inr content', h') ->
    h' = h ++ map (fun sample => EvReadFile (ns_path sample)) samples.
Proof.
  induction samples as [|sample samples IH]; intros content h content' h' Hrun.
  - simpl in Hrun. rewrite mret_run in Hrun. simplify_eq.
    by rewrite app_nil_r.
  - rewrite forEachM_cons in Hrun.
    destruct (addSample env content sample h) as [[e|c1] h1] eqn:Hstep;
      [discriminate|].
    unfold addSample in Hstep.
    apply bind_returns in Hstep as (data & h2 & Hread & Hret).
    unfold readFile, request in Hread. rewrite mret_run in Hret. simplify_eq.
    apply IH in Hrun as ->. by rewrite <- app_assoc.
Qed.

(** Building the request reads the sample of every confirmed speaker, in
    the order of the table, then every new sample, in order. *)
Lemma buildUserContent_log env chunkIdx numChunks confirmed newSamples h
    content h' :
  buildUserContent env chunkIdx numChunks confirmed newSamples h =
    (inr content, h') ->
  h' = h ++
       map (fun entry : string * SampleInfo =>
              EvReadFile (si_path (snd entry))) (JsMap.entries confirmed) ++
       map (fun sample => EvReadFile (ns_path sample)) newSamples.
Proof.
  unfold buildUserContent. intros Hrun.
  apply bind_returns in Hrun as (c1 & h1 & Hrefs & Hrun).
  apply bind_returns in Hrun as (c2 & h2 & Hnew & Hret).
  rewrite mret_run in Hret. simplify_eq.
  apply addSamples_log in Hnew as ->.
  destruct (0 <? JsMap.size confirmed)%nat eqn:Hsize.
  - apply addReferences_log in Hrefs as ->. by rewrite <- app_assoc.
  - rewrite mret_run in Hrefs. simplify_eq.
    apply Nat.ltb_ge in Hsize. unfold JsMap.size, JsMap.entries in *.
    by destruct confirmed; [|simpl in Hsize; lia].
Qed.

(** X7.  A window that had unknown codes and returned added to the log, in
    this order and nothing else: one extraction from the original audio
    per unknown code, in the order of the codes (which are pairwise
    distinct), each written to the sample path of its code; one read of
    the sample of every already confirmed speaker, in the order of the
    table; one read of each new sample, in the order of the codes; and
    one mapping call, the last event of the log. *)
Theorem processed_window_requests :
  forall env acc orig tmp numChunks st chunkIdx h st' h',
    let unknown :=
      unknownSpeakersOf (globalMapping st)
                        (chunkItemsOf (transcription acc) chunkIdx) in
    identifyWindow env acc orig tmp numChunks st chunkIdx h = (inr st', h') ->
    unknown <> [] ->
    NoDup unknown /\
    exists extractions userContent,
      Forall2 (fun sp ev =>
                 exists from len,
                   ev = EvExtract orig from len (samplePathOf tmp sp chunkIdx))
              unknown extractions /\
      h' = h ++ extractions ++
           map (fun entry : string * SampleInfo =>
                  EvReadFile (si_path (snd entry)))
               (JsMap.entries (confirmedSpeakers st)) ++
           map (fun sp => EvReadFile (samplePathOf tmp sp chunkIdx)) unknown ++
           [EvResolve userContent].
Proof.
  intros env acc orig tmp numChunks st chunkIdx h st' h' unknown Hrun Hne.
  apply identifyWindow_processed in Hrun
    as (newSamples & h1 & content & h2 & entries & Hex & Hbuild & _ & -> & _);
    [|exact Hne].
  fold unknown in Hex.
  apply extractSamples_log in Hex as (extractions & Hall & -> & Hpaths).
  apply buildUserContent_log in Hbuild as ->.
  split; [apply unknownSpeakersOf_NoDup|].
  exists extractions, content. split; [exact Hall|].
  simpl in Hpaths.
  rewrite <- (map_map ns_path EvReadFile newSamples), Hpaths, map_map.
  by rewrite <- !app_assoc.
Qed.

Lemma processed_window_requests_witness :
  let h' := snd TwoWindows.run1 in
  identifyWindow TwoWindows.env TwoWindows.acc "talk.mp3" "tmp" 2
                 initialResolveState 0 [] = (inr TwoWindows.st1, h') /\
  unknownSpeakersOf (globalMapping initialResolveState)
                    (chunkItemsOf (transcription TwoWindows.acc) 0) =
    [ "SPEAKER_01"; "SPEAKER_02" ] /\
  exists extractions userContent,
    Forall2 (fun sp ev =>
               exists from len,
                 ev = EvExtract "talk.mp3" from len (samplePathOf "tmp" sp 0))
            [ "SPEAKER_01"; "SPEAKER_02" ] extractions /\
    h' = [] ++ extractions ++ [] ++
         [ EvReadFile "tmp/samples/sample_SPEAKER_01_chunk0.mp3";
           EvReadFile "tmp/samples/sample_SPEAKER_02_chunk0.mp3" ] ++
         [EvResolve userContent].
Proof.
  intros h'.
  assert (identifyWindow TwoWindows.env TwoWindows.acc "talk.mp3" "tmp" 2
            initialResolveState 0 [] = (inr TwoWindows.st1, h')) as Hrun
    by (vm_compute; reflexivity).
  split; [exact Hrun|]. split; [vm_compute; reflexivity|].
  destruct (processed_window_requests TwoWindows.env TwoWindows.acc
              "talk.mp3" "tmp" 2 initialResolveState 0 [] TwoWindows.st1 h'
              Hrun) as (_ & extractions & content & Hall & Hlog).
  { vm_compute. discriminate. }
  exists extractions, content. split; [exact Hall|exact Hlog].
Defined.

(** ** At most one mapping call per window *)

Lemma extractSample_spends_resolve env orig tmp chunkItems chunkIdx acc sp :
  spends isResolve 0 (extractSample env orig tmp chunkItems chunkIdx acc sp).
Proof.
  unfold extractSample. destruct (bestItemOf _); [|apply spends_throw].
  apply (spends_bind isResolve 0 0); [|intros; apply spends_ret].
  unfold extractAudioSegment.
  apply (spends_command isResolve (EvExtract _ _ _ _)).
Qed.

Lemma buildUserContent_spends_resolve env chunkIdx numChunks confirmed
    newSamples :
  spends isResolve 0
         (buildUserContent env chunkIdx numChunks confirmed newSamples).
Proof.
  unfold buildUserContent. apply (spends_bind isResolve 0 0).
  - destruct (0 <? JsMap.size confirmed)%nat; [|apply spends_ret].
    apply (spends_forEachM isResolve 0). intros content [name info].
    unfold addReference. apply (spends_bind isResolve 0 0).
    + apply (spends_request isResolve (EvReadFile _)).
    + intros. apply spends_ret.
  - intros content. apply (spends_bind isResolve 0 0).
    + apply (spends_forEachM isResolve 0). intros c sample.
      unfold addSample. apply (spends_bind isResolve 0 0).
      * apply (spends_request isResolve (EvReadFile _)).
      * intros. apply spends_ret.
    + intros. apply spends_ret.
Qed.

Lemma identifyWindow_spends_resolve env acc orig tmp numChunks st chunkIdx :
  spends isResolve 1 (identifyWindow env acc orig tmp numChunks st chunkIdx).
Proof.
  unfold identifyWindow.
  destruct (length (chunkItemsOf _ _) =? 0)%nat;
    [apply (spends_weaken _ 0); [lia|apply spends_ret]|].
  destruct (length (unknownSpeakersOf _ _) =? 0)%nat;
    [apply (spends_weaken _ 0); [lia|apply spends_ret]|].
  apply (spends_bind isResolve 0 1).
  { apply (spends_forEachM isResolve 0). intros.
    apply extractSample_spends_resolve. }
  intros newSamples. apply (spends_bind isResolve 0 1).
  { apply buildUserContent_spends_resolve. }
  intros content. apply (spends_bind isResolve 1 0).
  - unfold generateMapping. apply (spends_request isResolve (EvResolve _)).
  - intros. apply spends_ret.
Qed.

(** X8.  Whatever happens (return or throw), [identifySpeakersWithAudio]
    makes at most one mapping call per five-minute window, that is at most
    [ceil(maxEndTime / 300)] calls. *)
Theorem mapping_calls_bounded_by_windows :
  forall env acc orig tmp h,
    (resolveCalls (snd (identifySpeakersWithAudio env acc orig tmp h)) <=
     resolveCalls h + Z.to_nat (numChunksOf (transcription acc)))%nat.
Proof.
  intros env acc orig tmp h.
  assert (spends isResolve (Z.to_nat (numChunksOf (transcription acc)))
            (identifySpeakersWithAudio env acc orig tmp)) as Hspends.
  { unfold identifySpeakersWithAudio.
    apply (spends_weaken _ (Z.to_nat (numChunksOf (transcription acc)) + 0));
      [lia|].
    apply spends_bind; [|intros; apply spends_ret].
    assert (spends isResolve (Z.to_nat (numChunksOf (transcription acc)))
              (_ ← mkdir env (samplesDir tmp);
               identifyWindows env acc orig tmp
                 (numChunksOf (transcription acc)) 0
                 (Z.to_nat (numChunksOf (transcription acc)))
                 initialResolveState)) as Hwindows.
    { apply (spends_bind isResolve 0 _).
      - unfold mkdir. apply (spends_command isResolve (EvMkdir _)).
      - intros _. unfold identifyWindows.
        pose proof (spends_forEachM isResolve 1
                      (identifyWindow env acc orig tmp
                         (numChunksOf (transcription acc)))
                      (seq 0 (Z.to_nat (numChunksOf (transcription acc)))))
          as Hloop.
        rewrite length_seq, Nat.mul_1_l in Hloop. apply Hloop.
        intros. apply identifyWindow_spends_resolve. }
    intros h0. rewrite identifyLoop_run.
    destruct (env_spreadLimit env <? _)%N; [cbn [snd]; lia|apply Hwindows]. }
  exact (Hspends h).
Qed.

(** ** What a window does with the reply *)

Lemma recordMappings_globalMapping newSamples entries st :
  globalMapping (fold_left (recordMapping newSamples) entries st) =
  fold_left (fun (m : gmap string string) (e : string * string) =>
               Js.assign m (fst e) (snd e))
            entries (globalMapping st).
Proof.
  revert st. induction entries as [|[original mapped] entries IH];
    intros st; simpl; [done|].
  rewrite IH. f_equal. unfold recordMapping.
  destruct (negb _); [destruct (List.find _ _)|]; done.
Qed.

Lemma assign_lookup_ne (m : gmap string string) key v code :
  key <> code -> Js.assign m key v !! code = m !! code.
Proof.
  intros Hne. unfold Js.assign.
  destruct (m !! key); [by apply lookup_insert_ne|].
  destruct (String.eqb key "__proto__"); [done|by apply lookup_insert_ne].
Qed.

Lemma assign_lookup_eq (m : gmap string string) key v :
  key <> "__proto__" \/ is_Some (m !! key) ->
  Js.assign m key v !! key = Some v.
Proof.
  intros Hwritten. unfold Js.assign.
  destruct (m !! key) as [old|] eqn:Hold; [apply lookup_insert_eq|].
  destruct (String.eqb_spec key "__proto__") as [->|Hne];
    [|apply lookup_insert_eq].
  destruct Hwritten as [Hne|[old Hsome]]; [done|discriminate].
Qed.

Lemma assignAll_not_in entries (m : gmap string string) code :
  ~ In code (map fst entries) ->
  fold_left (fun (m : gmap string string) (e : string * string) =>
               Js.assign m (fst e) (snd e)) entries m !! code = m !! code.
Proof.
  revert m. induction entries as [|[k v] entries IH]; intros m Hnot; simpl;
    [done|].
  rewrite IH by (intros Hin; apply Hnot; by right).
  apply assign_lookup_ne. intros ->. apply Hnot. by left.
Qed.

Lemma assignAll_in entries (m : gmap string string) code name :
  List.NoDup (map fst entries) ->
  In (code, name) entries ->
  code <> "__proto__" \/ is_Some (m !! code) ->
  fold_left (fun (m : gmap string string) (e : string * string) =>
               Js.assign m (fst e) (snd e)) entries m !! code = Some name.
Proof.
  revert m. induction entries as [|[k v] entries IH]; intros m Hnd Hin Hw;
    [destruct Hin|].
  simpl in *. apply List.NoDup_cons_iff in Hnd as [Hk Hnd].
  destruct Hin as [Heq|Hin].
  - simplify_eq. rewrite assignAll_not_in by done. by apply assign_lookup_eq.
  - apply IH; [done|done|].
    destruct Hw as [Hne|Hsome]; [by left|right].
    rewrite assign_lookup_ne; [done|].
    intros ->. apply Hk, in_map_iff. by exists (code, name).
Qed.

(** No assignment creates an own [__proto__]. *)
Lemma assignAll_proto entries (m : gmap string string) :
  m !! "__proto__" = None ->
  fold_left (fun (m : gmap string string) (e : string * string) =>
               Js.assign m (fst e) (snd e)) entries m !! "__proto__" = None.
Proof.
  revert m. induction entries as [|[k v] entries IH]; intros m Hnone; simpl;
    [done|].
  apply IH. destruct (String.eqb_spec k "__proto__") as [->|Hne].
  - unfold Js.assign. by rewrite Hnone.
  - by rewrite assign_lookup_ne.
Qed.

Lemma recordMappings_confirmed_origin newSamples entries :
  forall st name info,
    JsMap.get (confirmedSpeakers
                 (fold_left (recordMapping newSamples) entries st)) name =
      Some info ->
    JsMap.get (confirmedSpeakers st) name = Some info \/
    exists code sample,
      In (code, name) entries /\ In sample newSamples /\
      ns_speaker sample = code /\
      info = {| si_path := ns_path sample; si_text := ns_text sample |}.
Proof.
  induction entries as [|[original mapped] entries IH]; intros st name info;
    simpl; [by left|].
  intros Hget. apply IH in Hget as [Hget|(code & sample & Hin & Hrest)].
  - unfold recordMapping in Hget.
    destruct (JsMap.has (confirmedSpeakers st) mapped) eqn:Hhas; simpl in Hget;
      [by left|].
    destruct (List.find _ newSamples) as [sample|] eqn:Hfind; simpl in Hget;
      [|by left].
    destruct (String.eqb_spec mapped name) as [->|Hne].
    + rewrite JsMap_get_set_eq in Hget. simplify_eq.
      apply List.find_some in Hfind as [Hin Heq].
      apply String.eqb_eq in Heq. right. exists original, sample.
      split; [by left|]. done.
    + rewrite JsMap_get_set_ne in Hget by done. by left.
  - right. exists code, sample. split; [by right|done].
Qed.

(** A reply that names [__proto__] leaves the mapping as it was: the
    assignment runs the inherited setter, which ignores a string, and a
    later read of that key still finds the prototype. *)
Lemma proto_key_is_not_assigned :
  let st := recordMapping [] initialResolveState ("__proto__", "Alice") in
  globalMapping st !! "__proto__" = None /\
  Js.lookup (globalMapping st) "__proto__" = Some (Js.Member "__proto__").
Proof. by vm_compute. Qed.

(** X9.  When a window with unknown codes returns, the reply of its one
    mapping call has been merged into the global mapping: a code the reply
    does not mention keeps its previous mapping (or absence of one), and,
    the keys of the reply being distinct, a code the reply mentions is
    mapped to the name the reply gives, whether or not it was already
    mapped.  The one key an assignment cannot create is [__proto__]: it
    is overwritten where the mapping already has it and stays absent
    otherwise.  A name that gains a confirmed sample in this window is a
    name the reply gave to one of the window's unknown codes, and the
    sample is the one extracted for that code. *)
Theorem window_merges_reply :
  forall env acc orig tmp numChunks st chunkIdx h st' h',
    let unknown :=
      unknownSpeakersOf (globalMapping st)
                        (chunkItemsOf (transcription acc) chunkIdx) in
    identifyWindow env acc orig tmp numChunks st chunkIdx h = (inr st', h') ->
    unknown <> [] ->
    exists h2 userContent entries,
      env_resolve env h2 userContent = inr entries /\
      h' = h2 ++ [EvResolve userContent] /\
      (forall code, ~ In code (map fst entries) ->
                    globalMapping st' !! code = globalMapping st !! code) /\
      (List.NoDup (map fst entries) ->
       forall code name,
         In (code, name) entries ->
         code <> "__proto__" \/ is_Some (globalMapping st !! code) ->
         globalMapping st' !! code = Some name) /\
      (globalMapping st !! "__proto__" = None ->
       globalMapping st' !! "__proto__" = None) /\
      (forall name info,
          JsMap.get (confirmedSpeakers st') name = Some info ->
          JsMap.get (confirmedSpeakers st) name = Some info \/
          exists code,
            In (code, name) entries /\ In code unknown /\
            si_path info = samplePathOf tmp code chunkIdx).
Proof.
  intros env acc orig tmp numChunks st chunkIdx h st' h' unknown Hrun Hne.
  apply identifyWindow_processed in Hrun
    as (newSamples & h1 & content & h2 & entries & Hex & _ & Hcall & -> & ->);
    [|exact Hne].
  fold unknown in Hex.
  apply extractSamples_speakers in Hex as (Hsp & Hprov & _). simpl in Hsp.
  exists h2, content, entries. split; [exact Hcall|]. split; [done|].
  rewrite recordMappings_globalMapping.
  split; [intros; by apply assignAll_not_in|].
  split; [intros; by apply assignAll_in|].
  split; [intros; by apply assignAll_proto|].
  intros name info Hget.
  apply recordMappings_confirmed_origin in Hget
    as [Hget|(code & sample & Hin & Hs & <- & ->)]; [by left|].
  right. exists (ns_speaker sample). split; [exact Hin|]. split.
  - rewrite <- Hsp. by apply in_map.
  - destruct (Hprov sample Hs) as [[]|[Hpath _]]. exact Hpath.
Qed.

Lemma window_merges_reply_witness :
  identifyWindow TwoWindows.env TwoWindows.acc "talk.mp3" "tmp" 2
                 TwoWindows.st1 1 (snd TwoWindows.run1) =
    (inr TwoWindows.st2, snd TwoWindows.run2) /\
  exists h2 userContent entries,
    env_resolve TwoWindows.env h2 userContent = inr entries /\
    snd TwoWindows.run2 = h2 ++ [EvResolve userContent] /\
    (forall code, ~ In code (map fst entries) ->
                  globalMapping TwoWindows.st2 !! code =
                  globalMapping TwoWindows.st1 !! code) /\
    (List.NoDup (map fst entries) ->
     forall code name,
       In (code, name) entries ->
       code <> "__proto__" \/
       is_Some (globalMapping TwoWindows.st1 !! code) ->
       globalMapping TwoWindows.st2 !! code = Some name) /\
    (globalMapping TwoWindows.st1 !! "__proto__" = None ->
     globalMapping TwoWindows.st2 !! "__proto__" = None) /\
    (forall name info,
        JsMap.get (confirmedSpeakers TwoWindows.st2) name = Some info ->
        JsMap.get (confirmedSpeakers TwoWindows.st1) name = Some info \/
        exists code,
          In (code, name) entries /\
          In code (unknownSpeakersOf (globalMapping TwoWindows.st1)
                     (chunkItemsOf (transcription TwoWindows.acc) 1)) /\
          si_path info = samplePathOf "tmp" code 1).
Proof.
  assert (identifyWindow TwoWindows.env TwoWindows.acc "talk.mp3" "tmp" 2
            TwoWindows.st1 1 (snd TwoWindows.run1) =
          (inr TwoWindows.st2, snd TwoWindows.run2)) as Hrun
    by (vm_compute; reflexivity).
  split; [exact Hrun|].
  apply (window_merges_reply TwoWindows.env TwoWindows.acc "talk.mp3" "tmp" 2
           TwoWindows.st1 1 (snd TwoWindows.run1) TwoWindows.st2
           (snd TwoWindows.run2) Hrun).
  vm_compute. discriminate.
Defined.

(** ** Provenance of the confirmed samples *)

Lemma identifyWindow_skipped env acc orig tmp numChunks st chunkIdx h :
  unknownSpeakersOf (globalMapping st)
                    (chunkItemsOf (transcription acc) chunkIdx) = [] ->
  identifyWindow env acc orig tmp numChunks st chunkIdx h = (inr st, h).
Proof.
  intros Hnone. unfold identifyWindow.
  destruct (length (chunkItemsOf _ _) =? 0)%nat; [done|].
  by rewrite Hnone.
Qed.

Lemma identifyWindow_samplesExtracted env acc orig tmp numChunks st chunkIdx
    h st' h' :
  samplesExtracted orig tmp st h ->
  identifyWindow env acc orig tmp numChunks st chunkIdx h = (inr st', h') ->
  samplesExtracted orig tmp st' h'.
Proof.
  intros Hinv Hrun.
  destruct (unknownSpeakersOf (globalMapping st)
              (chunkItemsOf (transcription acc) chunkIdx)) as [|sp0 sps]
    eqn:Hunknown.
  { rewrite identifyWindow_skipped in Hrun by done. by simplify_eq. }
  apply identifyWindow_processed in Hrun
    as (newSamples & h1 & content & h2 & entries & Hex & Hbuild & _ & -> & ->);
    [|by rewrite Hunknown].
  apply extractSamples_speakers in Hex as (_ & Hprov & added1 & ->).
  apply buildUserContent_extends in Hbuild as [added2 ->].
  intros name info Hget.
  apply recordMappings_confirmed_origin in Hget
    as [Hget|(code & sample & Hin & Hs & <- & ->)].
  - destruct (Hinv name info Hget) as (code & idx & from & len & Hp & Hev).
    exists code, idx, from, len. split; [done|].
    rewrite <- !app_assoc. apply in_app_iff. by left.
  - destruct (Hprov sample Hs) as [[]|[Hpath (from & len & Hev)]].
    exists (ns_speaker sample), chunkIdx, from, len. simpl.
    split; [done|]. apply in_app_iff. left. apply in_app_iff. by left.
Qed.

(** X10.  When the window loop returns, every confirmed sample is a file
    [sample_<code>_chunk<window>.mp3] of this run's samples directory that
    an ffmpeg extraction from the original audio, recorded earlier in the
    log, wrote: the references sent to the service never point to a file
    the run did not produce. *)
Theorem confirmed_samples_were_extracted :
  forall env acc orig tmp h st h' name info,
    identifyLoop env acc orig tmp h = (inr st, h') ->
    JsMap.get (confirmedSpeakers st) name = Some info ->
    exists code chunkIdx from len,
      si_path info = samplePathOf tmp code chunkIdx /\
      In (EvExtract orig from len (si_path info)) h'.
Proof.
  intros env acc orig tmp h st h' name info Hrun.
  apply identifyLoop_returns in Hrun as (_ & h1 & _ & Hrun).
  unfold identifyWindows in Hrun.
  assert (samplesExtracted orig tmp st h') as Hinv.
  { eapply (forEachM_invariant
              (identifyWindow env acc orig tmp
                 (numChunksOf (transcription acc)))
              (samplesExtracted orig tmp)); [| |exact Hrun].
    - intros s idx ha s' hb Hs Hstep.
      eapply identifyWindow_samplesExtracted; eauto.
    - intros n i Hget. discriminate. }
  apply Hinv.
Qed.

Lemma confirmed_samples_were_extracted_witness :
  exists st h',
    identifyLoop TwoWindows.env TwoWindows.acc "talk.mp3" "tmp" [] =
      (inr st, h') /\
    JsMap.get (confirmedSpeakers st) "Bob" = Some TwoWindows.bobSample /\
    exists code chunkIdx from len,
      si_path TwoWindows.bobSample = samplePathOf "tmp" code chunkIdx /\
      In (EvExtract "talk.mp3" from len (si_path TwoWindows.bobSample)) h'.
Proof.
  exists TwoWindows.st2,
    (snd (identifyLoop TwoWindows.env TwoWindows.acc "talk.mp3" "tmp" [])).
  assert (identifyLoop TwoWindows.env TwoWindows.acc "talk.mp3" "tmp" [] =
          (inr TwoWindows.st2,
           snd (identifyLoop TwoWindows.env TwoWindows.acc "talk.mp3" "tmp"
                  []))) as Hrun by (vm_compute; reflexivity).
  split; [exact Hrun|]. split; [reflexivity|].
  exact (confirmed_samples_were_extracted TwoWindows.env TwoWindows.acc
           "talk.mp3" "tmp" [] TwoWindows.st2 _ "Bob" TwoWindows.bobSample
           Hrun eq_refl).
Defined.

(** ** Runs in which no collaborator fails *)


Lemma transcribeChunk_first_attempt env chunkPath i ctx known cp pt h
    audio items :
  env_readFile env h chunkPath = inr audio ->
  env_transcribe env (h ++ [EvReadFile chunkPath])
                 (buildSystemPrompt pt ctx known cp) audio = inr items ->
  transcribeChunk env chunkPath i ctx known cp pt h =
    (inr items,
     h ++ [EvReadFile chunkPath;
           EvTranscribe (buildSystemPrompt pt ctx known cp) audio]).
Proof.
  intros Hread Hok. unfold transcribeChunk. rewrite bind_run.
  unfold readFile, request. rewrite Hread. unfold maxRetries.
  rewrite retryLoop_step, Hok. by rewrite <- app_assoc.
Qed.

Lemma transcribeStep_reliable env cp pt st ic h :
  Reliable env ->
  exists st' audio system,
    transcribeStep env cp pt st ic h =
      (inr st', h ++ [EvReadFile (snd ic); EvTranscribe system audio]).
Proof.
  intros Hrel. destruct ic as [i path]. unfold transcribeStep.
  destruct (reliable_readFile env Hrel h path) as [audio Hread].
  destruct (reliable_transcribe env Hrel (h ++ [EvReadFile path])
              (buildSystemPrompt pt (previousContext st) (knownSpeakers st) cp)
              audio) as [items Hok].
  rewrite bind_run,
    (transcribeChunk_first_attempt _ _ _ _ _ _ _ _ _ _ Hread Hok).
  rewrite mret_run. by eexists _, _, _.
Qed.

Lemma transcribeLoop_reliable env cp pt :
  Reliable env ->
  forall xs st h,
    exists st' h',
      forEachM (transcribeStep env cp pt) xs st h = (inr st', h') /\
      countOf isTranscribe h' = (countOf isTranscribe h + length xs)%nat /\
      countOf isDelay h' = countOf isDelay h.
Proof.
  intros Hrel. induction xs as [|x xs IH]; intros st h.
  - exists st, h. rewrite Nat.add_0_r. by rewrite <- mret_run.
  - rewrite forEachM_cons.
    destruct (transcribeStep_reliable env cp pt st x h Hrel)
      as (st1 & audio & system & ->).
    destruct (IH st1 (h ++ [EvReadFile (snd x); EvTranscribe system audio]))
      as (st' & h' & -> & Hc & Hd).
    exists st', h'. split; [done|].
    rewrite !countOf_app in Hc, Hd. unfold countOf in Hc at 3, Hd at 3.
    simpl in *. lia.
Qed.

(** X11.  When reading the chunk files and the transcription service never
    fail, the sequential loop returns, with one chunk result per chunk
    path, after exactly one transcription call per chunk and without any
    wait: retries and their 2000 ms delays occur only after a failure. *)
Theorem reliable_transcription_needs_no_retry :
  forall env chunkPaths init cp pt h,
    Reliable env ->
    exists st h',
      transcribeSequentially env chunkPaths init cp pt h = (inr st, h') /\
      length (allChunkResults st) = length chunkPaths /\
      transcriptionCalls h' = (transcriptionCalls h + length chunkPaths)%nat /\
      countOf isDelay h' = countOf isDelay h.
Proof.
  intros env chunkPaths init cp pt h Hrel. unfold transcribeSequentially.
  destruct (transcribeLoop_reliable env cp pt Hrel (indexed chunkPaths)
              {| allChunkResults := []; knownSpeakers := init;
                 previousContext := "" |} h) as (st & h' & Hrun & Hc & Hd).
  assert (length (indexed chunkPaths) = length chunkPaths) as Hlen.
  { unfold indexed. rewrite length_combine, length_seq. lia. }
  exists st, h'. split; [exact Hrun|]. split.
  - pose proof (transcribeSequentially_indices env chunkPaths init cp pt h
                  st h' Hrun) as Hidx.
    rewrite <- (length_map index), Hidx. apply length_seq.
  - unfold transcriptionCalls. fold (countOf isTranscribe h').
    fold (countOf isTranscribe h). rewrite Hc, Hlen. done.
Qed.

Lemma sample_env_reliable : Reliable Sample.env.
Proof.
  constructor; intros; simpl; try done; try (by eexists).
  destruct (String.eqb audio "chunk_000.mp3"); by eexists.
Qed.

Lemma reliable_transcription_needs_no_retry_witness :
  exists st h',
    transcribeSequentially Sample.env Sample.paths [] None "" [] =
      (inr st, h') /\
    length (allChunkResults st) = length Sample.paths /\
    transcriptionCalls h' = (transcriptionCalls [] + length Sample.paths)%nat /\
    countOf isDelay h' = countOf isDelay [].
Proof.
  apply (reliable_transcription_needs_no_retry Sample.env Sample.paths []
           None "" []).
  apply sample_env_reliable.
Defined.



Lemma retryLoop_reply env retries system audio :
  forall h tr h',
    retryLoop env retries system audio h = (inr tr, h') ->
    exists pre,
      h' = h ++ pre ++ [EvTranscribe system audio] /\
      env_transcribe env (h ++ pre) system audio = inr tr.
Proof.
  induction retries as [|n IH]; intros h tr h' Hrun; [discriminate|].
  rewrite retryLoop_step in Hrun.
  destruct (env_transcribe env h system audio) as [e|v] eqn:Hcall.
  - destruct (n =? 0)%nat; [discriminate|].
    apply IH in Hrun as (pre & -> & Hlast).
    exists ([EvTranscribe system audio; EvDelay 2000] ++ pre).
    rewrite <- !app_assoc in *. by split.
  - simplify_eq. exists []. rewrite app_nil_r. by split.
Qed.

(** What [transcribeChunk] returns is the reply to the last inference call
    it made. *)
Lemma transcribeChunk_reply env p i ctx known cp pt h tr h' :
  transcribeChunk env p i ctx known cp pt h = (inr tr, h') ->
  exists audio pre,
    h' = h ++ EvReadFile p :: pre ++
         [EvTranscribe (buildSystemPrompt pt ctx known cp) audio] /\
    env_transcribe env (h ++ EvReadFile p :: pre)
                   (buildSystemPrompt pt ctx known cp) audio = inr tr.
Proof.
  unfold transcribeChunk. intros Hrun.
  apply bind_returns in Hrun as (audio & h1 & Hread & Hloop).
  unfold readFile, request in Hread. simplify_eq.
  apply retryLoop_reply in Hloop as (pre & -> & Hcall).
  exists audio, pre. rewrite <- !app_assoc in *. by split.
Qed.






(** ** The registry over the whole transcription loop *)

Lemma registerSpeaker_NoDup known s :
  NoDup known -> NoDup (registerSpeaker known s).
Proof.
  intros Hnd. unfold registerSpeaker, Js.some, Js.startsWith.
  destruct (existsb _ known) eqn:Hex; [done|].
  apply NoDup_app. split; [done|]. split; [|apply NoDup_singleton].
  intros ks Hks Heq. apply list_elem_of_singleton in Heq as ->.
  apply list_elem_of_In in Hks.
  assert (existsb (fun ks => String.prefix s ks) known = true) as Hyes.
  { apply existsb_exists. exists s. split; [done|apply prefix_refl]. }
  congruence.
Qed.

Lemma registerLoop_NoDup codes known :
  NoDup known -> NoDup (fold_left registerSpeaker codes known).
Proof.
  revert known. induction codes as [|s codes IH]; intros known Hnd; simpl;
    [done|]. by apply IH, registerSpeaker_NoDup.
Qed.

Lemma transcribeStep_returns env cp pt st ic h st' h' :
  transcribeStep env cp pt st ic h = (inr st', h') ->
  exists chunkTranscription,
    st' = {| allChunkResults :=
               allChunkResults st ++
               [mkChunkResult (fst ic) chunkTranscription];
             knownSpeakers :=
               updateKnownSpeakers (knownSpeakers st) chunkTranscription;
             previousContext :=
               contextOf (allChunkResults st ++
                          [mkChunkResult (fst ic) chunkTranscription]) |}.
Proof.
  destruct ic as [i path]. unfold transcribeStep. intros Hrun.
  apply bind_returns in Hrun as (tr & h1 & _ & Hret).
  rewrite mret_run in Hret. simplify_eq. by exists tr.
Qed.

Lemma transcribeStep_registryCovers env cp pt init st ic h st' h' :
  registryCovers init st ->
  transcribeStep env cp pt st ic h = (inr st', h') ->
  registryCovers init st'.
Proof.
  intros ((added & Hknown & Hadded) & Hcov & Hnd) Hrun.
  apply transcribeStep_returns in Hrun as (tr & ->).
  destruct (registerLoop_spec (Js.setOf (map speaker tr)) (knownSpeakers st))
    as (new & Hnew & Hnew_in & Hnew_cov).
  unfold registryCovers, updateKnownSpeakers, currentSpeakersOf. simpl.
  split; [|split].
  - exists (added ++ new). rewrite Hnew, Hknown, <- app_assoc.
    split; [done|]. intros c Hc. apply in_app_iff in Hc as [Hc|Hc].
    + destruct (Hadded c Hc) as (cr & item & Hcr & Hitem & Hsp).
      exists cr, item. split; [|done]. apply in_app_iff. by left.
    + apply Hnew_in, setOf_In, in_map_iff in Hc as (item & Hsp & Hitem).
      exists (mkChunkResult (fst ic) tr), item.
      split; [|done]. apply in_app_iff. right. by left.
  - intros cr item Hcr Hitem. rewrite Hnew.
    apply in_app_iff in Hcr as [Hcr|[<-|[]]].
    + destruct (Hcov cr item Hcr Hitem) as (ks & Hks & Hp).
      exists ks. split; [|done]. apply in_app_iff. by left.
    + apply Hnew_cov, setOf_In, in_map. exact Hitem.
  - intros Hinit. apply registerLoop_NoDup. by apply Hnd.
Qed.

(** X13.  When the sequential loop returns, the registry is the initial
    hints, in place, followed by speaker codes that occur in the
    transcribed chunks; every speaker code of every transcribed item is a
    prefix of some registry entry; and a duplicate-free list of hints
    gives a duplicate-free registry. *)
Theorem registry_covers_every_transcribed_speaker :
  forall env chunkPaths init cp pt h st h',
    transcribeSequentially env chunkPaths init cp pt h = (inr st, h') ->
    (exists added,
        knownSpeakers st = init ++ added /\
        forall c, In c added ->
                  exists cr item,
                    In cr (allChunkResults st) /\
                    In item (cr_transcription cr) /\ speaker item = c) /\
    (forall cr item,
        In cr (allChunkResults st) -> In item (cr_transcription cr) ->
        exists ks, In ks (knownSpeakers st) /\
                   String.prefix (speaker item) ks = true) /\
    (NoDup init -> NoDup (knownSpeakers st)).
Proof.
  intros env chunkPaths init cp pt h st h' Hrun.
  unfold transcribeSequentially in Hrun.
  eapply (forEachM_invariant (transcribeStep env cp pt)
            (fun s _ => registryCovers init s)); [| |exact Hrun].
  - intros s ic ha s' hb Hs Hstep.
    eapply transcribeStep_registryCovers; eauto.
  - unfold registryCovers. simpl. split; [|split].
    + exists []. rewrite app_nil_r. split; [done|]. intros c [].
    + intros cr item [].
    + done.
Qed.

Lemma registry_covers_every_transcribed_speaker_witness :
  Sample.run = (inr Sample.st, snd Sample.run) /\
  (exists added,
      knownSpeakers Sample.st = [] ++ added /\
      forall c, In c added ->
                exists cr item,
                  In cr (allChunkResults Sample.st) /\
                  In item (cr_transcription cr) /\ speaker item = c) /\
  (forall cr item,
      In cr (allChunkResults Sample.st) -> In item (cr_transcription cr) ->
      exists ks, In ks (knownSpeakers Sample.st) /\
                 String.prefix (speaker item) ks = true) /\
  (NoDup (@nil string) -> NoDup (knownSpeakers Sample.st)).
Proof.
  assert (Sample.run = (inr Sample.st, snd Sample.run)) as Hrun
    by (vm_compute; reflexivity).
  split; [exact Hrun|].
  exact (registry_covers_every_transcribed_speaker Sample.env Sample.paths []
           None "" [] Sample.st (snd Sample.run) Hrun).
Defined.

(** ** The known-speaker set of the text pipeline *)

Lemma setOf_snoc xs x :
  Js.setOf (xs ++ [x]) = TextPipeline.setAdd (Js.setOf xs) x.
Proof. unfold Js.setOf. by rewrite fold_left_app. Qed.

Lemma pushItems_known timeOffset items st :
  fst st = Js.setOf (map speaker (snd st)) ->
  fst (fold_left (TextPipeline.pushItem timeOffset) items st) =
  Js.setOf (map speaker
              (snd (fold_left (TextPipeline.pushItem timeOffset) items st))).
Proof.
  revert st. induction items as [|item items IH]; intros st Hst; simpl;
    [done|].
  apply IH. unfold TextPipeline.pushItem. cbn [fst snd].
  rewrite map_app. cbn [map rebaseItem speaker].
  by rewrite setOf_snoc, Hst.
Qed.

(** X14.  In the text pipeline, when the chunk loop returns, the set of
    known speakers is exactly the speakers of the accumulated transcript,
    each once, in order of first appearance. *)
Theorem text_pipeline_known_speakers :
  forall env chunkPaths cp pt h st h',
    TextPipeline.transcribeAll env chunkPaths cp pt h = (inr st, h') ->
    fst st = Js.setOf (map speaker (snd st)) /\
    NoDup (fst st) /\
    (forall sp, In sp (fst st) <-> exists item, In item (snd st) /\
                                                 speaker item = sp).
Proof.
  intros env chunkPaths cp pt h st h' Hrun.
  assert (fst st = Js.setOf (map speaker (snd st))) as Hset.
  { unfold TextPipeline.transcribeAll in Hrun.
    eapply (forEachM_invariant (TextPipeline.chunkStep env cp pt)
              (fun s _ => fst s = Js.setOf (map speaker (snd s))));
      [| |exact Hrun]; [|done].
    intros s [i path] ha s' hb Hs Hstep.
    unfold TextPipeline.chunkStep in Hstep.
    apply bind_returns in Hstep as (tr & h1 & _ & Hret).
    rewrite mret_run in Hret. simplify_eq. by apply pushItems_known. }
  split; [exact Hset|]. rewrite Hset. split; [apply setOf_NoDup|].
  intros sp. split.
  - intros Hin. apply setOf_In, in_map_iff in Hin as (item & Hsp & Hin).
    by exists item.
  - intros (item & Hin & Hsp). apply setOf_In, in_map_iff. by exists item.
Qed.

Lemma text_pipeline_known_speakers_witness :
  let st := ([ "SPEAKER_01"; "SPEAKER_02" ],
             Sample.chunk0 ++
             map (rebaseItem (timeOffsetOf TextPipeline.segmentSeconds 1))
                 Sample.chunk1) in
  let run := TextPipeline.transcribeAll Sample.env Sample.paths None "" [] in
  run = (inr st, snd run) /\
  fst st = Js.setOf (map speaker (snd st)).
Proof.
  intros st run.
  assert (run = (inr st, snd run)) as Hrun by (vm_compute; reflexivity).
  split; [exact Hrun|].
  exact (proj1 (text_pipeline_known_speakers Sample.env Sample.paths None ""
                  [] st (snd run) Hrun)).
Defined.

(** ** From the chunks to the artifact *)

Lemma imap_index {A B} (g : nat -> B) (l : list A) :
  imap (fun k _ => g k) l = map g (seq 0 (length l)).
Proof.
  apply list_eq. intros i.
  rewrite list_lookup_imap, list_lookup_fmap.
  destruct (l !! i) as [x|] eqn:Hi; simpl.
  - apply lookup_lt_Some in Hi. by rewrite lookup_seq_lt.
  - apply lookup_ge_None in Hi. by rewrite lookup_seq_ge.
Qed.

Lemma imap_no_index {A B} (f : nat -> A -> B) (g : A -> B) (l : list A) :
  (forall k x, f k x = g x) -> imap f l = map g l.
Proof.
  intros Hfg. apply list_eq. intros i.
  rewrite list_lookup_imap, list_lookup_fmap.
  destruct (l !! i); simpl; by rewrite ?Hfg.
Qed.

Lemma processTranscription_content host response fileName :
  length (content (processTranscription host response fileName)) =
    length (transcription response) /\
  map contentTiming (content (processTranscription host response fileName)) =
    map timingAndText (transcription response) /\
  map c_speaker (content (processTranscription host response fileName)) =
    map speaker (transcription response) /\
  map id (content (processTranscription host response fileName)) =
    map (host_uuid host) (seq 0 (length (transcription response))) /\
  Forall (fun c => c_type c = "speech")
         (content (processTranscription host response fileName)).
Proof.
  unfold processTranscription. simpl. split; [apply length_imap|].
  split; [|split; [|split]].
  - change (map contentTiming ?l) with (contentTiming <$> l).
    rewrite fmap_imap. by apply imap_no_index.
  - change (map c_speaker ?l) with (c_speaker <$> l).
    rewrite fmap_imap. by apply imap_no_index.
  - change (map id ?l) with (id <$> l).
    rewrite fmap_imap.
    rewrite (imap_ext _ (fun k _ => host_uuid host k)) by done.
    apply imap_index.
  - apply Forall_forall. intros c Hc.
    apply list_elem_of_lookup in Hc as [i Hi].
    rewrite list_lookup_imap in Hi.
    destruct (transcription response !! i); simpl in Hi; by simplify_eq.
Qed.

(** X15.  Every artifact [processAudioFile] returns is the image of the
    merged transcript of a completed sequential transcription: one content
    entry per transcribed item, in chunk order, whose start, end and text
    are those of the re-based item (speaker resolution and the summary
    call do not touch them), whose speaker is the resolved one, whose id
    is the next UUID drawn and whose type is "speech"; the file name is
    the source name without extension, and title, slug and description
    come from the one summary reply. *)
Theorem artifact_reflects_merged_transcript :
  forall env host filePath customPrompt h artifact h',
    processAudioFile env host filePath customPrompt h = (inr artifact, h') ->
    exists chunkPaths hints promptTemplate ha st hb mapping hs output,
      transcribeSequentially env chunkPaths hints customPrompt promptTemplate
                             ha = (inr st, hb) /\
      env_summarize env hs
        (applyMapping mapping
           (mergeChunkResults segmentTime (allChunkResults st) [])) =
        inr output /\
      length (content artifact) =
        length (mergeChunkResults segmentTime (allChunkResults st) []) /\
      map contentTiming (content artifact) =
        map timingAndText
            (mergeChunkResults segmentTime (allChunkResults st) []) /\
      map c_speaker (content artifact) =
        map speaker
            (applyMapping mapping
               (mergeChunkResults segmentTime (allChunkResults st) [])) /\
      map id (content artifact) =
        map (host_uuid host)
            (seq 0 (length (mergeChunkResults segmentTime
                              (allChunkResults st) []))) /\
      Forall (fun c => c_type c = "speech") (content artifact) /\
      filename (info artifact) = host_nameWithoutExt host filePath /\
      date (info artifact) = host_today host /\
      name (info artifact) = so_title output /\
      info_slug (info artifact) = so_slug output.
Proof.
  intros env host filePath customPrompt h artifact h' Hrun.
  unfold processAudioFile in Hrun.
  apply bind_returns in Hrun as (tpl & h1 & _ & Hrun).
  apply finally_returns in Hrun as (h2 & Hrun).
  apply bind_returns in Hrun as (chunkPaths & h3 & _ & Hrun).
  apply bind_returns in Hrun as (hints & h4 & _ & Hrun).
  apply bind_returns in Hrun as (st & h5 & Hseq & Hrun).
  apply bind_returns in Hrun as (acc1 & h6 & Hid & Hrun).
  apply bind_returns in Hrun as (acc2 & h7 & Hsum & Hret).
  rewrite mret_run in Hret. simplify_eq.
  apply identifySpeakersWithAudio_returns in Hid as (rs & _ & ->).
  apply generateTitleAndSummary_returns in Hsum as (output & Hcall & ->).
  cbn [withTranscription transcription emptyAccumulated] in *.
  set (merged := mergeChunkResults segmentTime (allChunkResults st) []) in *.
  exists chunkPaths, hints, tpl, h4, st, h5, (globalMapping rs), h6, output.
  split; [exact Hseq|]. split; [exact Hcall|].
  destruct (processTranscription_content host
              {| title := so_title output; slug := so_slug output;
                 transcription := applyMapping (globalMapping rs) merged;
                 summary := so_summary output |}
              (host_nameWithoutExt host filePath))
    as (Hlen & Htime & Hsp & Hid' & Htype).
  cbn [transcription] in *.
  split; [by rewrite Hlen; unfold applyMapping; rewrite length_map|].
  split; [by rewrite Htime, applyMapping_frame|].
  split; [exact Hsp|].
  split; [by rewrite Hid'; unfold applyMapping; rewrite length_map|].
  split; [exact Htype|]. done.
Qed.

Lemma artifact_reflects_merged_transcript_witness :
  exists artifact h',
    processAudioFile Sample.env SampleHost.host "media/talk.mp3" None [] =
      (inr artifact, h') /\
    map contentTiming (content artifact) =
      [ (0, 10, "hello"); (10, 35, "hi");
        (0 + 1 * (60 * 10), 40 + 1 * (60 * 10), "again") ]%Q /\
    map c_speaker (content artifact) =
      [ Js.Str "Alice"; Js.Str "Bob"; Js.Str "Alice" ] /\
    exists chunkPaths hints promptTemplate ha st hb mapping hs output,
      transcribeSequentially Sample.env chunkPaths hints None promptTemplate
                             ha = (inr st, hb) /\
      env_summarize Sample.env hs
        (applyMapping mapping
           (mergeChunkResults segmentTime (allChunkResults st) [])) =
        inr output /\
      length (content artifact) =
        length (mergeChunkResults segmentTime (allChunkResults st) []) /\
      map contentTiming (content artifact) =
        map timingAndText
            (mergeChunkResults segmentTime (allChunkResults st) []) /\
      map c_speaker (content artifact) =
        map speaker
            (applyMapping mapping
               (mergeChunkResults segmentTime (allChunkResults st) [])) /\
      map id (content artifact) =
        map (host_uuid SampleHost.host)
            (seq 0 (length (mergeChunkResults segmentTime
                              (allChunkResults st) []))) /\
      Forall (fun c => c_type c = "speech") (content artifact) /\
      filename (info artifact) =
        host_nameWithoutExt SampleHost.host "media/talk.mp3" /\
      date (info artifact) = host_today SampleHost.host /\
      name (info artifact) = so_title output /\
      info_slug (info artifact) = so_slug output.
Proof.
  eexists _, _. split; [vm_compute; reflexivity|].
  split; [reflexivity|]. split; [reflexivity|].
  eapply (artifact_reflects_merged_transcript Sample.env SampleHost.host
            "media/talk.mp3" None []).
  vm_compute; reflexivity.
Defined.

(** ** Which window examines an item *)

Lemma maxWithZero_bounds xs :
  (0 <= maxWithZero xs)%Q /\
  (forall x, In x xs -> (x <= maxWithZero xs)%Q).
Proof.
  unfold maxWithZero. induction xs as [|y ys [IH0 IH]]; simpl.
  - split; [lra|]. intros x [].
  - pose proof (Q.le_max_l y (fold_right Qmax 0%Q ys)) as Hl.
    pose proof (Q.le_max_r y (fold_right Qmax 0%Q ys)) as Hr.
    split; [lra|]. intros x [<-|Hx]; [exact Hl|].
    specialize (IH x Hx). lra.
Qed.




(** An item that starts exactly at the largest end time, on a window
    boundary, lies in no visited window. *)
Lemma boundary_item_in_no_visited_window :
  let transcription := [ mkItem "SPEAKER_01" 300 300 "" ] in
  numChunksOf transcription = 1%Z /\ chunkItemsOf transcription 0 = [].
Proof. by vm_compute. Qed.

(** ** A complete reply settles its window *)

(** X18.  If the reply to a window's mapping call has distinct keys and
    gives every unknown code of the window a non-empty name, and the
    names it gives to other codes are non-empty too, then after that
    window no code of the window is unknown any more: the same window
    would now be skipped. *)
Theorem complete_reply_settles_window :
  forall env acc orig tmp numChunks st chunkIdx h st' h',
    let chunkItems := chunkItemsOf (transcription acc) chunkIdx in
    let unknown := unknownSpeakersOf (globalMapping st) chunkItems in
    identifyWindow env acc orig tmp numChunks st chunkIdx h = (inr st', h') ->
    (forall h2 userContent entries,
        h' = h2 ++ [EvResolve userContent] ->
        env_resolve env h2 userContent = inr entries ->
        List.NoDup (map fst entries) /\
        (forall sp, In sp unknown ->
                    exists name, In (sp, name) entries /\ name <> "") /\
        (forall code name, In (code, name) entries -> name <> "")) ->
    unknownSpeakersOf (globalMapping st') chunkItems = [] /\
    forall h'',
      identifyWindow env acc orig tmp numChunks st' chunkIdx h'' =
        (inr st', h'').
Proof.
  intros env acc orig tmp numChunks st chunkIdx h st' h' chunkItems unknown
         Hrun Hreply.
  assert (unknownSpeakersOf (globalMapping st') chunkItems = []) as Hnone.
  { destruct unknown as [|sp0 sps] eqn:Hunknown.
    { unfold unknown in Hunknown.
      rewrite identifyWindow_skipped in Hrun by exact Hunknown.
      by simplify_eq. }
    apply identifyWindow_processed in Hrun
      as (newSamples & h1 & content & h2 & entries & _ & _ & Hcall & -> & ->);
      [|fold chunkItems; fold unknown; by rewrite Hunknown].
    destruct (Hreply h2 content entries eq_refl Hcall)
      as (Hnd & Hcover & Hnames).
    apply unknownSpeakersOf_none. intros item Hitem.
    rewrite recordMappings_globalMapping.
    destruct (in_dec String.string_dec (speaker item) (map fst entries))
      as [Hkey|Hkey].
    - apply in_map_iff in Hkey as ([code name] & Hcode & Hin).
      simpl in Hcode. subst code. unfold Js.lookup.
      destruct (String.eqb_spec (speaker item) "__proto__") as [Hproto|Hcode].
      + destruct (globalMapping st !! speaker item) as [old|] eqn:Hold.
        * rewrite (assignAll_in entries _ _ name Hnd Hin)
            by (right; rewrite Hold; by eexists).
          simpl. destruct (String.eqb_spec name ""); [|done].
          by destruct (Hnames _ _ Hin).
        * rewrite Hproto in *. by rewrite assignAll_proto.
      + rewrite (assignAll_in entries _ _ name Hnd Hin) by (by left).
        simpl. destruct (String.eqb_spec name ""); [|done].
        by destruct (Hnames _ _ Hin).
    - unfold Js.lookup. rewrite assignAll_not_in by exact Hkey.
      fold (Js.lookup (globalMapping st) (speaker item)).
      destruct (Js.truthyValue (Js.lookup (globalMapping st) (speaker item)))
        eqn:Htruthy; [done|].
      assert (In (speaker item) unknown) as Hun.
      { apply unknownSpeakersOf_In. split; [by exists item|done]. }
      rewrite Hunknown in Hun. destruct (Hcover _ Hun) as (name & Hin & _).
      destruct Hkey. apply in_map_iff. by exists (speaker item, name). }
  split; [exact Hnone|]. intros h''. by apply identifyWindow_skipped.
Qed.

Lemma complete_reply_settles_window_witness :
  unknownSpeakersOf (globalMapping TwoWindows.st1)
                    (chunkItemsOf (transcription TwoWindows.acc) 0) = [] /\
  forall h'',
    identifyWindow TwoWindows.env TwoWindows.acc "talk.mp3" "tmp" 2
                   TwoWindows.st1 0 h'' = (inr TwoWindows.st1, h'').
Proof.
  assert (identifyWindow TwoWindows.env TwoWindows.acc "talk.mp3" "tmp" 2
            initialResolveState 0 [] =
          (inr TwoWindows.st1, snd TwoWindows.run1)) as Hrun
    by (vm_compute; reflexivity).
  apply (complete_reply_settles_window TwoWindows.env TwoWindows.acc
           "talk.mp3" "tmp" 2 initialResolveState 0 [] TwoWindows.st1
           (snd TwoWindows.run1) Hrun).
  intros h2 content entries Hlog Hcall.
  assert (resolveCalls h2 = 0%nat) as Hfirst.
  { assert (resolveCalls (snd TwoWindows.run1) = 1%nat) as Hone
      by (vm_compute; reflexivity).
    rewrite Hlog in Hone. unfold resolveCalls in *.
    rewrite List.filter_app, length_app in Hone. simpl in Hone. lia. }
  unfold TwoWindows.env, Sample.envWith in Hcall. simpl in Hcall.
  rewrite Hfirst in Hcall. simpl in Hcall. injection Hcall as <-.
  split; [|split].
  - repeat constructor; simpl; intuition discriminate.
  - intros sp Hsp. vm_compute in Hsp.
    destruct Hsp as [<-|[<-|[]]].
    + exists "Alice". split; [simpl; auto|discriminate].
    + exists "Bob". split; [simpl; auto|discriminate].
  - intros code name [Heq|[Heq|[]]]; injection Heq as <- <-; discriminate.
Defined.

(** ** The merged transcript of the text pipeline *)

Lemma numbered_cons n tr chunks :
  numbered n (tr :: chunks) = mkChunkResult n tr :: numbered (S n) chunks.
Proof.
  unfold numbered. simpl. rewrite Nat.add_0_r. f_equal.
  apply imap_ext. intros k x _. simpl. f_equal. lia.
Qed.

Lemma numbered_indices chunks n :
  map index (numbered n chunks) = seq n (length chunks).
Proof.
  revert n. induction chunks as [|tr chunks IH]; intros n; [done|].
  rewrite numbered_cons. simpl. by rewrite IH.
Qed.

Lemma numbered_transcriptions chunks n :
  map cr_transcription (numbered n chunks) = chunks.
Proof.
  revert n. induction chunks as [|tr chunks IH]; intros n; [done|].
  rewrite numbered_cons. simpl. by rewrite IH.
Qed.

Lemma textLoop_replies env cp pt paths :
  forall n st h st' h',
    forEachM (TextPipeline.chunkStep env cp pt)
             (combine (seq n (length paths)) paths) st h = (inr st', h') ->
    exists chunks segments,
      length chunks = length paths /\
      length segments = length paths /\
      h' = h ++ concat segments /\
      (forall k chunkPath,
          paths !! k = Some chunkPath ->
          exists segment chunk,
            segments !! k = Some segment /\
            chunks !! k = Some chunk /\
            answeredWith env (h ++ concat (take k segments)) chunkPath
                         segment chunk) /\
      snd st' =
      snd st ++
      concat (map (rebasedChunk TextPipeline.segmentSeconds)
                  (numbered n chunks)).
Proof.
  induction paths as [|p paths IH]; intros n st h st' h' Hrun.
  - simpl in Hrun. rewrite mret_run in Hrun. simplify_eq.
    exists [], []. rewrite !app_nil_r.
    split; [done|]. split; [done|]. split; [done|]. split; [|done].
    intros k q Hk. by destruct k.
  - cbn [length seq combine] in Hrun. rewrite forEachM_cons in Hrun.
    destruct (TextPipeline.chunkStep env cp pt st (n, p) h)
      as [[e|s1] h1] eqn:Hstep; [discriminate|].
    unfold TextPipeline.chunkStep in Hstep.
    apply bind_returns in Hstep as (tr & h2 & Hchunk & Hret).
    rewrite mret_run in Hret. simplify_eq.
    apply transcribeChunk_reply in Hchunk as (audio & pre & -> & Hcall).
    match type of Hcall with
    | env_transcribe _ _ ?sys _ = _ => set (system := sys) in *
    end.
    set (segment := EvReadFile p :: pre ++ [EvTranscribe system audio]) in *.
    apply IH in Hrun as (chunks & segments & Hlen & Hlens & -> & Hreq & Hsnd).
    exists (tr :: chunks), (segment :: segments).
    split; [simpl; lia|]. split; [simpl; lia|].
    split; [cbn [concat]; by rewrite app_assoc|]. split.
    + intros [|k] q Hk.
      * cbn [lookup list_lookup] in Hk. simplify_eq. exists segment, tr.
        split; [done|]. split; [done|].
        exists system, audio, pre. split; [done|].
        cbn [take concat]. by rewrite app_nil_r.
      * cbn [lookup list_lookup] in Hk.
        destruct (Hreq k q Hk) as (seg & chunk & Hs & Hc & Hans).
        exists seg, chunk. split; [done|]. split; [done|].
        cbn [take concat]. by rewrite app_assoc.
    + rewrite Hsnd, pushItem_spec, numbered_cons. cbn [map concat snd].
      by rewrite <- app_assoc.
Qed.

(** X19.  When the chunk loop of the text pipeline returns, the log it
    added is one segment of requests per chunk path, in order, each a read
    of the chunk file followed by inference calls the last of which the
    service answered; and the accumulated transcript is the concatenation,
    in chunk order, of those answers, the answer for chunk [i] re-based by
    [i * 300] seconds.  If every answer has its relative start times in
    [[0, 300)] in ascending order, the accumulated transcript is sorted
    by start time. *)
Theorem text_pipeline_transcript_in_order :
  forall env chunkPaths cp pt h st h',
    TextPipeline.transcribeAll env chunkPaths cp pt h = (inr st, h') ->
    exists chunks segments,
      length chunks = length chunkPaths /\
      length segments = length chunkPaths /\
      h' = h ++ concat segments /\
      (forall k chunkPath,
          chunkPaths !! k = Some chunkPath ->
          exists segment chunk,
            segments !! k = Some segment /\
            chunks !! k = Some chunk /\
            answeredWith env (h ++ concat (take k segments)) chunkPath
                         segment chunk) /\
      snd st =
        concat (imap (fun i tr =>
                        map (rebaseItem
                               (timeOffsetOf TextPipeline.segmentSeconds i))
                            tr)
                     chunks) /\
      (Forall (chunkInOrder TextPipeline.segmentSeconds) chunks ->
       StronglySorted byStart (snd st)).
Proof.
  intros env chunkPaths cp pt h st h' Hrun.
  unfold TextPipeline.transcribeAll, indexed in Hrun.
  apply textLoop_replies in Hrun
    as (chunks & segments & Hlen & Hlens & Hlog & Hreq & Hsnd).
  simpl in Hsnd. exists chunks, segments.
  split; [exact Hlen|]. split; [exact Hlens|]. split; [exact Hlog|].
  split; [exact Hreq|]. split.
  - rewrite Hsnd. f_equal. unfold numbered.
    change (map ?f ?l) with (f <$> l). rewrite fmap_imap.
    apply imap_ext. by intros i tr _.
  - intros Hall. rewrite Hsnd.
    apply (merged_chunks_sorted TextPipeline.segmentSeconds
             (numbered 0 chunks) 0).
    + rewrite numbered_indices. f_equal.
      rewrite <- (numbered_transcriptions chunks 0) at 1.
      by rewrite length_map.
    + apply Forall_forall. intros cr Hcr.
      rewrite Forall_forall in Hall. apply Hall.
      rewrite <- (numbered_transcriptions chunks 0).
      apply list_elem_of_fmap. by exists cr.
Qed.

Lemma text_pipeline_transcript_in_order_witness :
  let run := TextPipeline.transcribeAll Sample.env Sample.paths None "" [] in
  let st := ([ "SPEAKER_01"; "SPEAKER_02" ],
             Sample.chunk0 ++
             map (rebaseItem (timeOffsetOf TextPipeline.segmentSeconds 1))
                 Sample.chunk1) in
  run = (inr st, snd run) /\
  exists chunks segments,
    length chunks = length Sample.paths /\
    length segments = length Sample.paths /\
    snd run = [] ++ concat segments /\
    (forall k chunkPath,
        Sample.paths !! k = Some chunkPath ->
        exists segment chunk,
          segments !! k = Some segment /\
          chunks !! k = Some chunk /\
          answeredWith Sample.env ([] ++ concat (take k segments)) chunkPath
                       segment chunk) /\
    snd st =
      concat (imap (fun i tr =>
                      map (rebaseItem
                             (timeOffsetOf TextPipeline.segmentSeconds i))
                          tr)
                   chunks) /\
    (Forall (chunkInOrder TextPipeline.segmentSeconds) chunks ->
     StronglySorted byStart (snd st)).
Proof.
  intros run st.
  assert (run = (inr st, snd run)) as Hrun by (vm_compute; reflexivity).
  split; [exact Hrun|].
  exact (text_pipeline_transcript_in_order Sample.env Sample.paths None ""
           [] st (snd run) Hrun).
Defined.

(** ** The stages of a run *)

Lemma emitsOnly_ret K {A} (a : A) : emitsOnly K (mret a : M A).
Proof. intros h. exists []. by rewrite app_nil_r. Qed.

Lemma emitsOnly_throw K {A} e : emitsOnly K (throw e : M A).
Proof. intros h. exists []. by rewrite app_nil_r. Qed.

Lemma emitsOnly_bind K {A B} (m : M A) (f : A -> M B) :
  emitsOnly K m -> (forall a, emitsOnly K (f a)) -> emitsOnly K (m ≫= f).
Proof.
  intros Hm Hf h. rewrite bind_run.
  destruct (Hm h) as (a1 & H1 & HF1).
  destruct (m h) as [[e|a] h1]; simpl in H1; subst h1.
  - by exists a1.
  - destruct (Hf a (h ++ a1)) as (a2 & H2 & HF2).
    exists (a1 ++ a2). rewrite H2, app_assoc. split; [done|].
    by apply Forall_app.
Qed.

Lemma emitsOnly_tryCatch K {A} (m : M A) (handler : Error -> M A) :
  emitsOnly K m -> (forall e, emitsOnly K (handler e)) ->
  emitsOnly K (tryCatch m handler).
Proof.
  intros Hm Hf h. unfold tryCatch.
  destruct (Hm h) as (a1 & H1 & HF1).
  destruct (m h) as [[e|a] h1]; simpl in H1; subst h1.
  - destruct (Hf e (h ++ a1)) as (a2 & H2 & HF2).
    exists (a1 ++ a2). rewrite H2, app_assoc. split; [done|].
    by apply Forall_app.
  - by exists a1.
Qed.

Lemma emitsOnly_request K {A} ev (reply : Log -> Error + A) :
  K ev = true -> emitsOnly K (request ev reply).
Proof. intros HK h. exists [ev]. split; [done|]. by repeat constructor. Qed.

Lemma emitsOnly_command K ev reply :
  K ev = true -> emitsOnly K (command ev reply).
Proof. intros HK h. exists [ev]. split; [done|]. by repeat constructor. Qed.

Lemma emitsOnly_forEachM K {A S} (body : S -> A -> M S) xs :
  (forall s x, emitsOnly K (body s x)) ->
  forall s, emitsOnly K (forEachM body xs s).
Proof.
  intros Hbody. induction xs as [|x xs IH]; intros s.
  - apply emitsOnly_ret.
  - simpl. apply emitsOnly_bind; [apply Hbody|]. intros s'. apply IH.
Qed.

Lemma retryLoop_emits env n system audio :
  emitsOnly transcriptionStage (retryLoop env n system audio).
Proof.
  induction n as [|n IH]; simpl.
  - apply emitsOnly_throw.
  - apply emitsOnly_tryCatch.
    + by apply emitsOnly_request.
    + intros e. destruct (n =? 0)%nat; [apply emitsOnly_throw|].
      apply emitsOnly_bind; [by apply emitsOnly_command|].
      intros _. apply IH.
Qed.

Lemma transcribeSequentially_emits env chunkPaths hints cp pt :
  emitsOnly transcriptionStage
            (transcribeSequentially env chunkPaths hints cp pt).
Proof.
  unfold transcribeSequentially. apply emitsOnly_forEachM.
  intros st [i p]. unfold transcribeStep, transcribeChunk.
  apply emitsOnly_bind; [|intros; apply emitsOnly_ret].
  apply emitsOnly_bind; [by apply emitsOnly_request|].
  intros fileData. apply retryLoop_emits.
Qed.

Lemma splitAudio_emits env filePath dir seg :
  emitsOnly transcriptionStage (splitAudio env filePath dir seg).
Proof.
  unfold splitAudio.
  apply emitsOnly_bind; [by apply emitsOnly_command|].
  intros _. by apply emitsOnly_request.
Qed.

Lemma discoverSpeakers_emits env audioPath tmp :
  emitsOnly transcriptionStage (discoverSpeakers env audioPath tmp).
Proof.
  unfold discoverSpeakers.
  apply emitsOnly_tryCatch; [|intros; apply emitsOnly_ret].
  apply emitsOnly_bind; [by apply emitsOnly_command|]. intros _.
  apply emitsOnly_bind; [by apply emitsOnly_request|]. intros fileData.
  apply emitsOnly_bind; [by apply emitsOnly_request|]. intros speakers.
  apply emitsOnly_ret.
Qed.

Lemma identifyWindow_emits env acc orig tmp numChunks st chunkIdx :
  emitsOnly resolutionStage
            (identifyWindow env acc orig tmp numChunks st chunkIdx).
Proof.
  unfold identifyWindow. cbv zeta.
  destruct (length _ =? 0)%nat; [apply emitsOnly_ret|].
  destruct (length _ =? 0)%nat; [apply emitsOnly_ret|].
  apply emitsOnly_bind.
  { apply emitsOnly_forEachM. intros ns sp. unfold extractSample. cbv zeta.
    destruct (bestItemOf _); [|apply emitsOnly_throw].
    apply emitsOnly_bind; [by apply emitsOnly_command|].
    intros _. apply emitsOnly_ret. }
  intros newSamples. apply emitsOnly_bind.
  { unfold buildUserContent. cbv zeta.
    apply emitsOnly_bind.
    { destruct (0 <? _)%nat; [|apply emitsOnly_ret].
      apply emitsOnly_forEachM. intros uc [name info].
      apply emitsOnly_bind; [by apply emitsOnly_request|].
      intros; apply emitsOnly_ret. }
    intros uc. apply emitsOnly_bind; [|intros; apply emitsOnly_ret].
    apply emitsOnly_forEachM. intros uc' sample.
    apply emitsOnly_bind; [by apply emitsOnly_request|].
    intros; apply emitsOnly_ret. }
  intros userContent.
  apply emitsOnly_bind; [by apply emitsOnly_request|].
  intros; apply emitsOnly_ret.
Qed.

Lemma identifySpeakersWithAudio_emits env acc orig tmp :
  emitsOnly resolutionStage (identifySpeakersWithAudio env acc orig tmp).
Proof.
  unfold identifySpeakersWithAudio, identifyLoop, identifyWindows. cbv zeta.
  apply emitsOnly_bind; [|intros; apply emitsOnly_ret].
  apply emitsOnly_bind.
  { unfold spreadMaxWithZero.
    destruct (env_spreadLimit env <? _)%N;
      [apply emitsOnly_throw|apply emitsOnly_ret]. }
  intros maxTime.
  apply emitsOnly_bind; [by apply emitsOnly_command|]. intros _.
  apply emitsOnly_forEachM. intros st chunkIdx. apply identifyWindow_emits.
Qed.

(** X20.  The log of any run of [processAudioFile], whatever its
    outcome, has one shape.  It starts with the read of [prompt.md]; if
    that read fails nothing else is asked.  Otherwise there follow, in
    this order: the requests of splitting, speaker discovery and chunk
    transcription (no mapping and no summary request among them); the
    requests of speaker resolution (no transcription and no summary
    request among them); at most one summary request; and last the removal
    of the working directory.  A run that returns an artifact has made
    the summary request. *)
Theorem stages_run_in_order :
  forall env host filePath customPrompt h,
    let run := processAudioFile env host filePath customPrompt h in
    let promptPath := Js.pathJoin (host_cwd host) "prompt.md" in
    (snd run = h ++ [EvReadFile promptPath] /\ exists e, fst run = inl e) \/
    exists first second last,
      snd run =
        h ++ [EvReadFile promptPath] ++ first ++ second ++ last ++
        [EvRm (tempDirOf host)] /\
      Forall (fun ev => transcriptionStage ev = true) first /\
      Forall (fun ev => resolutionStage ev = true) second /\
      (last = [] \/ exists transcript, last = [EvSummarize transcript]) /\
      (forall artifact, fst run = inr artifact -> last <> []).
Proof.
  intros env host filePath customPrompt h run promptPath. subst run.
  unfold processAudioFile. rewrite bind_run. unfold readFile, request.
  fold promptPath.
  destruct (env_readFile env h promptPath) as [e|tpl];
    [left; simpl; eauto|right].
  rewrite finally_run. fold (tempDirOf host).
  set (h1 := h ++ [EvReadFile promptPath]).
  assert (forall l, snd (tryCatch (rm env (tempDirOf host))
                           (fun _ => mret tt) l) =
                    l ++ [EvRm (tempDirOf host)]) as Hrm.
  { intros l. unfold tryCatch, rm, command.
    by destruct (env_rm env l (tempDirOf host)). }
  rewrite Hrm. cbn [fst snd].
  match goal with |- context [fst (?body h1)] => set (block := body) end.
  assert (exists first second last,
             snd (block h1) = h1 ++ first ++ second ++ last /\
             Forall (fun ev => transcriptionStage ev = true) first /\
             Forall (fun ev => resolutionStage ev = true) second /\
             (last = [] \/ exists transcript, last = [EvSummarize transcript]) /\
             (forall artifact, fst (block h1) = inr artifact -> last <> []))
    as (first & second & last & Hlog & H1 & H2 & H3 & H4).
  { subst block. cbv beta. rewrite bind_run.
    destruct (splitAudio_emits env filePath (tempDirOf host) segmentTime h1)
      as (a1 & Ha1 & HF1).
    destruct (splitAudio env filePath (tempDirOf host) segmentTime h1)
      as [[e|chunkPaths] h2]; cbn [snd] in Ha1; subst h2.
    { exists a1, [], []. rewrite !app_nil_r. cbn [fst snd].
      split; [done|]. split; [done|]. split; [by constructor|].
      split; [by left|]. intros; discriminate. }
    rewrite bind_run.
    destruct (discoverSpeakers_emits env filePath (tempDirOf host) (h1 ++ a1))
      as (a2 & Ha2 & HF2).
    destruct (discoverSpeakers env filePath (tempDirOf host) (h1 ++ a1))
      as [[e|hints] h3]; cbn [snd] in Ha2; subst h3.
    { exists (a1 ++ a2), [], []. rewrite !app_nil_r, <- app_assoc.
      cbn [fst snd].
      split; [done|]. split; [by rewrite !Forall_app|].
      split; [by constructor|].
      split; [by left|]. intros; discriminate. }
    rewrite bind_run.
    destruct (transcribeSequentially_emits env chunkPaths hints customPrompt
                tpl ((h1 ++ a1) ++ a2)) as (a3 & Ha3 & HF3).
    destruct (transcribeSequentially env chunkPaths hints customPrompt tpl
                ((h1 ++ a1) ++ a2)) as [[e|st] h4]; cbn [snd] in Ha3; subst h4.
    { exists (a1 ++ a2 ++ a3), [], []. rewrite !app_nil_r, <- !app_assoc.
      cbn [fst snd].
      split; [done|]. split; [by rewrite !Forall_app|].
      split; [by constructor|].
      split; [by left|]. intros; discriminate. }
    rewrite bind_run.
    match goal with |- context [identifySpeakersWithAudio env ?acc _ _ ?l] =>
      destruct (identifySpeakersWithAudio_emits env acc filePath
                  (tempDirOf host) l) as (a4 & Ha4 & HF4);
      destruct (identifySpeakersWithAudio env acc filePath (tempDirOf host) l)
        as [[e|acc1] h5]; cbn [snd] in Ha4; subst h5
    end.
    { exists (a1 ++ a2 ++ a3), a4, []. rewrite !app_nil_r, <- !app_assoc.
      cbn [fst snd].
      split; [done|]. split; [by rewrite !Forall_app|].
      split; [done|].
      split; [by left|]. intros; discriminate. }
    rewrite bind_run. unfold generateTitleAndSummary at 1.
    rewrite bind_run. unfold request at 1.
    exists (a1 ++ a2 ++ a3), a4, [EvSummarize (transcription acc1)].
    match goal with |- context [env_summarize env ?l ?t] =>
      destruct (env_summarize env l t) as [e|output]
    end; rewrite ?mret_run; cbn [fst snd]; rewrite <- !app_assoc;
      (split; [done|]); (split; [by rewrite !Forall_app|]);
      (split; [done|]); (split; [right; by eexists|]); done. }
  exists first, second, last. rewrite Hlog. unfold h1.
  rewrite <- !app_assoc. done.
Qed.

(** ** What each chunk is transcribed with *)

Lemma numbered_snoc chunks tr :
  numbered 0 (chunks ++ [tr]) =
  numbered 0 chunks ++ [mkChunkResult (length chunks) tr].
Proof.
  unfold numbered. rewrite imap_app. simpl. by rewrite Nat.add_0_r.
Qed.

Lemma stateAfter_snoc hints chunks tr :
  stateAfter hints (chunks ++ [tr]) =
  {| allChunkResults :=
       allChunkResults (stateAfter hints chunks) ++
       [mkChunkResult (length chunks) tr];
     knownSpeakers :=
       updateKnownSpeakers (knownSpeakers (stateAfter hints chunks)) tr;
     previousContext :=
       contextOf (allChunkResults (stateAfter hints chunks) ++
                  [mkChunkResult (length chunks) tr]) |}.
Proof.
  unfold stateAfter. cbn [allChunkResults knownSpeakers].
  by rewrite numbered_snoc, fold_left_app.
Qed.

Lemma retryLoop_attempts env n system audio :
  forall h, exists rest,
    snd (retryLoop env n system audio h) = h ++ rest /\
    Forall (fun ev => ev = EvTranscribe system audio \/
                      ev = EvDelay retryDelayMs) rest.
Proof.
  induction n as [|n IH]; intros h.
  - exists []. cbn [retryLoop]. unfold throw. cbn [snd].
    by rewrite app_nil_r.
  - cbn [retryLoop]. unfold tryCatch, generateTranscription, request.
    destruct (env_transcribe env h system audio) as [e|v].
    + destruct (n =? 0)%nat.
      * exists [EvTranscribe system audio]. split; [done|].
        constructor; [by left|constructor].
      * rewrite bind_run. unfold delay, command.
        destruct (IH ((h ++ [EvTranscribe system audio]) ++
                      [EvDelay retryDelayMs])) as (rest & Hr & HF).
        exists (EvTranscribe system audio :: EvDelay retryDelayMs :: rest).
        split; [by rewrite Hr, <- !app_assoc|].
        constructor; [by left|]. constructor; [by right|done].
    + exists [EvTranscribe system audio]. split; [done|].
      constructor; [by left|constructor].
Qed.

Lemma transcribeChunk_requests env p i ctx known cp pt h tr h' :
  transcribeChunk env p i ctx known cp pt h = (inr tr, h') ->
  exists segment,
    h' = h ++ segment /\
    chunkRequests (buildSystemPrompt pt ctx known cp) p segment.
Proof.
  unfold transcribeChunk. intros Hrun.
  apply bind_returns in Hrun as (audio & h1 & Hread & Hloop).
  unfold readFile, request in Hread. simplify_eq.
  destruct (retryLoop_attempts env maxRetries
              (buildSystemPrompt pt ctx known cp) audio
              (h ++ [EvReadFile p])) as (rest & Hr & HF).
  rewrite Hloop in Hr. cbn [snd] in Hr.
  exists (EvReadFile p :: rest). split; [by rewrite Hr, <- app_assoc|].
  by exists audio, rest.
Qed.

Lemma transcribeLoop_threads env hints cp pt chunkPaths :
  forall done h st h',
    forEachM (transcribeStep env cp pt)
             (combine (seq (length done) (length chunkPaths)) chunkPaths)
             (stateAfter hints done) h = (inr st, h') ->
    exists chunks segments,
      length chunks = length chunkPaths /\
      st = stateAfter hints (done ++ chunks) /\
      h' = h ++ concat segments /\
      forall k chunkPath,
        chunkPaths !! k = Some chunkPath ->
        exists segment,
          segments !! k = Some segment /\
          chunkRequests
            (promptOf cp pt (stateAfter hints (done ++ take k chunks)))
            chunkPath segment.
Proof.
  induction chunkPaths as [|p chunkPaths IH]; intros done h st h' Hrun.
  - simpl in Hrun. rewrite mret_run in Hrun. simplify_eq.
    exists [], []. rewrite !app_nil_r. repeat split. intros k q Hk.
    by destruct k.
  - cbn [length seq combine] in Hrun. rewrite forEachM_cons in Hrun.
    destruct (transcribeStep env cp pt (stateAfter hints done)
                (length done, p) h) as [[e|s1] h1] eqn:Hstep; [discriminate|].
    unfold transcribeStep in Hstep.
    apply bind_returns in Hstep as (tr & h2 & Hchunk & Hret).
    rewrite mret_run in Hret.
    apply transcribeChunk_requests in Hchunk as (segment & -> & Hseg).
    rewrite <- stateAfter_snoc in Hret. simplify_eq.
    replace (S (length done)) with (length (done ++ [tr])) in Hrun
      by (rewrite length_app; simpl; lia).
    apply IH in Hrun as (chunks & segments & Hlen & -> & -> & Hreq).
    exists (tr :: chunks), (segment :: segments).
    split; [simpl; lia|]. split; [by rewrite <- app_assoc|].
    split; [by rewrite <- app_assoc|].
    intros [|k] q Hk.
    + simpl in Hk. simplify_eq. exists segment. split; [done|].
      by rewrite app_nil_r.
    + simpl in Hk. destruct (Hreq k q Hk) as (seg & Hs & Hr).
      exists seg. split; [done|]. by rewrite <- app_assoc in Hr.
Qed.

(** X21.  When the sequential loop returns, chunk [k] has been
    transcribed with what the chunks before it gave, and with nothing
    else: every inference call made for it (the retries included) carries
    the same audio and the system prompt built from the registry obtained
    by registering, on top of the initial hints, the speakers of chunks
    [0 .. k-1] in order, and from the last 100 lines of those chunks; the
    requests of the chunks follow one another in chunk order, each
    starting with the read of its file; and the loop ends with the
    registry and context of all chunks. *)
Theorem chunk_prompt_carries_earlier_chunks :
  forall env chunkPaths initialSpeakers customPrompt promptTemplate h st h',
    transcribeSequentially env chunkPaths initialSpeakers customPrompt
                           promptTemplate h = (inr st, h') ->
    exists chunks segments,
      length chunks = length chunkPaths /\
      st = stateAfter initialSpeakers chunks /\
      h' = h ++ concat segments /\
      forall k chunkPath,
        chunkPaths !! k = Some chunkPath ->
        exists segment,
          segments !! k = Some segment /\
          chunkRequests
            (promptOf customPrompt promptTemplate
                      (stateAfter initialSpeakers (take k chunks)))
            chunkPath segment.
Proof.
  intros env chunkPaths initialSpeakers customPrompt promptTemplate h st h'
         Hrun.
  unfold transcribeSequentially, indexed in Hrun.
  exact (transcribeLoop_threads env initialSpeakers customPrompt
           promptTemplate chunkPaths [] h st h' Hrun).
Qed.

Lemma chunk_prompt_carries_earlier_chunks_witness :
  let run := transcribeSequentially Sample.env Sample.paths [] None "" [] in
  let st := stateAfter [] [Sample.chunk0; Sample.chunk1] in
  run = (inr st, snd run) /\
  promptOf None "" (stateAfter [] [Sample.chunk0]) =
    {| sp_template := "";
       sp_knownSpeakers := "SPEAKER_01, SPEAKER_02";
       sp_previousContext :=
         "SPEAKER_01: hello" +:+ newline +:+ "SPEAKER_02: hi";
       sp_customPrompt := "" |} /\
  exists chunks segments,
    length chunks = length Sample.paths /\
    st = stateAfter [] chunks /\
    snd run = [] ++ concat segments /\
    forall k chunkPath,
      Sample.paths !! k = Some chunkPath ->
      exists segment,
        segments !! k = Some segment /\
        chunkRequests (promptOf None "" (stateAfter [] (take k chunks)))
                      chunkPath segment.
Proof.
  intros run st.
  assert (run = (inr st, snd run)) as Hrun by (vm_compute; reflexivity).
  split; [exact Hrun|]. split; [vm_compute; reflexivity|].
  exact (chunk_prompt_carries_earlier_chunks Sample.env Sample.paths [] None
           "" [] st (snd run) Hrun).
Defined.
